(** * The form builder's rule engine: schema model, visibility, validation,
      dependency cycles and migration

    A shallow embedding of
    - [src/types/index.ts]           (module [Types]),
    - [src/constants]                (module [Constants]),
    - [src/schema/fieldRegistry.ts]  (module [FieldRegistry]),
    - [src/schema/utils.ts]          (module [SchemaUtils]),
    - [src/validation/index.ts]      (module [Validation]),
    - [src/store/index.ts]           (module [Store]),
    with the JavaScript built-ins they use (module [Js]), followed by the
    predicates of the specification (module [Spec]), sample forms (module
    [Samples]) and the properties proved.

    Conventions of the embedding.
    - A JavaScript number is an integer ([Z]) or [NaN]; fractions and
      infinities are not represented. The embedding is exact on the safe
      integers (at most [2^53] in absolute value), where the comparisons and
      the conversion to a string are those of the doubles.
    - A string is a [string] whose characters stand for the UTF-16 code
      units [0 .. 255]; strings with other code units are not represented.
      Among these code units the white space of [String.prototype.trim] and
      of the class [\s] is 9 to 13, 32 and 160 (the no-break space).
    - Arrays, [File] objects and the other objects and functions carry a
      reference [ref], because [===] and [Array.prototype.includes] compare
      objects by identity.
    - A plain object used as a map ([formData], [errors]) is the finite map
      of its own properties; reading a key it does not have finds the
      members of [Object.prototype], and assigning to [__proto__] stores
      nothing.
    - The clock ([new Date().toISOString()]) and the id generator ([uuidv4()])
      are explicit arguments [now] and [newId] of the operations that read
      them; [new RegExp(p).test(s)] and [new URL(s)] are arguments of the
      validation.
    - The store keeps its [fields] as a list of [FieldEntry]; the validation
      and the cycle detection are modelled on arrays of well-typed fields,
      [list FieldSchema], as their signatures say. *)

From Stdlib Require Import ZArith Ascii String.
From stdpp Require Import gmap strings list fin_maps pretty relations.

Local Open Scope string_scope.
Local Open Scope list_scope.
Local Open Scope Z_scope.
Local Set Warnings "-register-all,-clear-no-such-hyp".

(* ===================================================================== *)
(** ** JavaScript values and built-ins used by the engine *)
(* ===================================================================== *)

Module Js.

(** A number: [NaN] or an integer. *)
Inductive Num : Type :=
| NaN : Num
| Int (z : Z) : Num.

(** The [File] objects the renderer stores in the form data. *)
Record File : Type := mkFile {
  file_name : string;
  file_size : Num;
  file_type : string;
}.

(** Values: [FieldValue] of the form data and the [unknown] of a
    conditional rule's [value]. [VObject] is any other object or function
    (neither an array nor a [File]), known by its reference only. *)
Inductive Value : Type :=
| VUndefined : Value
| VNull : Value
| VBool (b : bool) : Value
| VNum (n : Num) : Value
| VStr (s : string) : Value
| VArr (ref : nat) (items : list Value) : Value
| VFile (ref : nat) (f : File) : Value
| VObject (ref : nat) : Value.

Definition num_eqb (a b : Num) : bool :=
  match a, b with
  | Int x, Int y => Z.eqb x y
  | _, _ => false
  end.

Definition num_ltb (a b : Num) : bool :=
  match a, b with
  | Int x, Int y => Z.ltb x y
  | _, _ => false
  end.

Definition num_leb (a b : Num) : bool :=
  match a, b with
  | Int x, Int y => Z.leb x y
  | _, _ => false
  end.

(** [a > b] and [a >= b]. *)
Definition num_gtb (a b : Num) : bool := num_ltb b a.
Definition num_geb (a b : Num) : bool := num_leb b a.

(** [a === b]. *)
Definition strict_eq (a b : Value) : bool :=
  match a, b with
  | VUndefined, VUndefined => true
  | VNull, VNull => true
  | VBool x, VBool y => Bool.eqb x y
  | VNum x, VNum y => num_eqb x y
  | VStr x, VStr y => String.eqb x y
  | VArr r1 _, VArr r2 _ => Nat.eqb r1 r2
  | VFile r1 _, VFile r2 _ => Nat.eqb r1 r2
  | VObject r1, VObject r2 => Nat.eqb r1 r2
  | _, _ => false
  end.

(** SameValueZero, the comparison of [Array.prototype.includes]: [===]
    except that [NaN] equals [NaN]. *)
Definition same_value_zero (a b : Value) : bool :=
  match a, b with
  | VNum NaN, VNum NaN => true
  | _, _ => strict_eq a b
  end.

(** [items.includes(x)]. *)
Definition array_includes (items : list Value) (x : Value) : bool :=
  existsb (fun y => same_value_zero y x) items.

(** [s.startsWith(p)]. *)
Fixpoint startsWith (s p : string) {struct p} : bool :=
  match p with
  | EmptyString => true
  | String c p' =>
      match s with
      | EmptyString => false
      | String d s' => Ascii.eqb d c && startsWith s' p'
      end
  end.

(** [s.includes(sub)]. *)
Fixpoint string_includes (s sub : string) : bool :=
  startsWith s sub ||
  match s with
  | EmptyString => false
  | String _ s' => string_includes s' sub
  end.

(** [s.endsWith(p)]. *)
Fixpoint endsWith (s p : string) : bool :=
  String.eqb s p ||
  match s with
  | EmptyString => false
  | String _ s' => endsWith s' p
  end.

(** White space as [String.prototype.trim] and the regular expression
    class [\s] see it, among the code units below 256: tab, line feed,
    vertical tab, form feed, carriage return, space and no-break space. *)
Definition is_white_space (c : ascii) : bool :=
  let n := nat_of_ascii c in
  (Nat.leb 9 n && Nat.leb n 13) || Nat.eqb n 32 || Nat.eqb n 160.

Fixpoint trimStart (s : string) : string :=
  match s with
  | EmptyString => EmptyString
  | String c s' => if is_white_space c then trimStart s' else s
  end.

Fixpoint trimEnd (s : string) : string :=
  match s with
  | EmptyString => EmptyString
  | String c s' =>
      let t := trimEnd s' in
      if is_white_space c && String.eqb t "" then "" else String c t
  end.

(** [s.trim()]. *)
Definition trim (s : string) : string := trimEnd (trimStart s).

(** [s.split(',')]. *)
Fixpoint split_comma_go (cur : string) (s : string) : list string :=
  match s with
  | EmptyString => [String.rev cur]
  | String c s' =>
      if Ascii.eqb c ","%char
      then String.rev cur :: split_comma_go "" s'
      else split_comma_go (String c cur) s'
  end.

Definition split_comma (s : string) : list string := split_comma_go "" s.

(** [s.slice(0, -2)]. *)
Definition drop_last2 (s : string) : string :=
  String.substring 0 (String.length s - 2) s.

(** [`${n}`] for a number: the decimal digits, as [Number::toString] gives
    them for every safe integer. *)
Definition num_to_string (n : Num) : string :=
  match n with
  | NaN => "NaN"
  | Int z => pretty z
  end.

(** The members of [Object.prototype], which every plain object inherits:
    eleven functions and the accessor [__proto__], whose getter returns
    [Object.prototype] itself. Each is an object of its own. *)
Definition Object_prototype_names : list string :=
  [ "constructor"; "hasOwnProperty"; "isPrototypeOf";
    "propertyIsEnumerable"; "toLocaleString"; "toString"; "valueOf";
    "__defineGetter__"; "__defineSetter__"; "__lookupGetter__";
    "__lookupSetter__"; "__proto__" ].

Fixpoint index_of (key : string) (names : list string) (i : nat)
    : option nat :=
  match names with
  | [] => None
  | name :: rest =>
      if String.eqb key name then Some i else index_of key rest (S i)
  end.

(** [o[key]] on a plain object [o] given by its own properties: the own
    property, or else the inherited member, or else [undefined]. *)
Definition get_property (o : gmap string Value) (key : string) : Value :=
  match o !! key with
  | Some v => v
  | None =>
      match index_of key Object_prototype_names 0 with
      | Some i => VObject i
      | None => VUndefined
      end
  end.

(** [o[key] = v] on a plain object [o], for a primitive [v]: the own
    property is created or overwritten. The one exception is the key
    [__proto__] on an object that has no such own property: the assignment
    reaches the setter of [Object.prototype], which ignores a primitive. *)
Definition set_property {A : Type} (o : gmap string A) (key : string) (v : A)
    : gmap string A :=
  if String.eqb key "__proto__" && negb (bool_decide (is_Some (o !! key)))
  then o
  else <[key := v]> o.

(** [array.splice(start, deleteCount, ...items)]: the index the call works
    at. A negative [start] counts from the end; the result is clamped to
    [0 .. len]. *)
Definition splice_start (len : nat) (start : Z) : nat :=
  if start <? 0
  then Z.to_nat (Z.max (Z.of_nat len + start) 0)
  else Z.to_nat (Z.min start (Z.of_nat len)).

(** [array.splice(start, deleteCount, ...items)]: the removed elements and
    the array afterwards. *)
Definition splice {A : Type} (l : list A) (start : Z) (deleteCount : nat)
    (items : list A) : list A * list A :=
  let s := splice_start (length l) start in
  (take deleteCount (drop s l),
   take s l ++ items ++ drop (s + deleteCount) l).

End Js.

(* ===================================================================== *)
(** ** [src/types/index.ts] *)
(* ===================================================================== *)

Module Types.
Import Js.

Inductive FieldType : Type :=
| text | email | password | number | textarea | select | radio | checkbox
| date | file | switch | rating | range | hidden | section | conditional.

Inductive ConditionOperator : Type :=
| op_equals | op_notEquals | op_contains | op_notContains
| op_greaterThan | op_lessThan | op_greaterThanOrEqual | op_lessThanOrEqual
| op_isEmpty | op_isNotEmpty.

Inductive LogicOperator : Type := AND | OR.

Inductive ValidationType : Type :=
| vt_required | vt_minLength | vt_maxLength | vt_min | vt_max
| vt_pattern | vt_email | vt_url | vt_custom.

(** [ValidationRule]; an absent [value] is [VUndefined]. *)
Record ValidationRule : Type := mkValidationRule {
  vrule_type : ValidationType;
  vrule_value : Value;
  vrule_message : string;
  vrule_async : option bool;
}.

Record ConditionalRule : Type := mkConditionalRule {
  rule_field : string;
  rule_operator : ConditionOperator;
  rule_value : Value;
}.

Record FieldConditions : Type := mkFieldConditions {
  cond_show : bool;
  cond_rules : list ConditionalRule;
  cond_logic : LogicOperator;
}.

Record FieldOption : Type := mkFieldOption {
  opt_label : string;
  opt_value : string;
  opt_disabled : option bool;
}.

(** [FieldConfig]: the union of the configuration interfaces, as the bag of
    optional properties the engine tests with ['p' in config]. [None] is an
    absent property. The scalar properties the engine never reads
    ([placeholder], [defaultValue], [step], ...) are kept by name in
    [cfg_other]. *)
Record FieldConfig : Type := mkFieldConfig {
  cfg_required : option bool;
  cfg_validation : option (list ValidationRule);
  cfg_min : option Num;
  cfg_max : option Num;
  cfg_maxSize : option Num;
  cfg_accept : option string;
  cfg_minSelections : option Num;
  cfg_maxSelections : option Num;
  cfg_options : option (list FieldOption);
  cfg_other : list (string * Value);
}.

Record FieldSchema : Type := mkFieldSchema {
  field_id : string;
  field_type : FieldType;
  field_label : string;
  field_config : FieldConfig;
  field_conditions : option FieldConditions;
  field_order : Z;
}.

(** An element of a [fields] array at run time. Every element the typed
    code builds is a [FieldSchema]; the spread [{...undefined, order: i}]
    of a missing element (see [SchemaUtils.reorderFields]) is an object
    with the [order] property and nothing else. *)
Inductive FieldEntry : Type :=
| Field (f : FieldSchema) : FieldEntry
| OrderOnly (order : Z) : FieldEntry.

(** [entry.id]: [None] is [undefined]. *)
Definition entry_id (e : FieldEntry) : option string :=
  match e with
  | Field f => Some (field_id f)
  | OrderOnly _ => None
  end.

(** [entry.order]. *)
Definition entry_order (e : FieldEntry) : Z :=
  match e with
  | Field f => field_order f
  | OrderOnly o => o
  end.

Record FormMetadata : Type := mkFormMetadata {
  meta_title : string;
  meta_description : option string;
  meta_createdAt : string;
  meta_updatedAt : string;
}.

Record SubmitButton : Type := mkSubmitButton {
  submit_text : string;
  submit_enabled : bool;
}.

Record FormSettings : Type := mkFormSettings {
  settings_submitButton : SubmitButton;
  settings_successMessage : string;
  settings_redirectUrl : option string;
}.

Record FormSchema : Type := mkFormSchema {
  schema_version : string;
  schema_id : string;
  schema_metadata : FormMetadata;
  schema_fields : list FieldEntry;
  schema_settings : FormSettings;
}.

Record ValidationResult : Type := mkValidationResult {
  result_valid : bool;
  result_error : option string;
}.

Record FormValidationResult : Type := mkFormValidationResult {
  form_valid : bool;
  form_errors : gmap string string;
}.

(** [formData[key]] on a [FormData] object, which is a plain object. *)
Definition get_value (formData : gmap string Value) (key : string) : Value :=
  get_property formData key.

Inductive BuilderMode : Type := builder | preview.

(** [Partial<FieldSchema>]: the properties an update carries. *)
Record FieldUpdates : Type := mkFieldUpdates {
  upd_id : option string;
  upd_type : option FieldType;
  upd_label : option string;
  upd_config : option FieldConfig;
  upd_conditions : option (option FieldConditions);
  upd_order : option Z;
}.

Record FieldDefinition : Type := mkFieldDefinition {
  def_label : string;
  def_defaultConfig : FieldConfig;
}.

End Types.

(* ===================================================================== *)
(** ** [src/constants] *)
(* ===================================================================== *)

Module Constants.
Import Js.

Definition SCHEMA_VERSION : string := "1.0.0".
Definition DEFAULT_FORM_TITLE : string := "Untitled Form".
Definition DEFAULT_SUBMIT_BUTTON_TEXT : string := "Submit".
Definition DEFAULT_SUCCESS_MESSAGE : string :=
  "Thank you! Your form has been submitted successfully.".

(** [ERROR_MESSAGES]. *)
Definition REQUIRED : string := "This field is required".
Definition INVALID_EMAIL : string := "Please enter a valid email address".
Definition INVALID_URL : string := "Please enter a valid URL".
Definition MIN_LENGTH (min : Num) : string :=
  "Minimum length is " +:+ num_to_string min +:+ " characters".
Definition MAX_LENGTH (max : Num) : string :=
  "Maximum length is " +:+ num_to_string max +:+ " characters".
Definition MIN_VALUE (min : Num) : string :=
  "Minimum value is " +:+ num_to_string min.
Definition MAX_VALUE (max : Num) : string :=
  "Maximum value is " +:+ num_to_string max.
Definition PATTERN_MISMATCH : string := "Invalid format".
(** The argument is the text the caller's
    [parseFloat((maxSize / (1024 * 1024)).toFixed(1))] prints as. *)
Definition FILE_TOO_LARGE (maxSize : string) : string :=
  "File size must be less than " +:+ maxSize +:+ "MB".
Definition INVALID_FILE_TYPE : string := "Invalid file type".
Definition MIN_SELECTIONS (min : Num) : string :=
  "Please select at least " +:+ num_to_string min +:+ " option(s)".
Definition MAX_SELECTIONS (max : Num) : string :=
  "Please select at most " +:+ num_to_string max +:+ " option(s)".

End Constants.

(* ===================================================================== *)
(** ** [src/schema/fieldRegistry.ts] *)
(* ===================================================================== *)

Module FieldRegistry.
Import Js Types.

Definition config_of (required : option bool)
    (validation : option (list ValidationRule)) (min max maxSize : option Num)
    (options : option (list FieldOption)) (other : list (string * Value))
    : FieldConfig :=
  {| cfg_required := required; cfg_validation := validation;
     cfg_min := min; cfg_max := max; cfg_maxSize := maxSize;
     cfg_accept := None; cfg_minSelections := None;
     cfg_maxSelections := None; cfg_options := options;
     cfg_other := other |}.

Definition three_options : list FieldOption :=
  [ mkFieldOption "Option 1" "option1" None;
    mkFieldOption "Option 2" "option2" None;
    mkFieldOption "Option 3" "option3" None ].

(** [FIELD_REGISTRY[type]], its [label] and [defaultConfig]. *)
Definition getFieldDefinition (type : FieldType) : FieldDefinition :=
  match type with
  | text =>
      mkFieldDefinition "Text Input"
        (config_of (Some false) None None None None None
           [("placeholder", VStr "Enter text..."); ("defaultValue", VStr "")])
  | email =>
      mkFieldDefinition "Email"
        (config_of (Some false)
           (Some [mkValidationRule vt_email VUndefined
                    "Please enter a valid email address" None])
           None None None None
           [("placeholder", VStr "email@example.com");
            ("defaultValue", VStr "")])
  | password =>
      mkFieldDefinition "Password"
        (config_of (Some false) None None None None None
           [("placeholder", VStr "Enter password...");
            ("defaultValue", VStr "")])
  | number =>
      mkFieldDefinition "Number"
        (config_of (Some false) None None None None None
           [("placeholder", VStr "Enter number...");
            ("defaultValue", VStr "")])
  | textarea =>
      mkFieldDefinition "Textarea"
        (config_of (Some false) None None None None None
           [("placeholder", VStr "Enter text..."); ("defaultValue", VStr "")])
  | select =>
      mkFieldDefinition "Dropdown"
        (config_of (Some false) None None None None (Some three_options)
           [("placeholder", VStr "Select an option...")])
  | radio =>
      mkFieldDefinition "Radio Group"
        (config_of (Some false) None None None None (Some three_options)
           [("inline", VBool false)])
  | checkbox =>
      mkFieldDefinition "Checkbox Group"
        (config_of (Some false) None None None None (Some three_options)
           [("inline", VBool false)])
  | date =>
      mkFieldDefinition "Date Picker"
        (config_of (Some false) None None None None None
           [("defaultValue", VStr "")])
  | file =>
      mkFieldDefinition "File Upload"
        (config_of (Some false) None None None
           (Some (Int (5 * 1024 * 1024))) None
           [("multiple", VBool false)])
  | switch =>
      mkFieldDefinition "Switch/Toggle"
        (config_of (Some false) None None None None None
           [("defaultValue", VBool false)])
  | rating =>
      mkFieldDefinition "Rating"
        (config_of (Some false) None None None None None
           [("maxRating", VNum (Int 5)); ("icon", VStr "star")])
  | range =>
      mkFieldDefinition "Range Slider"
        (config_of (Some false) None (Some (Int 0)) (Some (Int 100)) None
           None [("step", VNum (Int 1)); ("showValue", VBool true)])
  | hidden =>
      mkFieldDefinition "Hidden Field"
        (config_of None None None None None None
           [("defaultValue", VStr "")])
  | section =>
      mkFieldDefinition "Section"
        (config_of None None None None None None
           [("heading", VStr "Section Heading"); ("description", VStr "");
            ("divider", VBool true)])
  | conditional =>
      mkFieldDefinition "Conditional Field"
        (config_of (Some false) None None None None None [])
  end.

End FieldRegistry.

(* ===================================================================== *)
(** ** [src/schema/utils.ts] *)
(* ===================================================================== *)

Module SchemaUtils.
Import Js Types Constants FieldRegistry.

(** *** Object spreads *)

(** [{...field, order}]. *)
Definition with_order (f : FieldSchema) (order : Z) : FieldSchema :=
  {| field_id := field_id f; field_type := field_type f;
     field_label := field_label f; field_config := field_config f;
     field_conditions := field_conditions f; field_order := order |}.

(** [{...field, conditions}]; [None] also stands for the object left by
    [const { conditions, ...rest } = field]. *)
Definition with_conditions (f : FieldSchema) (c : option FieldConditions)
    : FieldSchema :=
  {| field_id := field_id f; field_type := field_type f;
     field_label := field_label f; field_config := field_config f;
     field_conditions := c; field_order := field_order f |}.

(** [{...conditions, rules}]. *)
Definition with_rules (c : FieldConditions) (rules : list ConditionalRule)
    : FieldConditions :=
  {| cond_show := cond_show c; cond_rules := rules;
     cond_logic := cond_logic c |}.

(** [{...schema, fields}]. *)
Definition with_fields (s : FormSchema) (fields : list FieldEntry)
    : FormSchema :=
  {| schema_version := schema_version s; schema_id := schema_id s;
     schema_metadata := schema_metadata s; schema_fields := fields;
     schema_settings := schema_settings s |}.

(** [{...entry, order: index}]. *)
Definition spread_order (e : FieldEntry) (index : Z) : FieldEntry :=
  match e with
  | Field f => Field (with_order f index)
  | OrderOnly _ => OrderOnly index
  end.

(** [{...entry, order: index}] for an array element that may be
    [undefined] ([None]), whose spread has no property. *)
Definition spread_order_opt (e : option FieldEntry) (index : Z)
    : FieldEntry :=
  match e with
  | Some e => spread_order e index
  | None => OrderOnly index
  end.

(** [fields.map((field, index) => ({ ...field, order: index }))]. *)
Definition renumber (fields : list FieldEntry) : list FieldEntry :=
  imap (fun index field => spread_order field (Z.of_nat index)) fields.

(** *** The functions of the file *)

Definition createEmptyFormSchema (now newId : string) : FormSchema :=
  {| schema_version := SCHEMA_VERSION;
     schema_id := newId;
     schema_metadata :=
       {| meta_title := DEFAULT_FORM_TITLE; meta_description := Some "";
          meta_createdAt := now; meta_updatedAt := now |};
     schema_fields := [];
     schema_settings :=
       {| settings_submitButton :=
            {| submit_text := DEFAULT_SUBMIT_BUTTON_TEXT;
               submit_enabled := true |};
          settings_successMessage := DEFAULT_SUCCESS_MESSAGE;
          settings_redirectUrl := None |} |}.

Definition createFieldSchema (newId : string) (type : FieldType) (order : Z)
    : FieldSchema :=
  let definition := getFieldDefinition type in
  {| field_id := newId; field_type := type;
     field_label := def_label definition;
     field_config := def_defaultConfig definition;
     field_conditions := None; field_order := order |}.

Definition updateFormTimestamp (now : string) (schema : FormSchema)
    : FormSchema :=
  {| schema_version := schema_version schema; schema_id := schema_id schema;
     schema_metadata :=
       {| meta_title := meta_title (schema_metadata schema);
          meta_description := meta_description (schema_metadata schema);
          meta_createdAt := meta_createdAt (schema_metadata schema);
          meta_updatedAt := now |};
     schema_fields := schema_fields schema;
     schema_settings := schema_settings schema |}.

(** [validateFormSchema] on a value that already has the shape of a
    [FormSchema]: what is left of the checks is that [version] and [id] are
    not the empty string (which is falsy). The result is the message of the
    [Error] thrown, or [true]. *)
Definition validateFormSchema (s : FormSchema) : string + bool :=
  if String.eqb (schema_version s) "" then
    inl "Schema must have a version string"
  else if String.eqb (schema_id s) "" then
    inl "Schema must have an id string"
  else inr true.

Definition migrateSchema (schema : FormSchema) : FormSchema :=
  let migrated := schema in
  {| schema_version := SCHEMA_VERSION; schema_id := schema_id migrated;
     schema_metadata := schema_metadata migrated;
     schema_fields := schema_fields migrated;
     schema_settings := schema_settings migrated |}.

Definition cloneField (newId : string) (field : FieldSchema) (newOrder : Z)
    : FieldSchema :=
  {| field_id := newId; field_type := field_type field;
     field_label := field_label field +:+ " (Copy)";
     field_config := field_config field;
     field_conditions := field_conditions field;
     field_order := newOrder |}.

(** The callback of the [map] in [removeFieldWithCleanup]. *)
Definition cleanup_entry (fieldId : string) (field : FieldEntry)
    : FieldEntry :=
  match field with
  | Field f =>
      match field_conditions f with
      | Some conditions =>
          let cleanedRules :=
            filter (fun rule => rule_field rule ≠ fieldId)
                   (cond_rules conditions) in
          if Nat.eqb (length cleanedRules) 0 then
            Field (with_conditions f None)
          else
            Field (with_conditions f
                     (Some (with_rules conditions cleanedRules)))
      | None => field
      end
  | OrderOnly _ => field
  end.

Definition removeFieldWithCleanup (fields : list FieldEntry)
    (fieldId : string) : list FieldEntry :=
  let updatedFields :=
    filter (fun f => entry_id f ≠ Some fieldId) fields in
  map (cleanup_entry fieldId) updatedFields.

Definition reorderFields (fields : list FieldEntry) (fromIndex toIndex : Z)
    : list FieldEntry :=
  let result := map Some fields in
  let '(removedItems, result) := splice result fromIndex 1 [] in
  let removed := default None (head removedItems) in
  let '(_, result) := splice result toIndex 0 [removed] in
  imap (fun index field => spread_order_opt field (Z.of_nat index)) result.

(** *** [detectCircularDependencies] *)

(** [deps.add(x)] on a [Set], which iterates in insertion order. *)
Definition set_add (deps : list string) (x : string) : list string :=
  if decide (x ∈ deps) then deps else deps ++ [x].

(** The [deps] set built for one field. *)
Definition field_deps (field : FieldSchema) : list string :=
  match field_conditions field with
  | Some conditions =>
      foldl (fun deps rule => set_add deps (rule_field rule)) []
            (cond_rules conditions)
  | None => []
  end.

(** The [dependencies] map after the first [forEach]. *)
Definition build_dependencies (fields : list FieldSchema)
    : gmap string (list string) :=
  foldl (fun dependencies field =>
           <[field_id field := field_deps field]> dependencies)
        ∅ fields.

(** The three variables the closure [hasCycle] updates. *)
Record DfsState : Type := mkDfsState {
  visited : gset string;
  recursionStack : gset string;
  cycles : list string;
}.

Definition dfs_init : DfsState :=
  {| visited := ∅; recursionStack := ∅; cycles := [] |}.

(** [for (const dep of deps) { if (visit(dep)) return true; }]: [true] when
    the loop returned early. [None] is passed on from [visit]. *)
Fixpoint for_of (visit : string -> DfsState -> option (bool * DfsState))
    (deps : list string) (st : DfsState) : option (bool * DfsState) :=
  match deps with
  | [] => Some (false, st)
  | dep :: deps' =>
      match visit dep st with
      | None => None
      | Some (true, st') => Some (true, st')
      | Some (false, st') => for_of visit deps' st'
      end
  end.

(** [cycles.push(fieldId)]. *)
Definition dfs_record (fieldId : string) (st : DfsState) : DfsState :=
  {| visited := visited st; recursionStack := recursionStack st;
     cycles := cycles st ++ [fieldId] |}.

(** [visited.add(fieldId); recursionStack.add(fieldId)]. *)
Definition dfs_enter (fieldId : string) (st : DfsState) : DfsState :=
  {| visited := {[fieldId]} ∪ visited st;
     recursionStack := {[fieldId]} ∪ recursionStack st;
     cycles := cycles st |}.

(** [recursionStack.delete(fieldId)]. *)
Definition dfs_leave (fieldId : string) (st : DfsState) : DfsState :=
  {| visited := visited st;
     recursionStack := recursionStack st ∖ {[fieldId]};
     cycles := cycles st |}.

(** [dependencies.get(fieldId)], with no dependency when the id is not a
    key. *)
Definition successors (dependencies : gmap string (list string))
    (fieldId : string) : list string :=
  default [] (dependencies !! fieldId).

(** [hasCycle(fieldId)], with a bound [fuel] on the depth of the recursion;
    [None] when the bound is reached. *)
Fixpoint hasCycle (fuel : nat) (dependencies : gmap string (list string))
    (fieldId : string) (st : DfsState) : option (bool * DfsState) :=
  match fuel with
  | O => None
  | S fuel' =>
      if decide (fieldId ∈ recursionStack st) then
        Some (true, dfs_record fieldId st)
      else if decide (fieldId ∈ visited st) then
        Some (false, st)
      else
        let deps := successors dependencies fieldId in
        match for_of (hasCycle fuel' dependencies) deps (dfs_enter fieldId st)
        with
        | None => None
        | Some (true, st') => Some (true, st')
        | Some (false, st') => Some (false, dfs_leave fieldId st')
        end
  end.

(** A depth the recursion cannot reach: every nested call visits an id not
    visited before, and the ids are those of the fields and of their
    rules. *)
Definition recursion_bound (fields : list FieldSchema) : nat :=
  S (length fields + sum_list (map (fun f => length (field_deps f)) fields)).

(** The second [forEach]: one field. *)
Definition visit_field (fuel : nat) (dependencies : gmap string (list string))
    (acc : option DfsState) (field : FieldSchema) : option DfsState :=
  match acc with
  | None => None
  | Some st =>
      if decide (field_id field ∈ visited st) then Some st
      else snd <$> hasCycle fuel dependencies (field_id field) st
  end.

(** [detectCircularDependencies(fields)]; [None] only if the recursion
    bound were reached, which [detectCircularDependencies_returns] below
    excludes. *)
Definition detectCircularDependencies (fields : list FieldSchema)
    : option (list string) :=
  let dependencies := build_dependencies fields in
  cycles <$>
    foldl (visit_field (recursion_bound fields) dependencies)
          (Some dfs_init) fields.

End SchemaUtils.

(* ===================================================================== *)
(** ** [src/validation/index.ts] *)
(* ===================================================================== *)

Module Validation.
Import Js Types Constants.

Definition ok : ValidationResult :=
  {| result_valid := true; result_error := None |}.

Definition failed (error : string) : ValidationResult :=
  {| result_valid := false; result_error := Some error |}.

(** [if (bad) return { valid: false, error }]: the failure returned, or
    [None] when control goes on. *)
Definition check (bad : bool) (error : string) : option ValidationResult :=
  if bad then Some (failed error) else None.

(** The result of an early [return], or else that of the rest. *)
Definition or_else (early : option ValidationResult)
    (rest : ValidationResult) : ValidationResult :=
  match early with
  | Some result => result
  | None => rest
  end.

(** [message || fallback]: the empty string is falsy. *)
Definition or_default (message fallback : string) : string :=
  if String.eqb message "" then fallback else message.

Definition isEmpty (value : Value) : bool :=
  match value with
  | VNull | VUndefined => true
  | VStr s => String.eqb (trim s) ""
  | VArr _ items => Nat.eqb (length items) 0
  | _ => false
  end.

(** [evaluateCondition(operator, fieldValue, compareValue)]. *)
Definition evaluateCondition (operator : ConditionOperator)
    (fieldValue compareValue : Value) : bool :=
  match operator with
  | op_equals => strict_eq fieldValue compareValue
  | op_notEquals => negb (strict_eq fieldValue compareValue)
  | op_contains =>
      match fieldValue, compareValue with
      | VStr s, VStr sub => string_includes s sub
      | VArr _ items, _ => array_includes items compareValue
      | _, _ => false
      end
  | op_notContains =>
      match fieldValue, compareValue with
      | VStr s, VStr sub => negb (string_includes s sub)
      | VArr _ items, _ => negb (array_includes items compareValue)
      | _, _ => true
      end
  | op_greaterThan =>
      match fieldValue, compareValue with
      | VNum a, VNum b => num_gtb a b
      | _, _ => false
      end
  | op_lessThan =>
      match fieldValue, compareValue with
      | VNum a, VNum b => num_ltb a b
      | _, _ => false
      end
  | op_greaterThanOrEqual =>
      match fieldValue, compareValue with
      | VNum a, VNum b => num_geb a b
      | _, _ => false
      end
  | op_lessThanOrEqual =>
      match fieldValue, compareValue with
      | VNum a, VNum b => num_leb a b
      | _, _ => false
      end
  | op_isEmpty => isEmpty fieldValue
  | op_isNotEmpty => negb (isEmpty fieldValue)
  end.

(** [evaluateConditions(field, formData, allFields)]. *)
Definition evaluateConditions (field : FieldSchema)
    (formData : gmap string Value) (allFields : list FieldSchema) : bool :=
  match field_conditions field with
  | None => true
  | Some conditions =>
      let show := cond_show conditions in
      let rules := cond_rules conditions in
      let logic := cond_logic conditions in
      if Nat.eqb (length rules) 0 then show
      else
        let results :=
          map (fun rule =>
                 let dependentValue := get_value formData (rule_field rule) in
                 evaluateCondition (rule_operator rule) dependentValue
                                   (rule_value rule))
              rules in
        match logic with
        | AND => forallb (fun r => r) results
        | OR => existsb (fun r => r) results
        end
  end.

(** [/^[^\s@]+@[^\s@]+\.[^\s@]+$/.test(s)]. After the one [@] the text has
    neither white space nor [@] and has a dot that is neither its first nor
    its last character. *)
Fixpoint string_forallb (p : ascii -> bool) (s : string) : bool :=
  match s with
  | EmptyString => true
  | String c s' => p c && string_forallb p s'
  end.

Definition email_domain (d : string) : bool :=
  string_forallb
    (fun c => negb (is_white_space c) && negb (Ascii.eqb c "@"%char)) d
  && negb (string_forallb (fun c => negb (Ascii.eqb c "."%char))
             (String.substring 1 (String.length d - 2) d)).

Fixpoint email_local (seen : bool) (s : string) : bool :=
  match s with
  | EmptyString => false
  | String c s' =>
      if Ascii.eqb c "@"%char then seen && email_domain s'
      else if is_white_space c then false
      else email_local true s'
  end.

Definition emailRegex_test (s : string) : bool := email_local false s.

(** The text of [parseFloat((maxSize / (1024 * 1024)).toFixed(1))]: the
    size in MB rounded to one decimal, half away from zero, printed without
    a trailing [.0]. *)
Definition maxSizeMB (maxSize : Num) : string :=
  match maxSize with
  | NaN => "NaN"
  | Int m =>
      let tenths := (10 * Z.abs m + 524288) / 1048576 in
      (if (m <? 0) && (0 <? tenths) then "-" else "")
      +:+ pretty (tenths / 10)
      +:+ (if tenths mod 10 =? 0 then "" else "." +:+ pretty (tenths mod 10))
  end.

Definition isFileTypeAccepted (f : File) (acceptedTypes : list string)
    : bool :=
  existsb
    (fun type =>
       if endsWith type "/*" then
         let category := drop_last2 type in
         startsWith (file_type f) category
       else
         String.eqb (file_type f) type || endsWith (file_name f) type)
    acceptedTypes.

(** The first element of the array that is a [File] and satisfies [bad]. *)
Definition some_file (bad : File -> bool) (items : list Value) : bool :=
  existsb (fun item => match item with
                       | VFile _ f => bad f
                       | _ => false
                       end) items.

Section Builtins.

(** [new RegExp(pattern).test(s)]: [None] when the constructor throws a
    [SyntaxError]. *)
Variable RegExp_test : string -> string -> option bool.

(** [new URL(s)] does not throw. *)
Variable URL_parses : string -> bool.

(** [validateRule(rule, value, field)]. *)
Definition validateRule (rule : ValidationRule) (value : Value)
    (field : FieldSchema) : ValidationResult :=
  match vrule_type rule with
  | vt_required =>
      if isEmpty value
      then failed (or_default (vrule_message rule) REQUIRED)
      else ok
  | vt_minLength =>
      match value, vrule_value rule with
      | VStr v, VNum n =>
          if num_ltb (Int (Z.of_nat (String.length v))) n
          then failed (or_default (vrule_message rule) (MIN_LENGTH n))
          else ok
      | _, _ => ok
      end
  | vt_maxLength =>
      match value, vrule_value rule with
      | VStr v, VNum n =>
          if num_gtb (Int (Z.of_nat (String.length v))) n
          then failed (or_default (vrule_message rule) (MAX_LENGTH n))
          else ok
      | _, _ => ok
      end
  | vt_min =>
      match value, vrule_value rule with
      | VNum v, VNum n =>
          if num_ltb v n
          then failed (or_default (vrule_message rule) (MIN_VALUE n))
          else ok
      | _, _ => ok
      end
  | vt_max =>
      match value, vrule_value rule with
      | VNum v, VNum n =>
          if num_gtb v n
          then failed (or_default (vrule_message rule) (MAX_VALUE n))
          else ok
      | _, _ => ok
      end
  | vt_pattern =>
      match value, vrule_value rule with
      | VStr v, VStr pattern =>
          match RegExp_test pattern v with
          | Some matched =>
              if negb matched
              then failed (or_default (vrule_message rule) PATTERN_MISMATCH)
              else ok
          | None => ok
          end
      | _, _ => ok
      end
  | vt_email =>
      match value with
      | VStr v =>
          if negb (emailRegex_test v)
          then failed (or_default (vrule_message rule) INVALID_EMAIL)
          else ok
      | _ => ok
      end
  | vt_url =>
      match value with
      | VStr v =>
          if URL_parses v then ok
          else failed (or_default (vrule_message rule) INVALID_URL)
      | _ => ok
      end
  | vt_custom => ok
  end.

(** [validateFieldType(field, value)]. Each [if] of a [case] either
    returns a failure or falls through to the next one. *)
Definition validateFieldType (field : FieldSchema) (value : Value)
    : ValidationResult :=
  let type := field_type field in
  let config := field_config field in
  match type with
  | email =>
      match value with
      | VStr v => if negb (emailRegex_test v) then failed INVALID_EMAIL
                  else ok
      | _ => ok
      end
  | number =>
      or_else
        match cfg_min config, value with
        | Some min, VNum v => check (num_ltb v min) (MIN_VALUE min)
        | _, _ => None
        end
      (or_else
        match cfg_max config, value with
        | Some max, VNum v => check (num_gtb v max) (MAX_VALUE max)
        | _, _ => None
        end
      ok)
  | file =>
      or_else
        match cfg_maxSize config with
        | Some maxSize =>
            match value with
            | VFile _ f =>
                check (num_gtb (file_size f) maxSize)
                      (FILE_TOO_LARGE (maxSizeMB maxSize))
            | VArr _ items =>
                check (some_file (fun f => num_gtb (file_size f) maxSize)
                                 items)
                      (FILE_TOO_LARGE (maxSizeMB maxSize))
            | _ => None
            end
        | None => None
        end
      (or_else
        match cfg_accept config with
        | Some accept =>
            let acceptedTypes := map trim (split_comma accept) in
            match value with
            | VFile _ f =>
                check (negb (isFileTypeAccepted f acceptedTypes))
                      INVALID_FILE_TYPE
            | VArr _ items =>
                check (some_file
                         (fun f => negb (isFileTypeAccepted f acceptedTypes))
                         items)
                      INVALID_FILE_TYPE
            | _ => None
            end
        | None => None
        end
      ok)
  | checkbox =>
      let selections :=
        match value with
        | VArr _ items => Int (Z.of_nat (length items))
        | _ => Int 0
        end in
      or_else
        match cfg_minSelections config with
        | Some min => check (num_ltb selections min) (MIN_SELECTIONS min)
        | None => None
        end
      (or_else
        match cfg_maxSelections config with
        | Some max => check (num_gtb selections max) (MAX_SELECTIONS max)
        | None => None
        end
      ok)
  | _ => ok
  end.

(** The [for] loop of [validateField]: the first result that is not
    valid. *)
Fixpoint first_invalid (validation : list ValidationRule) (value : Value)
    (field : FieldSchema) : option ValidationResult :=
  match validation with
  | [] => None
  | rule :: rest =>
      let result := validateRule rule value field in
      if negb (result_valid result) then Some result
      else first_invalid rest value field
  end.

(** [validateField(field, value, allFormData)]. *)
Definition validateField (field : FieldSchema) (value : Value)
    (allFormData : gmap string Value) : ValidationResult :=
  let config := field_config field in
  let validation := cfg_validation config in
  let required := default false (cfg_required config) in
  if required && isEmpty value then failed REQUIRED
  else if isEmpty value then ok
  else
    match first_invalid (default [] validation) value field with
    | Some result => result
    | None =>
        let fieldTypeResult := validateFieldType field value in
        if negb (result_valid fieldTypeResult) then fieldTypeResult
        else ok
    end.

(** A string is truthy when it is not empty; [undefined] is falsy. *)
Definition truthy_error (error : option string) : bool :=
  match error with
  | Some e => negb (String.eqb e "")
  | None => false
  end.

(** The body of the loop of [validateForm]. *)
Definition validateForm_step (fields : list FieldSchema)
    (formData : gmap string Value) (errors : gmap string string)
    (field : FieldSchema) : gmap string string :=
  match field_type field with
  | hidden | section => errors
  | _ =>
      if match field_conditions field with
         | Some _ => negb (evaluateConditions field formData fields)
         | None => false
         end
      then errors
      else
        let value := get_value formData (field_id field) in
        let result := validateField field value formData in
        if negb (result_valid result) && truthy_error (result_error result)
        then set_property errors (field_id field)
                          (default "" (result_error result))
        else errors
  end.

(** [validateForm(fields, formData)]. *)
Definition validateForm (fields : list FieldSchema)
    (formData : gmap string Value) : FormValidationResult :=
  let errors := foldl (validateForm_step fields formData) ∅ fields in
  {| form_valid := Nat.eqb (length (map fst (map_to_list errors))) 0;
     form_errors := errors |}.

End Builtins.

End Validation.

(* ===================================================================== *)
(** ** [src/store/index.ts] *)
(* ===================================================================== *)

Module Store.
Import Js Types SchemaUtils.

Record State : Type := mkState {
  currentForm : FormSchema;
  formData : gmap string Value;
  mode : BuilderMode;
  selectedFieldId : option string;
}.

(** [set({ currentForm, selectedFieldId })] and [set({ currentForm })]: the
    other properties of the state are kept. *)
Definition set_form_and_selection (state : State) (form : FormSchema)
    (selected : option string) : State :=
  {| currentForm := form; formData := formData state; mode := mode state;
     selectedFieldId := selected |}.

Definition set_form (state : State) (form : FormSchema) : State :=
  set_form_and_selection state form (selectedFieldId state).

(** [{ ...field, ...updates }]. *)
Definition merge_updates (f : FieldSchema) (u : FieldUpdates) : FieldSchema :=
  {| field_id := default (field_id f) (upd_id u);
     field_type := default (field_type f) (upd_type u);
     field_label := default (field_label f) (upd_label u);
     field_config := default (field_config f) (upd_config u);
     field_conditions := default (field_conditions f) (upd_conditions u);
     field_order := default (field_order f) (upd_order u) |}.

(** [addField(type, position)]. *)
Definition addField (now newId : string) (state : State) (type : FieldType)
    (position : option Z) : State :=
  let form := currentForm state in
  let insertPosition :=
    default (Z.of_nat (length (schema_fields form))) position in
  let newField := createFieldSchema newId type insertPosition in
  let updatedFields :=
    snd (splice (schema_fields form) insertPosition 0 [Field newField]) in
  let reorderedFields := renumber updatedFields in
  set_form_and_selection state
    (updateFormTimestamp now (with_fields form reorderedFields))
    (Some (field_id newField)).

(** [updateField(fieldId, updates)]. *)
Definition updateField (now : string) (state : State) (fieldId : string)
    (updates : FieldUpdates) : State :=
  let form := currentForm state in
  let updatedFields :=
    map (fun field =>
           match field with
           | Field f =>
               if String.eqb (field_id f) fieldId
               then Field (merge_updates f updates)
               else field
           | OrderOnly _ => field
           end)
        (schema_fields form) in
  set_form state (updateFormTimestamp now (with_fields form updatedFields)).

(** [removeField(fieldId)]. *)
Definition removeField (now : string) (state : State) (fieldId : string)
    : State :=
  let form := currentForm state in
  let updatedFields := removeFieldWithCleanup (schema_fields form) fieldId in
  set_form_and_selection state
    (updateFormTimestamp now (with_fields form updatedFields))
    (if decide (selectedFieldId state = Some fieldId) then None
     else selectedFieldId state).

(** [fields.findIndex((f) => f.id === fieldId)] with the element found;
    [None] is the result [-1]. *)
Fixpoint findIndex (fields : list FieldEntry) (fieldId : string)
    : option (nat * FieldSchema) :=
  match fields with
  | [] => None
  | Field f :: rest =>
      if String.eqb (field_id f) fieldId then Some (O, f)
      else prod_map S (fun x => x) <$> findIndex rest fieldId
  | OrderOnly _ :: rest =>
      prod_map S (fun x => x) <$> findIndex rest fieldId
  end.

(** [duplicateField(fieldId)]. *)
Definition duplicateField (now newId : string) (state : State)
    (fieldId : string) : State :=
  let form := currentForm state in
  match findIndex (schema_fields form) fieldId with
  | None => state
  | Some (fieldIndex, field) =>
      let newField := cloneField newId field (Z.of_nat fieldIndex + 1) in
      let updatedFields :=
        snd (splice (schema_fields form) (Z.of_nat fieldIndex + 1) 0
                    [Field newField]) in
      let reorderedFields := renumber updatedFields in
      set_form_and_selection state
        (updateFormTimestamp now (with_fields form reorderedFields))
        (Some (field_id newField))
  end.

(** [reorderField(fromIndex, toIndex)]. *)
Definition reorderField (now : string) (state : State)
    (fromIndex toIndex : Z) : State :=
  let form := currentForm state in
  let reorderedFields := reorderFields (schema_fields form) fromIndex toIndex in
  set_form state (updateFormTimestamp now (with_fields form reorderedFields)).




End Store.

(* ===================================================================== *)
(** ** Predicates of the specification *)
(* ===================================================================== *)

Module Spec.
Import Js Types Constants SchemaUtils Validation Store.

(** *** The operators of a rule, in the words of the specification *)

(** Strict value equality: two primitives of the same type and value
    ([NaN] equals nothing), or one and the same array, file or object. *)
Inductive strictly_equal : Value -> Value -> Prop :=
| equal_undefined : strictly_equal VUndefined VUndefined
| equal_null : strictly_equal VNull VNull
| equal_bool (b : bool) : strictly_equal (VBool b) (VBool b)
| equal_num (z : Z) : strictly_equal (VNum (Int z)) (VNum (Int z))
| equal_str (s : string) : strictly_equal (VStr s) (VStr s)
| equal_arr (ref : nat) (items items' : list Value) :
    strictly_equal (VArr ref items) (VArr ref items')
| equal_file (ref : nat) (f f' : File) :
    strictly_equal (VFile ref f) (VFile ref f')
| equal_object (ref : nat) : strictly_equal (VObject ref) (VObject ref).

(** The code units that are white space. *)
Definition white_code (c : ascii) : Prop :=
  nat_of_ascii c ∈ [9; 10; 11; 12; 13; 32; 160]%nat.

(** The values that count as no answer: [undefined], [null], a string of
    white space only (the empty string too) and the empty array. *)
Definition blank (v : Value) : Prop :=
  v = VUndefined \/ v = VNull
  \/ (exists s, v = VStr s /\ Forall white_code (list_ascii_of_string s))
  \/ (exists ref, v = VArr ref []).

(** The substring test between two strings, the membership test when the
    dependent value is an array; no other combination contains. An element
    is found by strict equality, and [NaN] is found in an array that has
    it. *)
Definition substring_of (sub s : string) : Prop :=
  exists pre post, s = pre +:+ sub +:+ post.

Definition element_of (c : Value) (items : list Value) : Prop :=
  exists y, y ∈ items
            /\ (strictly_equal y c \/ (y = VNum NaN /\ c = VNum NaN)).

Definition contains (v c : Value) : Prop :=
  (exists s sub, v = VStr s /\ c = VStr sub /\ substring_of sub s)
  \/ (exists ref items, v = VArr ref items /\ element_of c items).

(** A comparison of numbers: both operands are numbers, neither is [NaN],
    and they are related. *)
Definition numbers (R : Z -> Z -> Prop) (v c : Value) : Prop :=
  exists x y, v = VNum (Int x) /\ c = VNum (Int y) /\ R x y.

(** [v] compares to [c] under the operator. *)
Definition compares (operator : ConditionOperator) (v c : Value) : Prop :=
  match operator with
  | op_equals => strictly_equal v c
  | op_notEquals => ~ strictly_equal v c
  | op_contains => contains v c
  | op_notContains => ~ contains v c
  | op_greaterThan => numbers (fun x y => x > y) v c
  | op_lessThan => numbers (fun x y => x < y) v c
  | op_greaterThanOrEqual => numbers (fun x y => x >= y) v c
  | op_lessThanOrEqual => numbers (fun x y => x <= y) v c
  | op_isEmpty => blank v
  | op_isNotEmpty => ~ blank v
  end.

(** One rule holds: [formData[rule.field]] compares to [rule.value] under
    [rule.operator]. *)
Definition rule_holds (formData : gmap string Value) (rule : ConditionalRule)
    : Prop :=
  compares (rule_operator rule) (get_value formData (rule_field rule))
           (rule_value rule).

(** [fields[i].order === i] for every index [i]. *)
Definition order_invariant (fields : list FieldEntry) : Prop :=
  forall (i : nat) (e : FieldEntry),
    fields !! i = Some e -> entry_order e = Z.of_nat i.

(** The ids of the fields are pairwise different (an entry without [id]
    has none to compare). *)
Definition ids_unique (fields : list FieldEntry) : Prop :=
  NoDup (omap entry_id fields).

(** No entry of the array has the id [fieldId]. *)
Definition absent (fieldId : string) (fields : list FieldEntry) : Prop :=
  forall e, e ∈ fields -> entry_id e <> Some fieldId.

(** [validateForm] does not skip the field: it is neither a hidden field nor
    a section, and it is visible. *)
Definition validated (fields : list FieldSchema)
    (formData : gmap string Value) (f : FieldSchema) : Prop :=
  field_type f <> hidden /\ field_type f <> section
  /\ evaluateConditions f formData fields = true.

(** *** The dependency graph and the runs of [hasCycle] *)

(** [v] depends on [d]: an edge of the graph. *)
Definition edge (G : gmap string (list string)) (v d : string) : Prop :=
  d ∈ successors G v.

(** The same edge seen from its target, the relation along which the
    finished part of the graph is well founded. *)
Definition depended_on (G : gmap string (list string)) (d v : string) : Prop :=
  edge G v d.

(** No id reaches itself along one or more edges. *)
Definition acyclic (G : gmap string (list string)) : Prop :=
  forall v, ~ tc (edge G) v v.

(** The runs of [hasCycle] and of its loop as a relation between the state
    before, the value returned and the state after; this is what
    [hasCycle fuel] computes whenever the fuel is enough (lemmas
    [hasCycle_call] and [hasCycle_total]). *)
Inductive call (G : gmap string (list string))
    : string -> DfsState -> bool -> DfsState -> Prop :=
| call_on_stack (v : string) (st : DfsState) :
    v ∈ recursionStack st ->
    call G v st true (dfs_record v st)
| call_visited (v : string) (st : DfsState) :
    v ∉ recursionStack st -> v ∈ visited st ->
    call G v st false st
| call_cycle (v : string) (st st' : DfsState) :
    v ∉ recursionStack st -> v ∉ visited st ->
    loop G (successors G v) (dfs_enter v st) true st' ->
    call G v st true st'
| call_done (v : string) (st st' : DfsState) :
    v ∉ recursionStack st -> v ∉ visited st ->
    loop G (successors G v) (dfs_enter v st) false st' ->
    call G v st false (dfs_leave v st')
with loop (G : gmap string (list string))
    : list string -> DfsState -> bool -> DfsState -> Prop :=
| loop_end (st : DfsState) :
    loop G [] st false st
| loop_return (d : string) (ds : list string) (st st' : DfsState) :
    call G d st true st' ->
    loop G (d :: ds) st true st'
| loop_next (d : string) (ds : list string) (st st1 : DfsState) (r : bool)
    (st' : DfsState) :
    call G d st false st1 -> loop G ds st1 r st' ->
    loop G (d :: ds) st r st'.

Scheme call_mut := Minimality for call Sort Prop
  with loop_mut := Minimality for loop Sort Prop.
Combined Scheme call_loop_ind from call_mut, loop_mut.

(** What every run does to the three variables. A call or a loop that
    returns [false] leaves the stack and the cycles as they were, and every
    id it was asked about is visited and was not on the stack; one that
    returns [true] has recorded exactly one id, which is on the stack. The
    visited set and the stack only grow, and the stack stays within the
    visited set. *)
Definition call_effect (v : string) (st : DfsState) (r : bool)
    (st' : DfsState) : Prop :=
  visited st ⊆ visited st'
  /\ recursionStack st ⊆ recursionStack st'
  /\ (recursionStack st ⊆ visited st -> recursionStack st' ⊆ visited st')
  /\ (r = false ->
      recursionStack st' = recursionStack st /\ cycles st' = cycles st
      /\ v ∈ visited st' /\ v ∉ recursionStack st)
  /\ (r = true ->
      exists x, cycles st' = cycles st ++ [x] /\ x ∈ recursionStack st').

Definition loop_effect (ds : list string) (st : DfsState) (r : bool)
    (st' : DfsState) : Prop :=
  visited st ⊆ visited st'
  /\ recursionStack st ⊆ recursionStack st'
  /\ (recursionStack st ⊆ visited st -> recursionStack st' ⊆ visited st')
  /\ (r = false ->
      recursionStack st' = recursionStack st /\ cycles st' = cycles st
      /\ forall d, d ∈ ds -> d ∈ visited st' /\ d ∉ recursionStack st)
  /\ (r = true ->
      exists x, cycles st' = cycles st ++ [x] /\ x ∈ recursionStack st').

(** The ids the detection is done with: those visited and off the stack are
    all well founded for [depended_on], so none of them lies on a cycle. *)
Definition finished (G : gmap string (list string)) (st : DfsState) : Prop :=
  forall v, v ∈ visited st -> v ∉ recursionStack st -> Acc (depended_on G) v.

(** A set of ids that contains the dependencies of its members. *)
Definition closed (G : gmap string (list string)) (U : gset string) : Prop :=
  forall v d, v ∈ U -> edge G v d -> d ∈ U.

(** The ids the detection can meet: those of the fields and those their
    rules name. *)
Definition universe (fields : list FieldSchema) : gset string :=
  list_to_set (field_id <$> fields) ∪ list_to_set (fields ≫= field_deps).

(** The state [st'] the second [forEach] can leave when it starts in [st]
    over [fields]: what the runs of its calls add up to. *)
Definition sweep_effect (G : gmap string (list string)) (U : gset string)
    (fields : list FieldSchema) (st st' : DfsState) : Prop :=
  visited st ⊆ visited st'
  /\ visited st' ⊆ U
  /\ recursionStack st' ⊆ visited st'
  /\ (length (cycles st) <= length (cycles st'))%nat
  /\ (forall x, x ∈ cycles st' -> x ∈ cycles st \/ x ∈ U)
  /\ (length (cycles st') = length (cycles st) ->
      recursionStack st' = recursionStack st
      /\ (forall f, f ∈ fields -> field_id f ∈ visited st')
      /\ (finished G st -> finished G st'))
  /\ (acyclic G -> recursionStack st = ∅ ->
      cycles st' = cycles st /\ recursionStack st' = ∅).

(** The first dependency of [a] in the graph is [a] itself. *)
Definition self_first (G : gmap string (list string)) (a : string) : Prop :=
  exists rest, successors G a = a :: rest.

(** The field has one rule, which refers to [target]. *)
Definition sole_rule (f : FieldSchema) (target : string) : Prop :=
  exists c r, field_conditions f = Some c /\ cond_rules c = [r]
              /\ rule_field r = target.

(** The field has no rule. *)
Definition no_rule (f : FieldSchema) : Prop :=
  forall c, field_conditions f = Some c -> cond_rules c = [].

(** What [validateForm] gets from [validateField] for a field of the form:
    the result on the field's value in the form data. *)
Definition field_result (RegExp_test : string -> string -> option bool)
    (URL_parses : string -> bool) (formData : gmap string Value)
    (f : FieldSchema) : ValidationResult :=
  validateField RegExp_test URL_parses f (get_value formData (field_id f))
                formData.

(** A validation result is well formed when it is valid, or carries a
    message that is not empty. *)
Definition well_formed (r : ValidationResult) : Prop :=
  result_valid r = true
  \/ exists msg, result_error r = Some msg /\ msg <> "".

(** The rules of a [conditions] that do not refer to [fieldId]. *)
Definition rules_without (fieldId : string) (c : FieldConditions)
    : list ConditionalRule :=
  filter (fun rule => rule_field rule ≠ fieldId) (cond_rules c).

End Spec.

(* ===================================================================== *)
(** ** Sample forms *)
(* ===================================================================== *)

Module Samples.
Import Js Types Constants SchemaUtils Validation Store.

Definition plain_config : FieldConfig :=
  FieldRegistry.config_of (Some false) None None None None None [].

Definition field_with (fieldId : string) (c : option FieldConditions)
    (order : Z) : FieldSchema :=
  {| field_id := fieldId; field_type := text; field_label := "Field";
     field_config := plain_config; field_conditions := c;
     field_order := order |}.

Definition x_is_1_and_y_is_2 (logic : LogicOperator) : FieldConditions :=
  {| cond_show := true;
     cond_rules := [ mkConditionalRule "x" op_equals (VNum (Int 1));
                     mkConditionalRule "y" op_equals (VNum (Int 2)) ];
     cond_logic := logic |}.

(** [b] is shown when [a] is "yes"; [c] is hidden by default and has no
    rule. *)
Definition shown_when_a : FieldConditions :=
  {| cond_show := true;
     cond_rules := [ mkConditionalRule "a" op_equals (VStr "yes") ];
     cond_logic := AND |}.

Definition hidden_by_default : FieldConditions :=
  {| cond_show := false; cond_rules := []; cond_logic := AND |}.

Definition field_a : FieldSchema := field_with "a" None 0.
Definition field_b : FieldSchema := field_with "b" (Some shown_when_a) 1.
Definition field_c : FieldSchema := field_with "c" (Some hidden_by_default) 2.

Definition form_of (fields : list FieldEntry) : FormSchema :=
  {| schema_version := SCHEMA_VERSION;
     schema_id := "form-1";
     schema_metadata :=
       {| meta_title := "Sample"; meta_description := None;
          meta_createdAt := "2024-01-01T00:00:00.000Z";
          meta_updatedAt := "2024-01-01T00:00:00.000Z" |};
     schema_fields := fields;
     schema_settings :=
       {| settings_submitButton :=
            {| submit_text := "Submit"; submit_enabled := true |};
          settings_successMessage := "Thanks";
          settings_redirectUrl := None |} |}.

Definition state_of (fields : list FieldEntry) : State :=
  {| currentForm := form_of fields; formData := ∅; mode := builder;
     selectedFieldId := None |}.

Definition state_abc : State :=
  state_of [Field field_a; Field field_b; Field field_c].

Definition later : string := "2024-06-01T12:00:00.000Z".

(** Three fields in a ring, A -> B -> C -> A, and in a chain, A -> B -> C. *)
Definition depends_on (target : string) : FieldConditions :=
  {| cond_show := true;
     cond_rules := [ mkConditionalRule target op_isNotEmpty VUndefined ];
     cond_logic := AND |}.

Definition ring_A : FieldSchema := field_with "A" (Some (depends_on "B")) 0.
Definition ring_B : FieldSchema := field_with "B" (Some (depends_on "C")) 1.
Definition ring_C : FieldSchema := field_with "C" (Some (depends_on "A")) 2.
Definition chain_C : FieldSchema := field_with "C" None 2.

(** The end-to-end scenario of the specification: a [country] select and a
    required [state] text field shown when the country is "US". *)
Definition required_config : FieldConfig :=
  FieldRegistry.config_of (Some true) None None None None None [].

Definition country : FieldSchema :=
  {| field_id := "country"; field_type := select; field_label := "Country";
     field_config := plain_config; field_conditions := None;
     field_order := 0 |}.

Definition state_field : FieldSchema :=
  {| field_id := "state"; field_type := text; field_label := "State";
     field_config := required_config;
     field_conditions :=
       Some {| cond_show := true;
               cond_rules :=
                 [ mkConditionalRule "country" op_equals (VStr "US") ];
               cond_logic := AND |};
     field_order := 1 |}.

(** A text field with two rules: at least 3 characters, then an email. *)
Definition min_3 : ValidationRule :=
  mkValidationRule vt_minLength (VNum (Int 3)) "Too short" None.

Definition is_email : ValidationRule :=
  mkValidationRule vt_email VUndefined "" None.

Definition code_field : FieldSchema :=
  {| field_id := "code"; field_type := text; field_label := "Code";
     field_config :=
       FieldRegistry.config_of (Some false) (Some [min_3; is_email]) None None
                               None None [];
     field_conditions := None; field_order := 0 |}.

(** Stand-ins for the two built-ins the validation takes as arguments. *)
Definition no_regexp (pattern s : string) : option bool := None.
Definition any_url (s : string) : bool := true.

(** A field that depends on itself, a field without rules that has the same
    id, and two fields [S] and [T] that both depend on themselves, [S] on [T]
    first. *)
Definition self_A : FieldSchema := field_with "A" (Some (depends_on "A")) 0.
Definition plain_A : FieldSchema := field_with "A" None 1.

Definition field_S : FieldSchema :=
  field_with "S"
    (Some {| cond_show := true;
             cond_rules := [ mkConditionalRule "T" op_isNotEmpty VUndefined;
                             mkConditionalRule "S" op_isNotEmpty VUndefined ];
             cond_logic := AND |}) 0.

Definition field_T : FieldSchema := field_with "T" (Some (depends_on "T")) 1.



Definition rename_update : FieldUpdates :=
  {| upd_id := None; upd_type := None; upd_label := Some "Renamed";
     upd_config := None; upd_conditions := None; upd_order := None |}.

End Samples.

(* ===================================================================== *)
(** ** [src/components/renderer/FormRenderer.tsx] *)
(* ===================================================================== *)

Module Renderer.
Import Js Types Validation.

(** The callback of the [filter] that computes [visibleFields]. *)
Definition is_rendered (fields : list FieldSchema)
    (formData : gmap string Value) (field : FieldSchema) : bool :=
  match field_type field with
  | section => true
  | _ =>
      match field_conditions field with
      | Some _ => evaluateConditions field formData fields
      | None => true
      end
  end.

(** [visibleFields]. *)
Definition visibleFields (fields : list FieldSchema)
    (formData : gmap string Value) : list FieldSchema :=
  filter (fun field => is_rendered fields formData field = true) fields.

(** The two pieces of state of the component. *)
Record RendererState : Type := mkRendererState {
  r_formData : gmap string Value;
  r_errors : gmap string string;
}.

(** [handleSubmit], on the fields of the current form. *)
Definition handleSubmit (RegExp_test : string -> string -> option bool)
    (URL_parses : string -> bool) (fields : list FieldSchema)
    (st : RendererState) : RendererState :=
  let validationResult :=
    validateForm RegExp_test URL_parses fields (r_formData st) in
  if form_valid validationResult then
    {| r_formData := ∅; r_errors := ∅ |}
  else
    {| r_formData := r_formData st;
       r_errors := form_errors validationResult |}.

End Renderer.

(* ===================================================================== *)
(** ** [src/store/index.ts]: the other actions *)
(* ===================================================================== *)

Module StoreActions.
Import Js Types SchemaUtils Store.

(** [Partial<FormSchema['metadata']>] and [Partial<FormSchema['settings']>]. *)
Record MetadataUpdates : Type := mkMetadataUpdates {
  updm_title : option string;
  updm_description : option (option string);
  updm_createdAt : option string;
  updm_updatedAt : option string;
}.

Record SettingsUpdates : Type := mkSettingsUpdates {
  upds_submitButton : option SubmitButton;
  upds_successMessage : option string;
  upds_redirectUrl : option (option string);
}.

(** [{ ...metadata, ...updates }] and [{ ...settings, ...updates }]. *)
Definition merge_metadata (m : FormMetadata) (u : MetadataUpdates)
    : FormMetadata :=
  {| meta_title := default (meta_title m) (updm_title u);
     meta_description := default (meta_description m) (updm_description u);
     meta_createdAt := default (meta_createdAt m) (updm_createdAt u);
     meta_updatedAt := default (meta_updatedAt m) (updm_updatedAt u) |}.

Definition merge_settings (s : FormSettings) (u : SettingsUpdates)
    : FormSettings :=
  {| settings_submitButton :=
       default (settings_submitButton s) (upds_submitButton u);
     settings_successMessage :=
       default (settings_successMessage s) (upds_successMessage u);
     settings_redirectUrl :=
       default (settings_redirectUrl s) (upds_redirectUrl u) |}.

Definition setMode (state : State) (m : BuilderMode) : State :=
  {| currentForm := currentForm state; formData := formData state;
     mode := m; selectedFieldId := selectedFieldId state |}.

Definition selectField (state : State) (fieldId : option string) : State :=
  {| currentForm := currentForm state; formData := formData state;
     mode := mode state; selectedFieldId := fieldId |}.

Definition newForm (now newId : string) (state : State) : State :=
  {| currentForm := createEmptyFormSchema now newId; formData := ∅;
     mode := mode state; selectedFieldId := None |}.

Definition loadForm (state : State) (schema : FormSchema) : State :=
  {| currentForm := schema; formData := ∅; mode := mode state;
     selectedFieldId := None |}.

Definition updateFormMetadata (now : string) (state : State)
    (metadata : MetadataUpdates) : State :=
  let form := currentForm state in
  set_form state
    (updateFormTimestamp now
       {| schema_version := schema_version form; schema_id := schema_id form;
          schema_metadata := merge_metadata (schema_metadata form) metadata;
          schema_fields := schema_fields form;
          schema_settings := schema_settings form |}).

Definition updateFormSettings (now : string) (state : State)
    (settings : SettingsUpdates) : State :=
  let form := currentForm state in
  set_form state
    (updateFormTimestamp now
       {| schema_version := schema_version form; schema_id := schema_id form;
          schema_metadata := schema_metadata form;
          schema_fields := schema_fields form;
          schema_settings := merge_settings (schema_settings form) settings |}).

Definition setFieldValue (state : State) (fieldId : string) (value : Value)
    : State :=
  {| currentForm := currentForm state;
     formData := <[fieldId := value]> (formData state);
     mode := mode state; selectedFieldId := selectedFieldId state |}.

Definition resetFormData (state : State) : State :=
  {| currentForm := currentForm state; formData := ∅; mode := mode state;
     selectedFieldId := selectedFieldId state |}.

(** The actions of the store interface [FormBuilderState], and the state
    each call gives. *)
Inductive Action : Type :=
| SetMode (m : BuilderMode)
| SelectField (fieldId : option string)
| NewForm
| LoadForm (schema : FormSchema)
| UpdateFormMetadata (metadata : MetadataUpdates)
| UpdateFormSettings (settings : SettingsUpdates)
| AddField (type : FieldType) (position : option Z)
| UpdateField (fieldId : string) (updates : FieldUpdates)
| RemoveField (fieldId : string)
| DuplicateField (fieldId : string)
| ReorderField (fromIndex toIndex : Z)
| SetFieldValue (fieldId : string) (value : Value)
| ResetFormData.

Definition dispatch (now newId : string) (action : Action) (state : State)
    : State :=
  match action with
  | SetMode m => setMode state m
  | SelectField fieldId => selectField state fieldId
  | NewForm => newForm now newId state
  | LoadForm schema => loadForm state schema
  | UpdateFormMetadata metadata => updateFormMetadata now state metadata
  | UpdateFormSettings settings => updateFormSettings now state settings
  | AddField type position => addField now newId state type position
  | UpdateField fieldId updates => updateField now state fieldId updates
  | RemoveField fieldId => removeField now state fieldId
  | DuplicateField fieldId => duplicateField now newId state fieldId
  | ReorderField fromIndex toIndex =>
      reorderField now state fromIndex toIndex
  | SetFieldValue fieldId value => setFieldValue state fieldId value
  | ResetFormData => resetFormData state
  end.

End StoreActions.

(* ===================================================================== *)
(** ** Further predicates *)
(* ===================================================================== *)

Module Spec2.
Import Js Types Constants SchemaUtils Validation Store Spec.

(** Some rule of a field with the id [a] refers to the id [b]. *)
Definition depends (fields : list FieldSchema) (a b : string) : Prop :=
  exists f c r, f ∈ fields /\ field_id f = a /\ field_conditions f = Some c
                /\ r ∈ cond_rules c /\ rule_field r = b.

(** The selected id, if there is one, is the id of a field of the form. *)
Definition selection_valid (st : State) : Prop :=
  forall i, selectedFieldId st = Some i ->
    Some i ∈ entry_id <$> schema_fields (currentForm st).

(** The well-typed fields of an array of entries. *)
Definition typed_fields (entries : list FieldEntry) : list FieldSchema :=
  omap (fun e => match e with Field f => Some f | OrderOnly _ => None end)
       entries.

(** Two sets of answers agree on the fields the rules of [c] name. *)
Definition agree_on_rules (c : FieldConditions)
    (data data' : gmap string Value) : Prop :=
  forall r, r ∈ cond_rules c ->
    get_value data (rule_field r) = get_value data' (rule_field r).

(** The result [validateField] falls back on when no rule fails: that of
    the checks of the field's type. *)
Definition type_result (field : FieldSchema) (value : Value)
    : ValidationResult :=
  let r := validateFieldType field value in
  if negb (result_valid r) then r else ok.

#[global] Instance ValidationType_eq_dec : EqDecision ValidationType.
Proof. solve_decision. Defined.

(** The rules of a list that are not of type [required]. *)
Definition without_required (rules : list ValidationRule)
    : list ValidationRule :=
  filter (fun rule => vrule_type rule <> vt_required) rules.

(** [{...config, validation}]. *)
Definition with_validation (cfg : FieldConfig)
    (validation : option (list ValidationRule)) : FieldConfig :=
  {| cfg_required := cfg_required cfg; cfg_validation := validation;
     cfg_min := cfg_min cfg; cfg_max := cfg_max cfg;
     cfg_maxSize := cfg_maxSize cfg; cfg_accept := cfg_accept cfg;
     cfg_minSelections := cfg_minSelections cfg;
     cfg_maxSelections := cfg_maxSelections cfg;
     cfg_options := cfg_options cfg; cfg_other := cfg_other cfg |}.

(** [{...field, config}]. *)
Definition with_config (f : FieldSchema) (cfg : FieldConfig) : FieldSchema :=
  {| field_id := field_id f; field_type := field_type f;
     field_label := field_label f; field_config := cfg;
     field_conditions := field_conditions f; field_order := field_order f |}.

(** Two more fields for the examples: a checkbox group that takes one or
    two selections, and a number between 18 and 99. *)
Definition toppings : FieldSchema :=
  {| field_id := "toppings"; field_type := checkbox;
     field_label := "Toppings";
     field_config :=
       {| cfg_required := Some false; cfg_validation := None;
          cfg_min := None; cfg_max := None; cfg_maxSize := None;
          cfg_accept := None; cfg_minSelections := Some (Int 1);
          cfg_maxSelections := Some (Int 2);
          cfg_options := Some FieldRegistry.three_options;
          cfg_other := [] |};
     field_conditions := None; field_order := 0 |}.

Definition age : FieldSchema :=
  {| field_id := "age"; field_type := number; field_label := "Age";
     field_config :=
       FieldRegistry.config_of (Some false) None (Some (Int 18))
                               (Some (Int 99)) None None [];
     field_conditions := None; field_order := 1 |}.

End Spec2.

(* ===================================================================== *)
(** * Properties *)
(* ===================================================================== *)

Import Js Types Constants SchemaUtils Validation Store Spec Samples.

(** ** What the string and array built-ins compute *)

Lemma ascii_eqb_true (a b : ascii) : Ascii.eqb a b = true <-> a = b.
Proof. apply Ascii.eqb_eq. Qed.

Lemma startsWith_prefix (s p : string) :
  startsWith s p = true <-> exists rest, s = p +:+ rest.
Proof.
  revert s; induction p as [|c p IH]; intros s; simpl.
  - split; [intros _; by exists s | done].
  - destruct s as [|d s]; simpl.
    + split; [done | intros [rest Hrest]; discriminate].
    + rewrite andb_true_iff, ascii_eqb_true, IH. split.
      * intros [-> [rest ->]]. by exists rest.
      * intros [rest Hrest]. injection Hrest as -> ->. eauto.
Qed.

Lemma string_includes_infix (s sub : string) :
  string_includes s sub = true <-> exists pre post, s = pre +:+ sub +:+ post.
Proof.
  induction s as [|c s IH]; simpl.
  - rewrite orb_false_r, startsWith_prefix. split.
    + intros [rest Hrest]. by exists "", rest.
    + intros [pre [post Heq]]. destruct pre; [by exists post | discriminate].
  - rewrite orb_true_iff, startsWith_prefix, IH. split.
    + intros [[rest Hrest] | [pre [post Heq]]].
      * by exists "", rest.
      * exists (String c pre), post. simpl. by rewrite Heq.
    + intros [pre [post Heq]]. destruct pre as [|d pre]; simpl in Heq.
      * left. by exists post.
      * right. injection Heq as -> ->. by exists pre, post.
Qed.

Lemma array_includes_member (items : list Value) (x : Value) :
  array_includes items x = true
  <-> exists y, y ∈ items /\ same_value_zero y x = true.
Proof.
  unfold array_includes. rewrite existsb_exists.
  split; intros [y [Hin Hy]]; exists y; by rewrite ?list_elem_of_In in *.
Qed.

(** ** Visibility *)

Lemma trimEnd_not_white (c : ascii) (s : string) :
  is_white_space c = false -> trimEnd (String c s) <> "".
Proof. intros Hc. simpl. by rewrite Hc. Qed.

Lemma trimStart_white (s : string) :
  (string_forallb is_white_space s = true /\ trimStart s = "")
  \/ (string_forallb is_white_space s = false
      /\ exists c t, trimStart s = String c t /\ is_white_space c = false).
Proof.
  induction s as [|c s IH]; simpl.
  - by left.
  - destruct (is_white_space c) eqn:Hc; simpl.
    + exact IH.
    + right. split; [done|]. by exists c, s.
Qed.

(** [s.trim() === ''] exactly when [s] has white space only. *)
Lemma trim_empty (s : string) :
  String.eqb (trim s) "" = string_forallb is_white_space s.
Proof.
  unfold trim.
  destruct (trimStart_white s) as [[-> ->] | [-> (c & t & -> & Hc)]].
  - reflexivity.
  - apply String.eqb_neq. by apply trimEnd_not_white.
Qed.

Lemma is_white_space_code (c : ascii) :
  is_white_space c = true <-> white_code c.
Proof.
  unfold is_white_space, white_code. cbn zeta.
  generalize (nat_of_ascii c). intros n.
  rewrite !orb_true_iff, andb_true_iff, !Nat.leb_le, !Nat.eqb_eq.
  rewrite !elem_of_cons, elem_of_nil. lia.
Qed.

Lemma forallb_white_codes (s : string) :
  string_forallb is_white_space s = true
  <-> Forall white_code (list_ascii_of_string s).
Proof.
  induction s as [|c s IH]; simpl.
  - split; [constructor | done].
  - by rewrite andb_true_iff, Forall_cons, IH, is_white_space_code.
Qed.

(** [isEmpty] decides the emptiness of the specification. *)
Lemma isEmpty_blank (v : Value) : isEmpty v = true <-> blank v.
Proof.
  unfold blank.
  destruct v as [| | b | n | s | ref items | ref f | ref]; simpl.
  - split; [by left | done].
  - split; [by right; left | done].
  - split; [done | intros [? | [? | [(s & ? & _) | (r & ?)]]]; discriminate].
  - split; [done | intros [? | [? | [(s & ? & _) | (r & ?)]]]; discriminate].
  - rewrite trim_empty, forallb_white_codes. split.
    + intros Hs. right; right; left. by exists s.
    + intros [? | [? | [(s' & [= <-] & Hs) | (r & ?)]]]; done.
  - destruct items as [|x items]; simpl.
    + split; [|done]. intros _. right; right; right. by exists ref.
    + split; [done|].
      intros [? | [? | [(s & ? & _) | (r & ?)]]]; discriminate.
  - split; [done | intros [? | [? | [(s & ? & _) | (r & ?)]]]; discriminate].
  - split; [done | intros [? | [? | [(s & ? & _) | (r & ?)]]]; discriminate].
Qed.

(** [===] decides strict equality. *)
Lemma strict_eq_strictly_equal (a b : Value) :
  strict_eq a b = true <-> strictly_equal a b.
Proof.
  split.
  - destruct a as [| | x | [|x] | x | r1 l1 | r1 f1 | r1],
             b as [| | y | [|y] | y | r2 l2 | r2 f2 | r2];
      simpl; try discriminate; intros H; try constructor.
    + apply Bool.eqb_prop in H as ->. constructor.
    + apply Z.eqb_eq in H as ->. constructor.
    + apply String.eqb_eq in H as ->. constructor.
    + apply Nat.eqb_eq in H as ->. constructor.
    + apply Nat.eqb_eq in H as ->. constructor.
    + apply Nat.eqb_eq in H as ->. constructor.
  - intros []; simpl;
      rewrite ?Bool.eqb_reflx, ?Z.eqb_refl, ?String.eqb_refl, ?Nat.eqb_refl;
      reflexivity.
Qed.

Lemma same_value_zero_element (y c : Value) :
  same_value_zero y c = true
  <-> strictly_equal y c \/ (y = VNum NaN /\ c = VNum NaN).
Proof.
  rewrite <- strict_eq_strictly_equal. unfold same_value_zero.
  destruct y as [| | | [|x] | | | |]; try (split; [by left | by intros [? | [? _]]]).
  destruct c as [| | | [|z] | | | |];
    try (split; [by left | by intros [? | [_ ?]]]).
  split; [by right | done].
Qed.

Lemma num_ltb_numbers (a b : Num) :
  num_ltb a b = true <-> exists x y, a = Int x /\ b = Int y /\ x < y.
Proof.
  destruct a as [|x], b as [|y]; simpl;
    try (split; [done | by intros (? & ? & ? & ? & _)]).
  rewrite Z.ltb_lt. split.
  - intros H. by exists x, y.
  - by intros (? & ? & [= <-] & [= <-] & H).
Qed.

Lemma num_leb_numbers (a b : Num) :
  num_leb a b = true <-> exists x y, a = Int x /\ b = Int y /\ x <= y.
Proof.
  destruct a as [|x], b as [|y]; simpl;
    try (split; [done | by intros (? & ? & ? & ? & _)]).
  rewrite Z.leb_le. split.
  - intros H. by exists x, y.
  - by intros (? & ? & [= <-] & [= <-] & H).
Qed.

(** [evaluateCondition] decides the comparison of the specification, for
    every operator and every pair of values. *)
Lemma evaluateCondition_compares (operator : ConditionOperator)
    (v c : Value) :
  evaluateCondition operator v c = true <-> compares operator v c.
Proof.
  assert (Hcontains : evaluateCondition op_contains v c = true
                      <-> contains v c).
  { unfold contains, substring_of, element_of.
    destruct v as [| | b | n | s | ref items | ref f | ref]; simpl;
      try (split; [done |
                   intros [(? & ? & ? & _) | (? & ? & ? & _)]; discriminate]).
    - destruct c as [| | b | n | sub | ref items | ref f | ref];
        try (split; [done |
                     intros [(? & ? & _ & ? & _) | (? & ? & ? & _)];
                     discriminate]).
      rewrite string_includes_infix. split.
      + intros H. left. by exists s, sub.
      + intros [(? & ? & [= <-] & [= <-] & H) | (? & ? & ? & _)];
          [done | discriminate].
    - rewrite array_includes_member. split.
      + intros (y & Hy & Hsame). right. exists ref, items. split; [done|].
        exists y. by rewrite <- same_value_zero_element.
      + intros [(? & ? & ? & _) | (? & ? & [= <- <-] & y & Hy & Hsame)];
          [discriminate|].
        exists y. by rewrite same_value_zero_element. }
  assert (Hnumbers : forall (R : Z -> Z -> Prop) (test : Num -> Num -> bool),
    (forall a b, test a b = true
                 <-> exists x y, a = Int x /\ b = Int y /\ R x y) ->
    match v, c with
    | VNum a, VNum b => test a b
    | _, _ => false
    end = true <-> numbers R v c).
  { intros R test Htest. unfold numbers.
    destruct v as [| | | a | | | |];
      try (split; [done | by intros (? & ? & ? & _)]).
    destruct c as [| | | b | | | |];
      try (split; [done | by intros (? & ? & _ & ? & _)]).
    rewrite Htest. split.
    - intros (x & y & -> & -> & H). by exists x, y.
    - intros (x & y & [= ->] & [= ->] & H). by exists x, y. }
  destruct operator; simpl.
  - apply strict_eq_strictly_equal.
  - by rewrite negb_true_iff, <- not_true_iff_false, strict_eq_strictly_equal.
  - exact Hcontains.
  - rewrite <- Hcontains. simpl.
    destruct v as [| | | | s | ref items | |]; try done;
      try (destruct c; try done);
      by rewrite negb_true_iff, <- not_true_iff_false.
  - apply (Hnumbers (fun x y => x > y) num_gtb). intros a b.
    unfold num_gtb. rewrite num_ltb_numbers. split.
    + intros (y & x & -> & -> & H). exists x, y. repeat split; lia.
    + intros (x & y & -> & -> & H). exists y, x. repeat split; lia.
  - apply (Hnumbers (fun x y => x < y) num_ltb), num_ltb_numbers.
  - apply (Hnumbers (fun x y => x >= y) num_geb). intros a b.
    unfold num_geb. rewrite num_leb_numbers. split.
    + intros (y & x & -> & -> & H). exists x, y. repeat split; lia.
    + intros (x & y & -> & -> & H). exists y, x. repeat split; lia.
  - apply (Hnumbers (fun x y => x <= y) num_leb), num_leb_numbers.
  - apply isEmpty_blank.
  - by rewrite negb_true_iff, <- not_true_iff_false, isEmpty_blank.
Qed.

Lemma forallb_results (formData : gmap string Value)
    (rules : list ConditionalRule) :
  forallb (fun r => r)
    (map (fun rule =>
            evaluateCondition (rule_operator rule)
              (get_value formData (rule_field rule)) (rule_value rule)) rules)
  = true <-> Forall (rule_holds formData) rules.
Proof.
  induction rules as [|r rules IH]; simpl.
  - split; [constructor | done].
  - rewrite andb_true_iff, IH, Forall_cons, evaluateCondition_compares. done.
Qed.

Lemma existsb_results (formData : gmap string Value)
    (rules : list ConditionalRule) :
  existsb (fun r => r)
    (map (fun rule =>
            evaluateCondition (rule_operator rule)
              (get_value formData (rule_field rule)) (rule_value rule)) rules)
  = true <-> Exists (rule_holds formData) rules.
Proof.
  induction rules as [|r rules IH]; simpl.
  - split; [done | by intros ?%Exists_nil].
  - rewrite orb_true_iff, IH, Exists_cons, evaluateCondition_compares. done.
Qed.

Lemma evaluateConditions_rules (field : FieldSchema)
    (formData : gmap string Value) (allFields : list FieldSchema)
    (c : FieldConditions) :
  field_conditions field = Some c -> cond_rules c <> [] ->
  evaluateConditions field formData allFields =
  let results :=
    map (fun rule =>
           evaluateCondition (rule_operator rule)
             (get_value formData (rule_field rule)) (rule_value rule))
        (cond_rules c) in
  match cond_logic c with
  | AND => forallb (fun r => r) results
  | OR => existsb (fun r => r) results
  end.
Proof.
  intros Hc Hrules. unfold evaluateConditions. rewrite Hc.
  destruct (cond_rules c) as [|r rs]; [done | reflexivity].
Qed.

(** C3. [evaluateConditions] returns [true] for a field without
    [conditions], whatever the rest of the field; returns [conditions.show]
    when [conditions.rules] is empty; and otherwise holds exactly when all
    rules hold ([logic] is [AND]) or when some rule holds ([logic] is [OR]),
    a rule holding when [formData[rule.field]] compares to [rule.value] under
    [rule.operator] as the specification defines the operators: strict
    equality, substring or membership, comparison of two numbers, emptiness
    ([Spec.compares]). *)
Theorem evaluateConditions_cases (field : FieldSchema)
    (formData : gmap string Value) (allFields : list FieldSchema) :
  (field_conditions field = None ->
   evaluateConditions field formData allFields = true)
  /\ (forall c, field_conditions field = Some c -> cond_rules c = [] ->
      evaluateConditions field formData allFields = cond_show c)
  /\ (forall c, field_conditions field = Some c -> cond_rules c <> [] ->
      cond_logic c = AND ->
      (evaluateConditions field formData allFields = true
       <-> Forall (rule_holds formData) (cond_rules c)))
  /\ (forall c, field_conditions field = Some c -> cond_rules c <> [] ->
      cond_logic c = OR ->
      (evaluateConditions field formData allFields = true
       <-> Exists (rule_holds formData) (cond_rules c))).
Proof.
  split; [|split; [|split]].
  - intros Hnone. unfold evaluateConditions. by rewrite Hnone.
  - intros c Hc Hrules. unfold evaluateConditions. by rewrite Hc, Hrules.
  - intros c Hc Hrules Hlogic.
    rewrite (evaluateConditions_rules _ _ _ c Hc Hrules). simpl.
    rewrite Hlogic. apply forallb_results.
  - intros c Hc Hrules Hlogic.
    rewrite (evaluateConditions_rules _ _ _ c Hc Hrules). simpl.
    rewrite Hlogic. apply existsb_results.
Qed.

(** A field hidden by default ([show] false, no rule) is not visible; the
    same field without its [conditions] is; and with the two rules
    [x equals 1] and [y equals 2] the field is visible under [AND] when both
    hold and under [OR] when one does. *)
Lemma evaluateConditions_cases_witness :
  evaluateConditions (field_with "f" None 0) ∅ [] = true
  /\ evaluateConditions
       (field_with "f" (Some hidden_by_default) 0) ∅ [] = false
  /\ Forall (rule_holds {["x" := VNum (Int 1); "y" := VNum (Int 2)]})
            (cond_rules (x_is_1_and_y_is_2 AND))
  /\ Exists (rule_holds {["x" := VNum (Int 1)]})
            (cond_rules (x_is_1_and_y_is_2 OR)).
Proof.
  split; [|split; [|split]].
  - apply (evaluateConditions_cases (field_with "f" None 0) ∅ []). reflexivity.
  - apply (evaluateConditions_cases
             (field_with "f" (Some hidden_by_default) 0) ∅ []
             ) with (c := hidden_by_default); reflexivity.
  - apply (evaluateConditions_cases
             (field_with "f" (Some (x_is_1_and_y_is_2 AND)) 0)
             {["x" := VNum (Int 1); "y" := VNum (Int 2)]} []);
      [reflexivity | discriminate | reflexivity | vm_compute; reflexivity].
  - apply (evaluateConditions_cases
             (field_with "f" (Some (x_is_1_and_y_is_2 OR)) 0)
             {["x" := VNum (Int 1)]} []);
      [reflexivity | discriminate | reflexivity | vm_compute; reflexivity].
Defined.



(** ** Migration *)

(** C9. [migrateSchema] is idempotent, and its result is the input schema
    with [version] set to [SCHEMA_VERSION]: [id], [metadata], [fields] and
    [settings] are those of the input. This holds for every schema, so in
    particular for every structurally valid one. *)
Theorem migrateSchema_idempotent_stamp (s : FormSchema) :
  migrateSchema (migrateSchema s) = migrateSchema s
  /\ schema_version (migrateSchema s) = SCHEMA_VERSION
  /\ schema_id (migrateSchema s) = schema_id s
  /\ schema_metadata (migrateSchema s) = schema_metadata s
  /\ schema_fields (migrateSchema s) = schema_fields s
  /\ schema_settings (migrateSchema s) = schema_settings s.
Proof. by destruct s. Qed.

(** ** The store: update and removal *)

Lemma map_fmap {A B : Type} (f : A -> B) (l : list A) : map f l = f <$> l.
Proof. reflexivity. Qed.



Lemma absent_ghost_abc : absent "ghost" (schema_fields (currentForm state_abc)).
Proof.
  intros e He. apply list_elem_of_In in He. simpl in He.
  destruct He as [<- | [<- | [<- | []]]]; discriminate.
Defined.



(** [removeFieldWithCleanup], element by element. *)
Lemma removeFieldWithCleanup_elem (fields : list FieldEntry) (fieldId : string)
    (e' : FieldEntry) :
  e' ∈ removeFieldWithCleanup fields fieldId
  <-> exists e, e ∈ fields /\ entry_id e <> Some fieldId
                /\ e' = cleanup_entry fieldId e.
Proof.
  unfold removeFieldWithCleanup. rewrite map_fmap, list_elem_of_fmap.
  split.
  - intros [e [-> He]]. apply list_elem_of_filter in He as [Hid He]. eauto.
  - intros [e [He [Hid ->]]]. exists e. split; [done|].
    by apply list_elem_of_filter.
Qed.

Lemma cleanup_entry_id (fieldId : string) (e : FieldEntry) :
  entry_id (cleanup_entry fieldId e) = entry_id e.
Proof.
  destruct e as [f|o]; simpl; [|done].
  destruct (field_conditions f); [|done].
  by destruct (length _ =? 0)%nat.
Qed.

Lemma cleanup_entry_order (fieldId : string) (e : FieldEntry) :
  entry_order (cleanup_entry fieldId e) = entry_order e.
Proof.
  destruct e as [f|o]; simpl; [|done].
  destruct (field_conditions f); [|done].
  by destruct (length _ =? 0)%nat.
Qed.

Lemma cleanup_entry_stripped (fieldId : string) (f : FieldSchema)
    (c : FieldConditions) :
  field_conditions f = Some c -> rules_without fieldId c = [] ->
  cleanup_entry fieldId (Field f) = Field (with_conditions f None).
Proof.
  intros Hc Hnil. unfold rules_without in Hnil. simpl. by rewrite Hc, Hnil.
Qed.

Lemma cleanup_entry_cleaned (fieldId : string) (f : FieldSchema)
    (c : FieldConditions) :
  field_conditions f = Some c -> rules_without fieldId c <> [] ->
  cleanup_entry fieldId (Field f)
  = Field (with_conditions f (Some (with_rules c (rules_without fieldId c)))).
Proof.
  intros Hc Hne. unfold rules_without in *. simpl. rewrite Hc.
  destruct (filter _ (cond_rules c)) as [|r rs]; [done | reflexivity].
Qed.

(** The conditions a field has after the cleanup: none, or rules that are
    not empty and do not refer to the removed id. *)
Lemma cleanup_entry_conditions (fieldId : string) (e : FieldEntry)
    (f' : FieldSchema) (c' : FieldConditions) :
  cleanup_entry fieldId e = Field f' -> field_conditions f' = Some c' ->
  cond_rules c' <> []
  /\ forall r, r ∈ cond_rules c' -> rule_field r <> fieldId.
Proof.
  destruct e as [f|o]; simpl; [|done].
  destruct (field_conditions f) as [c|] eqn:Hc.
  - destruct (filter _ (cond_rules c)) as [|r0 rs] eqn:Hfilter; simpl.
    + intros [= <-]. done.
    + intros [= <-]. simpl. intros [= <-]. simpl. split; [done|].
      intros r Hr. rewrite <- Hfilter in Hr.
      by apply list_elem_of_filter in Hr as [Hr _].
  - intros [= <-]. by rewrite Hc.
Qed.

Lemma removeFieldWithCleanup_stripped (fields : list FieldEntry)
    (fieldId : string) (f : FieldSchema) (c : FieldConditions) :
  Field f ∈ fields -> field_id f <> fieldId ->
  field_conditions f = Some c -> rules_without fieldId c = [] ->
  Field (with_conditions f None) ∈ removeFieldWithCleanup fields fieldId.
Proof.
  intros Hf Hid Hc Hnil. apply removeFieldWithCleanup_elem.
  exists (Field f). split; [done|]. split; [simpl; congruence|].
  symmetry. by apply cleanup_entry_stripped with c.
Qed.

(** C2. After [removeField(fieldId)]: no field has the id [fieldId]; no rule
    of a remaining field refers to [fieldId]; a remaining field all of whose
    rules referred to [fieldId] has no [conditions] any more, and no remaining
    field is left with an empty rule list; a field that keeps some rule keeps
    its [conditions] with exactly the rules that do not refer to [fieldId]. *)
Theorem removeField_cleanup (now : string) (state : State) (fieldId : string) :
  let fields := schema_fields (currentForm state) in
  let fields' := schema_fields (currentForm (removeField now state fieldId)) in
  absent fieldId fields'
  /\ (forall f c r, Field f ∈ fields' -> field_conditions f = Some c ->
        r ∈ cond_rules c -> rule_field r <> fieldId)
  /\ (forall f c, Field f ∈ fields' -> field_conditions f = Some c ->
        cond_rules c <> [])
  /\ (forall f c, Field f ∈ fields -> field_id f <> fieldId ->
        field_conditions f = Some c -> rules_without fieldId c = [] ->
        Field (with_conditions f None) ∈ fields')
  /\ (forall f c, Field f ∈ fields -> field_id f <> fieldId ->
        field_conditions f = Some c -> rules_without fieldId c <> [] ->
        Field (with_conditions f (Some (with_rules c (rules_without fieldId c))))
          ∈ fields').
Proof.
  simpl. split; [|split; [|split; [|split]]].
  - intros e' He'. apply removeFieldWithCleanup_elem in He' as [e [_ [Hid ->]]].
    by rewrite cleanup_entry_id.
  - intros f c r Hf Hc Hr.
    apply removeFieldWithCleanup_elem in Hf as [e [_ [_ Heq]]].
    symmetry in Heq.
    by apply (cleanup_entry_conditions _ _ _ _ Heq Hc).
  - intros f c Hf Hc.
    apply removeFieldWithCleanup_elem in Hf as [e [_ [_ Heq]]].
    symmetry in Heq.
    by apply (cleanup_entry_conditions _ _ _ _ Heq Hc).
  - intros f c Hf Hid Hc Hnil.
    by apply removeFieldWithCleanup_stripped with c.
  - intros f c Hf Hid Hc Hne. apply removeFieldWithCleanup_elem.
    exists (Field f). split; [done|]. split; [simpl; congruence|].
    symmetry. by apply cleanup_entry_cleaned.
Qed.

(** Removing [a] from the sample form: [b], whose only rule referred to [a],
    is left without [conditions]. *)
Lemma removeField_cleanup_witness :
  Field (with_conditions field_b None)
    ∈ schema_fields (currentForm (removeField later state_abc "a")).
Proof.
  apply (removeField_cleanup later state_abc "a") with (c := shown_when_a).
  - apply list_elem_of_In. simpl. tauto.
  - discriminate.
  - reflexivity.
  - reflexivity.
Defined.

(** C10. A field [f] that carries a [conditions] object with an empty rule
    list loses it when any other field is removed: the field that takes its
    place has no [conditions]. Its visibility was [conditions.show] before and
    is [true] after, whatever the form data. *)
Theorem removeField_strips_empty_conditions (now : string) (state : State)
    (fieldId : string) (f : FieldSchema) (c : FieldConditions)
    (data : gmap string Value) (allFields allFields' : list FieldSchema) :
  Field f ∈ schema_fields (currentForm state) ->
  field_id f <> fieldId ->
  field_conditions f = Some c ->
  cond_rules c = [] ->
  Field (with_conditions f None)
    ∈ schema_fields (currentForm (removeField now state fieldId))
  /\ with_conditions f None <> f
  /\ evaluateConditions f data allFields = cond_show c
  /\ evaluateConditions (with_conditions f None) data allFields' = true.
Proof.
  intros Hf Hid Hc Hrules. split; [|split; [|split]].
  - simpl. apply removeFieldWithCleanup_stripped with c; try done.
    unfold rules_without. by rewrite Hrules.
  - intros Heq. apply (f_equal field_conditions) in Heq. simpl in Heq.
    congruence.
  - unfold evaluateConditions. by rewrite Hc, Hrules.
  - reflexivity.
Qed.

(** Removing [a] from the sample form: [c], hidden by default and without a
    rule, is replaced by a field without [conditions]; it was not visible and
    now is. *)
Lemma removeField_strips_empty_conditions_witness :
  Field (with_conditions field_c None)
    ∈ schema_fields (currentForm (removeField later state_abc "a"))
  /\ evaluateConditions field_c ∅ [] = false
  /\ evaluateConditions (with_conditions field_c None) ∅ [] = true.
Proof.
  destruct (removeField_strips_empty_conditions later state_abc "a" field_c
              hidden_by_default ∅ [] []) as (Hin & _ & Hbefore & Hafter).
  - apply list_elem_of_In. simpl. tauto.
  - discriminate.
  - reflexivity.
  - reflexivity.
  - split; [exact Hin|]. split; [exact Hbefore | exact Hafter].
Defined.

(** ** The store: order and ids *)

Lemma entry_order_spread (e : FieldEntry) (i : Z) :
  entry_order (spread_order e i) = i.
Proof. by destruct e. Qed.

Lemma entry_id_spread (e : FieldEntry) (i : Z) :
  entry_id (spread_order e i) = entry_id e.
Proof. by destruct e. Qed.

Lemma entry_order_spread_opt (e : option FieldEntry) (i : Z) :
  entry_order (spread_order_opt e i) = i.
Proof. destruct e as [e|]; [apply entry_order_spread | done]. Qed.

Lemma entry_id_spread_opt (e : option FieldEntry) (i : Z) :
  entry_id (spread_order_opt e i) = e ≫= entry_id.
Proof. destruct e as [e|]; [apply entry_id_spread | done]. Qed.

(** Renumbering establishes the order invariant, whatever the array. *)
Lemma order_invariant_imap {A : Type} (g : nat -> A -> FieldEntry)
    (l : list A) :
  (forall i x, entry_order (g i x) = Z.of_nat i) ->
  order_invariant (imap g l).
Proof.
  intros Hg i e. rewrite list_lookup_imap.
  destruct (l !! i) as [x|]; simpl; [|done]. intros [= <-]. apply Hg.
Qed.

Lemma order_invariant_renumber (fields : list FieldEntry) :
  order_invariant (renumber fields).
Proof. apply order_invariant_imap. intros. apply entry_order_spread. Qed.

(** Renumbering keeps the ids, in their order. *)
Lemma omap_entry_id_imap {A : Type} (g : nat -> A -> FieldEntry)
    (h : A -> option string) (l : list A) :
  (forall i x, entry_id (g i x) = h x) ->
  omap entry_id (imap g l) = omap h l.
Proof.
  revert g. induction l as [|x l IH]; intros g Hg; simpl; [done|].
  rewrite Hg, IH; [done|]. intros i y. apply Hg.
Qed.

Lemma ids_renumber (fields : list FieldEntry) :
  omap entry_id (renumber fields) = omap entry_id fields.
Proof. apply omap_entry_id_imap. intros. apply entry_id_spread. Qed.

(** [splice(start, 0, x)] inserts [x] and keeps every element. *)
Lemma splice_insert_perm {A : Type} (l : list A) (start : Z) (x : A) :
  snd (splice l start 0 [x]) ≡ₚ x :: l.
Proof.
  unfold splice. simpl. rewrite Nat.add_0_r.
  rewrite <- Permutation_middle. by rewrite take_drop.
Qed.

Lemma ids_unique_insert (fields : list FieldEntry) (start : Z)
    (f : FieldSchema) :
  ids_unique fields -> absent (field_id f) fields ->
  ids_unique (renumber (snd (splice fields start 0 [Field f]))).
Proof.
  unfold ids_unique. intros Hnodup Habs.
  rewrite ids_renumber, (splice_insert_perm fields start (Field f)). simpl.
  apply NoDup_cons. split; [|done].
  intros Hin. apply list_elem_of_omap in Hin as [e [He Hid]].
  by apply (Habs e).
Qed.

(** [addField] gives a form that satisfies the order invariant, and keeps
    the ids unique when the generated id is fresh. *)
Lemma addField_invariants (now newId : string) (state : State)
    (type : FieldType) (position : option Z) :
  ids_unique (schema_fields (currentForm state)) ->
  absent newId (schema_fields (currentForm state)) ->
  order_invariant
    (schema_fields (currentForm (addField now newId state type position)))
  /\ ids_unique
       (schema_fields (currentForm (addField now newId state type position))).
Proof.
  intros Hnodup Hfresh. split; simpl.
  - apply order_invariant_renumber.
  - by apply ids_unique_insert.
Qed.

Lemma findIndex_None_absent (fields : list FieldEntry) (fieldId : string) :
  findIndex fields fieldId = None -> absent fieldId fields.
Proof.
  induction fields as [|e fields IH]; simpl; intros Hnone e' He'.
  - by apply elem_of_nil in He'.
  - apply elem_of_cons in He' as [-> | He'].
    + destruct e as [f|o]; [|done]. simpl.
      destruct (String.eqb_spec (field_id f) fieldId); [done | congruence].
    + apply IH; [|done]. destruct e as [f|o].
      * destruct (String.eqb (field_id f) fieldId); [done|].
        by destruct (findIndex fields fieldId).
      * by destruct (findIndex fields fieldId).
Qed.

(** [duplicateField] keeps both invariants when the generated id is fresh
    (when the id is not found it returns the state it was given). *)
Lemma duplicateField_invariants (now newId : string) (state : State)
    (fieldId : string) :
  order_invariant (schema_fields (currentForm state)) ->
  ids_unique (schema_fields (currentForm state)) ->
  absent newId (schema_fields (currentForm state)) ->
  order_invariant
    (schema_fields (currentForm (duplicateField now newId state fieldId)))
  /\ ids_unique
       (schema_fields (currentForm (duplicateField now newId state fieldId))).
Proof.
  intros Horder Hnodup Hfresh. unfold duplicateField.
  destruct (findIndex _ fieldId) as [[i f]|]; [|done]. split; simpl.
  - apply order_invariant_renumber.
  - by apply (ids_unique_insert _ _ (cloneField newId f (Z.of_nat i + 1))).
Qed.

(** [removeFieldWithCleanup] keeps the order property of every entry it
    keeps, and the ids unique. *)
Lemma removeFieldWithCleanup_ids (fields : list FieldEntry) (fieldId : string) :
  omap entry_id (removeFieldWithCleanup fields fieldId)
  = filter (fun i => i ≠ fieldId) (omap entry_id fields).
Proof.
  unfold removeFieldWithCleanup.
  induction fields as [|e fields IH]; [done|].
  rewrite filter_cons.
  destruct (decide (entry_id e ≠ Some fieldId)) as [Hne|Heq].
  - cbn [map omap list_omap]. rewrite cleanup_entry_id.
    destruct (entry_id e) as [i|] eqn:Hid.
    + rewrite filter_cons, decide_True by congruence. f_equal. apply IH.
    + apply IH.
  - apply dec_stable in Heq. cbn [omap list_omap]. rewrite Heq.
    rewrite filter_cons, decide_False by (intros ?; done). apply IH.
Qed.

Lemma removeField_ids_unique (now : string) (state : State)
    (fieldId : string) :
  ids_unique (schema_fields (currentForm state)) ->
  ids_unique (schema_fields (currentForm (removeField now state fieldId))).
Proof.
  unfold ids_unique. simpl. rewrite removeFieldWithCleanup_ids.
  apply NoDup_filter.
Qed.

Lemma removeFieldWithCleanup_orders (fields : list FieldEntry)
    (fieldId : string) :
  entry_order <$> removeFieldWithCleanup fields fieldId
  = entry_order <$> filter (fun e => entry_id e ≠ Some fieldId) fields.
Proof.
  unfold removeFieldWithCleanup.
  rewrite (map_fmap (cleanup_entry fieldId)), <- list_fmap_compose.
  apply list_fmap_ext. intros i e _. apply cleanup_entry_order.
Qed.

(** [reorderFields] with the two [splice] calls written out: [f] and [t] are
    the indices the calls work at, [rest] the array between them. *)
Lemma reorderFields_unfold (fields : list FieldEntry) (fromIndex toIndex : Z) :
  reorderFields fields fromIndex toIndex =
  let l := Some <$> fields in
  let f := splice_start (length l) fromIndex in
  let rest := take f l ++ drop (f + 1) l in
  let removed := default None (head (take 1 (drop f l))) in
  let t := splice_start (length rest) toIndex in
  imap (fun index field => spread_order_opt field (Z.of_nat index))
       (take t rest ++ removed :: drop t rest).
Proof.
  unfold reorderFields, splice. cbn zeta. rewrite map_fmap. cbn [app].
  by rewrite Nat.add_0_r.
Qed.

(** [reorderFields] establishes the order invariant, whatever the indices. *)
Lemma reorderFields_order_invariant (fields : list FieldEntry)
    (fromIndex toIndex : Z) :
  order_invariant (reorderFields fields fromIndex toIndex).
Proof.
  rewrite reorderFields_unfold. cbn zeta.
  apply order_invariant_imap. intros. apply entry_order_spread_opt.
Qed.

Lemma omap_bind_Some (fields : list FieldEntry) :
  omap (fun o : option FieldEntry => o ≫= entry_id) (Some <$> fields)
  = omap entry_id fields.
Proof.
  induction fields as [|e fields IH]; [done|].
  rewrite fmap_cons. cbn [omap list_omap mbind option_bind].
  by rewrite IH.
Qed.

(** The element [splice(f, 1)] removes, and what it leaves. *)
Lemma splice_remove_perm {A : Type} (l : list (option A)) (f : nat) :
  match default None (head (take 1 (drop f l))) with
  | Some x => Some x :: (take f l ++ drop (f + 1) l) ≡ₚ l
  | None => True
  end
  /\ (length l <= f -> take f l ++ drop (f + 1) l = l
                       /\ head (take 1 (drop f l)) = None)%nat.
Proof.
  split.
  - destruct (drop f l) as [|y rest] eqn:Hdrop; simpl; [done|].
    destruct y as [x|]; [|done].
    rewrite <- (drop_drop l 1 f), Hdrop. simpl. rewrite drop_0.
    rewrite Permutation_middle, <- Hdrop. by rewrite take_drop.
  - intros Hlen. rewrite take_ge, !drop_ge by lia. by rewrite app_nil_r.
Qed.

(** [reorderFields] keeps the ids, up to their order, whatever the
    indices. *)
Lemma reorderFields_ids (fields : list FieldEntry) (fromIndex toIndex : Z) :
  omap entry_id (reorderFields fields fromIndex toIndex)
  ≡ₚ omap entry_id fields.
Proof.
  rewrite reorderFields_unfold. cbn zeta.
  set (l := Some <$> fields).
  set (f := splice_start (length l) fromIndex).
  set (rest := take f l ++ drop (f + 1) l).
  set (removed := default None (head (take 1 (drop f l)))).
  set (t := splice_start (length rest) toIndex).
  rewrite (omap_entry_id_imap _ (fun o : option FieldEntry => o ≫= entry_id))
    by (intros; apply entry_id_spread_opt).
  rewrite <- Permutation_middle, take_drop.
  destruct (splice_remove_perm l f) as [Hsome Hnone].
  fold removed in Hsome. destruct removed as [x|] eqn:Hremoved.
  - fold rest in Hsome. rewrite Hsome. apply reflexive_eq, omap_bind_Some.
  - simpl. destruct (decide (length l <= f)%nat) as [Hge|Hlt].
    + destruct (Hnone Hge) as [Hrest _]. fold rest in Hrest. rewrite Hrest.
      apply reflexive_eq, omap_bind_Some.
    + exfalso. subst removed l.
      destruct (drop f (Some <$> fields)) as [|y ys] eqn:Hdrop.
      * apply (f_equal length) in Hdrop. rewrite length_drop in Hdrop.
        simpl in Hdrop. lia.
      * simpl in Hremoved. subst y.
        assert (Hin : None ∈ drop f (Some <$> fields)) by (rewrite Hdrop; left).
        rewrite <- fmap_drop in Hin.
        by apply list_elem_of_fmap in Hin as [? [? _]].
Qed.

(** [reorderField] gives a form that satisfies the order invariant and keeps
    the ids unique. *)
Lemma reorderField_invariants (now : string) (state : State)
    (fromIndex toIndex : Z) :
  ids_unique (schema_fields (currentForm state)) ->
  order_invariant
    (schema_fields (currentForm (reorderField now state fromIndex toIndex)))
  /\ ids_unique
       (schema_fields (currentForm (reorderField now state fromIndex toIndex))).
Proof.
  intros Hnodup. split; simpl.
  - apply reorderFields_order_invariant.
  - unfold ids_unique. by rewrite reorderFields_ids.
Qed.

(** C1, at the input where the code departs from it. The sample form
    [a, b, c] satisfies the order invariant and has unique ids. After
    [removeField("a")] the two remaining fields still carry the orders 1 and
    2 at the indices 0 and 1: [removeFieldWithCleanup] filters and cleans the
    array and does not renumber it, so the order invariant is broken. (The
    ids stay unique, and [addField], [duplicateField] and [reorderField] do
    renumber: see the lemmas above.) *)
Theorem removeField_breaks_order_invariant :
  order_invariant (schema_fields (currentForm state_abc))
  /\ ids_unique (schema_fields (currentForm state_abc))
  /\ entry_order <$> schema_fields (currentForm (removeField later state_abc "a"))
     = [1; 2]
  /\ ~ order_invariant
         (schema_fields (currentForm (removeField later state_abc "a"))).
Proof.
  split; [|split; [|split]].
  - intros i e. destruct i as [|[|[|i]]]; simpl; intros [= <-]; reflexivity.
  - unfold ids_unique. simpl. compute_done.
  - reflexivity.
  - intros Hinv.
    specialize (Hinv 0%nat (Field (with_conditions field_b None)) eq_refl).
    discriminate.
Qed.

(** ** Reordering with indices out of range *)

(** An index within the array is the index [splice] works at. *)
Lemma splice_start_in_range (len : nat) (start : Z) :
  0 <= start < Z.of_nat len -> splice_start len start = Z.to_nat start.
Proof.
  intros [Hlo Hhi]. unfold splice_start.
  destruct (Z.ltb_spec start 0); [lia|]. f_equal. lia.
Qed.

(** Whatever the index, [splice] works at a position of the array or at its
    end. *)
Lemma splice_start_le (len : nat) (start : Z) :
  (splice_start len start <= len)%nat.
Proof. unfold splice_start. destruct (Z.ltb_spec start 0); lia. Qed.

(** [reorderFields] when the first [splice] finds an element. *)
Lemma reorderFields_found (fields : list FieldEntry) (fromIndex toIndex : Z)
    (x : FieldEntry) :
  let f := splice_start (length fields) fromIndex in
  let rest := delete f fields in
  let t := splice_start (length rest) toIndex in
  fields !! f = Some x ->
  reorderFields fields fromIndex toIndex
  = renumber (take t rest ++ x :: drop t rest).
Proof.
  intros f rest t Hx. rewrite reorderFields_unfold. cbn zeta.
  rewrite length_fmap. fold f.
  assert (Hrest : take f (Some <$> fields) ++ drop (f + 1) (Some <$> fields)
                  = Some <$> rest).
  { subst rest. rewrite delete_take_drop, fmap_app, fmap_take, fmap_drop.
    by rewrite Nat.add_1_r. }
  assert (Hremoved : default None (head (take 1 (drop f (Some <$> fields))))
                     = Some x).
  { rewrite <- fmap_drop, (drop_S _ _ _ Hx). reflexivity. }
  rewrite Hrest, Hremoved, length_fmap. fold t.
  rewrite <- fmap_take, <- fmap_drop.
  change (Some x :: (Some <$> drop t rest)) with (Some <$> x :: drop t rest).
  rewrite <- fmap_app, imap_fmap. reflexivity.
Qed.




(** ** Validation of the whole form *)

Section ValidateForm.

Variable RegExp_test : string -> string -> option bool.
Variable URL_parses : string -> bool.

Local Abbreviation validateRule := (validateRule RegExp_test URL_parses).
Local Abbreviation validateField := (validateField RegExp_test URL_parses).
Local Abbreviation validateForm_step :=
  (validateForm_step RegExp_test URL_parses).
Local Abbreviation validateForm := (validateForm RegExp_test URL_parses).
Local Abbreviation field_result := (field_result RegExp_test URL_parses).

Lemma well_formed_ok : well_formed ok.
Proof. by left. Qed.

Lemma well_formed_failed (error : string) :
  error <> "" -> well_formed (failed error).
Proof. intros Hne. right. by exists error. Qed.

Lemma or_default_nonempty (message fallback : string) :
  fallback <> "" -> or_default message fallback <> "".
Proof.
  intros Hne. unfold or_default.
  by destruct (String.eqb_spec message "").
Qed.

Create HintDb validation.
Local Hint Resolve well_formed_ok well_formed_failed or_default_nonempty
  : validation.

Lemma well_formed_check_or_else (bad : bool) (error : string)
    (rest : ValidationResult) :
  error <> "" -> well_formed rest ->
  well_formed (or_else (check bad error) rest).
Proof. intros Hne Hrest. destruct bad; simpl; auto with validation. Qed.

Lemma validateRule_well_formed (rule : ValidationRule) (value : Value)
    (field : FieldSchema) :
  well_formed (validateRule rule value field).
Proof.
  unfold validateRule.
  destruct (vrule_type rule); repeat case_match;
    auto with validation; apply well_formed_failed, or_default_nonempty;
    discriminate.
Qed.

Lemma validateFieldType_well_formed (field : FieldSchema) (value : Value) :
  well_formed (validateFieldType field value).
Proof.
  unfold validateFieldType.
  destruct (field_type field); repeat case_match; simpl;
    repeat (apply well_formed_check_or_else; [discriminate|]);
    auto with validation; apply well_formed_failed; discriminate.
Qed.

Lemma first_invalid_well_formed (validation : list ValidationRule)
    (value : Value) (field : FieldSchema) (r : ValidationResult) :
  first_invalid RegExp_test URL_parses validation value field = Some r ->
  well_formed r.
Proof.
  induction validation as [|rule rest IH]; simpl; [done|].
  destruct (negb _); [|done]. intros [= <-]. apply validateRule_well_formed.
Qed.

(** Every result of [validateField] that is not valid carries a message that
    is not empty. *)
Lemma validateField_well_formed (field : FieldSchema) (value : Value)
    (allFormData : gmap string Value) :
  well_formed (validateField field value allFormData).
Proof.
  unfold validateField.
  destruct (_ && _); [by apply well_formed_failed|].
  destruct (isEmpty value); [apply well_formed_ok|].
  destruct (first_invalid _ _ _ _ _) as [r|] eqn:Hfirst.
  - by apply first_invalid_well_formed in Hfirst.
  - destruct (negb _); [apply validateFieldType_well_formed | apply well_formed_ok].
Qed.

(** Assignment to a property of an object that has no own [__proto__]. *)
Lemma set_property_other {A : Type} (o : gmap string A) (key : string)
    (v : A) :
  key <> "__proto__" -> set_property o key v = <[key := v]> o.
Proof.
  intros Hkey. unfold set_property.
  by destruct (String.eqb_spec key "__proto__").
Qed.

Lemma set_property_proto {A : Type} (o : gmap string A) (v : A) :
  o !! "__proto__" = None -> set_property o "__proto__" v = o.
Proof.
  intros Hnone. unfold set_property. rewrite Hnone.
  rewrite bool_decide_eq_false_2 by (by intros [? ?]). reflexivity.
Qed.

Lemma set_property_no_proto {A : Type} (o : gmap string A) (key : string)
    (v : A) :
  o !! "__proto__" = None -> set_property o key v !! "__proto__" = None.
Proof.
  intros Hnone. destruct (decide (key = "__proto__")) as [-> | Hkey].
  - by rewrite set_property_proto.
  - by rewrite set_property_other, lookup_insert_ne.
Qed.

(** One turn of the loop of [validateForm]: a field that is validated and
    fails assigns its message to the property of its id, every other field
    assigns nothing. *)
Lemma validateForm_step_cases (fields : list FieldSchema)
    (formData : gmap string Value) (errors : gmap string string)
    (f : FieldSchema) :
  (validated fields formData f
   /\ result_valid (field_result formData f) = false
   /\ exists msg, result_error (field_result formData f) = Some msg
        /\ validateForm_step fields formData errors f
           = set_property errors (field_id f) msg)
  \/ (~ (validated fields formData f
         /\ result_valid (field_result formData f) = false)
      /\ validateForm_step fields formData errors f = errors).
Proof.
  unfold validateForm_step, validated.
  destruct (evaluateConditions f formData fields) eqn:Hvisible.
  - assert (Hskip : match field_conditions f with
                    | Some _ => negb true
                    | None => false
                    end = false) by (by destruct (field_conditions f)).
    rewrite Hskip. fold (field_result formData f).
    destruct (validateField_well_formed f (get_value formData (field_id f))
                formData) as [Hvalid | [msg [Herror Hmsg]]];
      fold (field_result formData f) in *.
    + right. rewrite Hvalid. simpl.
      split; [intros [_ ?]; congruence | by destruct (field_type f)].
    + destruct (result_valid (field_result formData f)) eqn:Hvalid.
      * right. simpl.
        split; [intros [_ ?]; congruence | by destruct (field_type f)].
      * rewrite Herror. simpl.
        destruct (String.eqb_spec msg ""); [done|]. simpl.
        destruct (field_type f) eqn:Htype;
          try (left; split; [done|]; split; [done|]; by exists msg);
          right; (split; [intros [(? & ? & _) _]; done | done]).
  - right. split; [intros [(_ & _ & ?) _]; done|].
    unfold evaluateConditions in Hvisible.
    destruct (field_conditions f); [|done]. by destruct (field_type f).
Qed.

(** The errors after the loop has run over [l], starting from an object
    [errors] that has no own [__proto__]: no error is ever stored under
    that key. *)
Lemma validateForm_loop (fields : list FieldSchema)
    (formData : gmap string Value) (l : list FieldSchema)
    (errors : gmap string string) :
  errors !! "__proto__" = None ->
  let errors' := foldl (validateForm_step fields formData) errors l in
  (forall k msg, errors' !! k = Some msg ->
     errors !! k = Some msg
     \/ exists f, f ∈ l /\ field_id f = k /\ validated fields formData f
          /\ result_valid (field_result formData f) = false
          /\ result_error (field_result formData f) = Some msg)
  /\ (forall k, is_Some (errors !! k) -> is_Some (errors' !! k))
  /\ (forall f, f ∈ l -> validated fields formData f ->
        result_valid (field_result formData f) = false ->
        field_id f <> "__proto__" ->
        is_Some (errors' !! field_id f))
  /\ errors' !! "__proto__" = None.
Proof.
  revert errors. induction l as [|f l IH]; intros errors Hproto; simpl.
  - split; [by left|]. split; [done|]. split; [|done].
    intros f Hf. by apply elem_of_nil in Hf.
  - destruct (validateForm_step_cases fields formData errors f)
      as [(Hval & Hinvalid & msg & Herror & Hstep) | [Hnot Hstep]];
      rewrite Hstep.
    + destruct (IH (set_property errors (field_id f) msg))
        as (Hfrom & Hkeep & Hfail & Hnone);
        [by apply set_property_no_proto|].
      destruct (decide (field_id f = "__proto__")) as [Hid | Hid].
      * rewrite Hid in *. rewrite set_property_proto in * by done.
        split; [|split; [|split]]; [| done | | done].
        -- intros k msg' Hk. destruct (Hfrom k msg' Hk) as [Hins | Hlater].
           ++ by left.
           ++ right. destruct Hlater as (g & Hg & Hrest). exists g.
              split; [by right | done].
        -- intros g Hg Hgval Hginvalid Hgid.
           apply elem_of_cons in Hg as [-> | Hg]; [done|]. by apply Hfail.
      * rewrite set_property_other in * by done.
        split; [|split; [|split]]; [| | | done].
        -- intros k msg' Hk. destruct (Hfrom k msg' Hk) as [Hins | Hlater].
           ++ destruct (decide (field_id f = k)) as [<- | Hne].
              ** rewrite lookup_insert_eq in Hins. injection Hins as <-.
                 right. exists f. split; [left|]. done.
              ** rewrite lookup_insert_ne in Hins by done. by left.
           ++ right. destruct Hlater as (g & Hg & Hrest). exists g.
              split; [by right | done].
        -- intros k Hk. apply Hkeep.
           destruct (decide (field_id f = k)) as [<- | Hne].
           ++ rewrite lookup_insert_eq. eauto.
           ++ by rewrite lookup_insert_ne.
        -- intros g Hg Hgval Hginvalid Hgid.
           apply elem_of_cons in Hg as [-> | Hg].
           ++ apply Hkeep. rewrite lookup_insert_eq. eauto.
           ++ by apply Hfail.
    + destruct (IH errors Hproto) as (Hfrom & Hkeep & Hfail & Hnone).
      split; [|split; [|split]]; [| done | | done].
      * intros k msg' Hk. destruct (Hfrom k msg' Hk) as [Hins | Hlater].
        -- by left.
        -- right. destruct Hlater as (g & Hg & Hrest). exists g.
           split; [by right | done].
      * intros g Hg Hgval Hginvalid Hgid.
        apply elem_of_cons in Hg as [-> | Hg].
        -- by destruct Hnot.
        -- by apply Hfail.
Qed.

Lemma form_valid_empty (fields : list FieldSchema)
    (formData : gmap string Value) :
  form_valid (validateForm fields formData) = true
  <-> form_errors (validateForm fields formData) = ∅.
Proof.
  unfold validateForm. simpl. rewrite Nat.eqb_eq, length_map.
  rewrite <- map_to_list_empty_iff. apply length_zero_iff_nil.
Qed.

(** The errors of [validateForm], read off the loop. *)
Lemma validateForm_errors (fields : list FieldSchema)
    (formData : gmap string Value) :
  (forall k msg,
     form_errors (validateForm fields formData) !! k = Some msg ->
     k <> "__proto__"
     /\ exists f, f ∈ fields /\ field_id f = k /\ validated fields formData f
          /\ result_valid (field_result formData f) = false
          /\ result_error (field_result formData f) = Some msg)
  /\ (forall f, f ∈ fields -> validated fields formData f ->
        result_valid (field_result formData f) = false ->
        field_id f <> "__proto__" ->
        is_Some (form_errors (validateForm fields formData) !! field_id f)).
Proof.
  pose proof (validateForm_loop fields formData fields ∅ (lookup_empty _))
    as Hloop.
  cbn zeta in Hloop.
  change (foldl (validateForm_step fields formData) ∅ fields)
    with (form_errors (validateForm fields formData)) in Hloop.
  destruct Hloop as (Hfrom & _ & Hfail & Hnone).
  split; [|exact Hfail].
  intros k msg Hk. split; [intros ->; congruence|].
  destruct (Hfrom k msg Hk) as [Hempty | Hf]; [|done].
  by rewrite lookup_empty in Hempty.
Qed.


End ValidateForm.



(** ** Detection of circular dependencies *)

Section Runs.

Variable G : gmap string (list string).

(** The loop of [hasCycle] runs as the relation says once each of its calls
    does. *)
Lemma for_of_loop (visit : string -> DfsState -> option (bool * DfsState))
    (ds : list string) :
  (forall d st r st', visit d st = Some (r, st') -> call G d st r st') ->
  forall st r st', for_of visit ds st = Some (r, st') -> loop G ds st r st'.
Proof.
  intros Hvisit. induction ds as [|d ds IH]; intros st r st'; simpl.
  - intros [= <- <-]. constructor.
  - destruct (visit d st) as [[[] st1]|] eqn:Hd; [| |done].
    + intros [= <- <-]. apply loop_return. by apply Hvisit.
    + intros Hrest. eapply loop_next; [by apply Hvisit | by apply IH].
Qed.

(** A result of [hasCycle] is a run of the relation. *)
Lemma hasCycle_call (fuel : nat) (v : string) (st : DfsState) (r : bool)
    (st' : DfsState) :
  hasCycle fuel G v st = Some (r, st') -> call G v st r st'.
Proof.
  revert v st r st'. induction fuel as [|fuel IH]; intros v st r st'; simpl;
    [done|].
  destruct (decide (v ∈ recursionStack st)) as [Hstack|Hstack].
  { intros [= <- <-]. by constructor. }
  destruct (decide (v ∈ visited st)) as [Hvisited|Hvisited].
  { intros [= <- <-]. by constructor. }
  destruct (for_of _ _ _) as [[[] st2]|] eqn:Hloop; [| |done];
    intros [= <- <-]; apply for_of_loop in Hloop; try exact IH.
  - by apply call_cycle.
  - by apply call_done.
Qed.

Lemma call_loop_effect :
  (forall v st r st', call G v st r st' -> call_effect v st r st')
  /\ (forall ds st r st', loop G ds st r st' -> loop_effect ds st r st').
Proof.
  apply call_loop_ind; unfold call_effect, loop_effect.
  - (* on the stack *)
    intros v st Hstack. simpl. split; [done|]. split; [done|]. split; [done|].
    split; [done|]. intros _. by exists v.
  - (* visited *)
    intros v st Hstack Hvisited. split; [done|]. split; [done|].
    split; [done|]. split; [done|]. done.
  - (* a dependency returned true *)
    intros v st st' Hstack Hvisited _ (HV & HS & HSV & _ & Htrue). simpl in *.
    split; [set_solver|]. split; [set_solver|]. split; [|split; [done|]].
    + intros Hsub. apply HSV. set_solver.
    + intros _. by apply Htrue.
  - (* all dependencies returned false *)
    intros v st st' Hstack Hvisited _ (HV & HS & HSV & Hfalse & _).
    destruct (Hfalse eq_refl) as (HS' & HC & _). simpl in *.
    split; [set_solver|]. split; [set_solver|]. split; [|split; [|done]].
    + intros Hsub. assert (recursionStack st' ⊆ visited st') by set_solver.
      set_solver.
    + intros _. split; [set_solver|]. split; [done|]. set_solver.
  - (* the empty loop *)
    intros st. split; [done|]. split; [done|]. split; [done|].
    split; [|done]. intros _. split; [done|]. split; [done|].
    intros d Hd. by apply elem_of_nil in Hd.
  - (* the loop returns early *)
    intros d ds st st' _ (HV & HS & HSV & _ & Htrue).
    split; [done|]. split; [done|]. split; [done|]. split; [done|].
    exact Htrue.
  - (* the loop goes on *)
    intros d ds st st1 r st' _ (HV1 & HS1 & HSV1 & Hfalse1 & _)
           _ (HV & HS & HSV & Hfalse & Htrue).
    destruct (Hfalse1 eq_refl) as (HS1' & HC1 & Hd & Hd').
    split; [set_solver|]. split; [set_solver|]. split; [|split].
    + intros Hsub. by apply HSV, HSV1.
    + intros Hr. destruct (Hfalse Hr) as (HS' & HC & Hds).
      split; [congruence|]. split; [congruence|].
      intros d' Hd''. apply elem_of_cons in Hd'' as [-> | Hin].
      * split; [set_solver | done].
      * rewrite <- HS1'. by apply Hds.
    + intros Hr. destruct (Htrue Hr) as (x & Hx & Hx'). exists x.
      by rewrite <- HC1.
Qed.

Lemma call_effect_of (v : string) (st : DfsState) (r : bool) (st' : DfsState) :
  call G v st r st' -> call_effect v st r st'.
Proof. apply call_loop_effect. Qed.

Lemma loop_effect_of (ds : list string) (st : DfsState) (r : bool)
    (st' : DfsState) :
  loop G ds st r st' -> loop_effect ds st r st'.
Proof. apply call_loop_effect. Qed.

(** The visited ids stay within a closed set the run starts in. *)
Lemma call_loop_universe (U : gset string) :
  closed G U ->
  (forall v st r st', call G v st r st' ->
     v ∈ U -> visited st ⊆ U -> visited st' ⊆ U)
  /\ (forall ds st r st', loop G ds st r st' ->
     (forall d, d ∈ ds -> d ∈ U) -> visited st ⊆ U -> visited st' ⊆ U).
Proof.
  intros Hclosed. apply call_loop_ind.
  - intros v st _ _ HU. exact HU.
  - intros v st _ _ _ HU. exact HU.
  - intros v st st' _ _ _ IH Hv HU. apply IH.
    + intros d Hd. by apply (Hclosed v).
    + simpl. set_solver.
  - intros v st st' _ _ _ IH Hv HU. simpl. apply IH.
    + intros d Hd. by apply (Hclosed v).
    + simpl. set_solver.
  - intros st _ HU. exact HU.
  - intros d ds st st' _ IH Hds HU. apply IH; [|done]. apply Hds. left.
  - intros d ds st st1 r st' _ IH1 _ IH Hds HU. apply IH.
    + intros d' Hd'. apply Hds. by right.
    + apply IH1; [|done]. apply Hds. left.
Qed.

(** A run that returns [false] adds only well-founded ids to the finished
    ones: when a call returns [false], all the dependencies of its id are
    finished already. *)
Lemma call_loop_finished :
  (forall v st r st', call G v st r st' ->
     r = false -> finished G st -> finished G st')
  /\ (forall ds st r st', loop G ds st r st' ->
     r = false -> finished G st -> finished G st').
Proof.
  apply call_loop_ind.
  - intros v st _ Hr. discriminate Hr.
  - intros v st _ _ _ Hfin. exact Hfin.
  - intros v st st' _ _ _ _ Hr. discriminate Hr.
  - (* all dependencies returned false *)
    intros v st st' Hstack Hvisited Hloop IH _ Hfin.
    assert (Hfin' : finished G st').
    { apply IH; [done|]. intros w Hw Hw'. simpl in *. apply Hfin; set_solver. }
    destruct (loop_effect_of _ _ _ _ Hloop) as (_ & _ & _ & Hfalse & _).
    destruct (Hfalse eq_refl) as (HS & _ & Hdeps). simpl in HS.
    intros w Hw Hw'. simpl in *.
    destruct (decide (w = v)) as [-> | Hne].
    + constructor. intros d Hd. destruct (Hdeps d Hd) as [HdV HdS].
      apply Hfin'; [done|]. by rewrite HS.
    + apply Hfin'; [done|]. set_solver.
  - intros st _ Hfin. exact Hfin.
  - intros d ds st st' _ _ Hr. discriminate Hr.
  - (* the loop goes on *)
    intros d ds st st1 r st' _ IH1 _ IH Hr Hfin.
    apply IH; [exact Hr|]. apply IH1; [reflexivity | exact Hfin].
Qed.

(** An id on a cycle is not well founded. *)
Lemma on_cycle_not_Acc (v : string) :
  Acc (depended_on G) v -> ~ tc (edge G) v v.
Proof.
  induction 1 as [v _ IH]. intros Hcycle.
  inversion Hcycle as [? ? Hedge | ? d ? Hedge Hrest]; subst.
  - by apply (IH v Hedge).
  - apply (IH d Hedge). eapply tc_r; eassumption.
Qed.

(** In a graph without cycle no run returns [true], provided every id on the
    stack reaches the id the run is asked about. *)
Lemma call_loop_sound :
  acyclic G ->
  (forall v st r st', call G v st r st' ->
     (forall u, u ∈ recursionStack st -> tc (edge G) u v) -> r = false)
  /\ (forall ds st r st', loop G ds st r st' ->
     forall cur, (forall d, d ∈ ds -> edge G cur d) ->
       (forall u, u ∈ recursionStack st -> u = cur \/ tc (edge G) u cur) ->
       r = false).
Proof.
  intros Hacyclic. apply call_loop_ind.
  - (* on the stack: the id would reach itself *)
    intros v st Hstack Hreach. destruct (Hacyclic v). by apply Hreach.
  - reflexivity.
  - (* a dependency returned true *)
    intros v st st' _ _ _ IH Hreach. apply (IH v); [done|].
    intros u Hu. simpl in Hu. apply elem_of_union in Hu as [Hu | Hu].
    + left. set_solver.
    + right. by apply Hreach.
  - reflexivity.
  - reflexivity.
  - (* the loop returns early *)
    intros d ds st st' _ IH cur Hedges Hreach. apply IH.
    intros u Hu. destruct (Hreach u Hu) as [-> | Htc].
    + apply tc_once, Hedges. left.
    + eapply tc_r; [exact Htc|]. apply Hedges. left.
  - (* the loop goes on *)
    intros d ds st st1 r st' Hcall _ _ IH cur Hedges Hreach.
    destruct (call_effect_of _ _ _ _ Hcall) as (_ & _ & _ & Hfalse & _).
    destruct (Hfalse eq_refl) as (HS & _). apply (IH cur).
    + intros d' Hd'. apply Hedges. by right.
    + intros u Hu. apply Hreach. by rewrite <- HS.
Qed.

(** The fuel is enough when it exceeds the number of ids not yet visited of
    a closed set the run starts in: [hasCycle] returns. *)
Lemma hasCycle_total (U : gset string) (fuel : nat) :
  closed G U ->
  forall v st, v ∈ U -> visited st ⊆ U ->
    (size (U ∖ visited st) < fuel)%nat ->
    is_Some (hasCycle fuel G v st).
Proof.
  intros Hclosed. induction fuel as [|fuel IH]; intros v st Hv HU Hsize;
    [lia|].
  simpl. destruct (decide (v ∈ recursionStack st)); [eauto|].
  destruct (decide (v ∈ visited st)) as [|Hfresh]; [eauto|].
  assert (Hloop : forall ds st1,
            (forall d, d ∈ ds -> d ∈ U) -> visited st1 ⊆ U ->
            (size (U ∖ visited st1) < fuel)%nat ->
            is_Some (for_of (hasCycle fuel G) ds st1)).
  { induction ds as [|d ds IHds]; intros st1 Hds HU1 Hsize1; simpl; [eauto|].
    destruct (IH d st1) as [[r st2] Hd]; [apply Hds; left | done | done |].
    rewrite Hd. destruct r; [eauto|].
    apply hasCycle_call in Hd.
    destruct (call_effect_of _ _ _ _ Hd) as (HV & _).
    apply IHds.
    - intros d' Hd'. apply Hds. by right.
    - apply (proj1 (call_loop_universe U Hclosed) _ _ _ _ Hd); [|done].
      apply Hds. left.
    - eapply Nat.le_lt_trans; [|exact Hsize1].
      apply subseteq_size. set_solver. }
  destruct (Hloop (successors G v) (dfs_enter v st)) as [[r st2] Hrun].
  - intros d Hd. by apply (Hclosed v).
  - simpl. set_solver.
  - simpl.
    assert (size (U ∖ ({[v]} ∪ visited st)) < size (U ∖ visited st))%nat
      by (apply subset_size; set_solver).
    lia.
  - rewrite Hrun. destruct r; eauto.
Qed.

End Runs.

Section Graph.

(** The ids of a field's set of dependencies are those its rules name. *)
Lemma set_add_elem (deps : list string) (x y : string) :
  y ∈ set_add deps x <-> y ∈ deps \/ y = x.
Proof.
  unfold set_add. destruct (decide (x ∈ deps)) as [Hin|Hnot].
  - split; [by left | intros [? | ->]; done].
  - rewrite elem_of_app, list_elem_of_singleton. done.
Qed.

Lemma foldl_set_add_elem (rules : list ConditionalRule) (deps : list string)
    (y : string) :
  y ∈ foldl (fun deps rule => set_add deps (rule_field rule)) deps rules
  <-> y ∈ deps \/ exists r, r ∈ rules /\ rule_field r = y.
Proof.
  revert deps. induction rules as [|r rules IH]; intros deps; simpl.
  - split; [by left | intros [? | (r & Hr & _)]; [done|]].
    by apply elem_of_nil in Hr.
  - rewrite IH, set_add_elem. split.
    + intros [[Hy | ->] | (r' & Hr' & Heq)].
      * by left.
      * right. exists r. split; [left | done].
      * right. exists r'. split; [by right | done].
    + intros [Hy | (r' & Hr' & Heq)]; [by left; left|].
      apply elem_of_cons in Hr' as [-> | Hr'].
      * left; right. done.
      * right. by exists r'.
Qed.

Lemma field_deps_elem (f : FieldSchema) (y : string) :
  y ∈ field_deps f
  <-> exists c r, field_conditions f = Some c /\ r ∈ cond_rules c
                  /\ rule_field r = y.
Proof.
  unfold field_deps. destruct (field_conditions f) as [c|].
  - rewrite foldl_set_add_elem. split.
    + intros [Hnil | (r & Hr & Heq)]; [by apply elem_of_nil in Hnil|].
      by exists c, r.
    + intros (c' & r & [= <-] & Hr & Heq). right. by exists r.
  - split; [intros Hnil; by apply elem_of_nil in Hnil|].
    by intros (c & r & [=] & _).
Qed.

Lemma field_deps_sole_rule (f : FieldSchema) (target : string) :
  sole_rule f target -> field_deps f = [target].
Proof.
  intros (c & r & Hc & Hrules & Htarget). unfold field_deps.
  rewrite Hc, Hrules. simpl. by rewrite Htarget.
Qed.

Lemma field_deps_no_rule (f : FieldSchema) : no_rule f -> field_deps f = [].
Proof.
  intros Hnone. unfold field_deps.
  destruct (field_conditions f) as [c|] eqn:Hc; [|done].
  by rewrite (Hnone c).
Qed.

(** The map after the first [forEach]: a later field with the same id
    replaces an earlier one. *)
Lemma build_dependencies_snoc (fields : list FieldSchema) (f : FieldSchema) :
  build_dependencies (fields ++ [f])
  = <[field_id f := field_deps f]> (build_dependencies fields).
Proof. unfold build_dependencies. by rewrite foldl_snoc. Qed.

Lemma build_dependencies_lookup (fields : list FieldSchema) (k : string)
    (ds : list string) :
  build_dependencies fields !! k = Some ds ->
  exists f, f ∈ fields /\ field_id f = k /\ field_deps f = ds.
Proof.
  induction fields as [|f fields IH] using rev_ind.
  - unfold build_dependencies. simpl. by rewrite lookup_empty.
  - rewrite build_dependencies_snoc.
    destruct (decide (field_id f = k)) as [<- | Hne].
    + rewrite lookup_insert_eq. intros [= <-]. exists f.
      split; [|done]. apply elem_of_app. right. left.
    + rewrite lookup_insert_ne by done. intros Hk.
      destruct (IH Hk) as (g & Hg & Hrest). exists g.
      split; [|done]. apply elem_of_app. by left.
Qed.

Lemma build_dependencies_unique (fields : list FieldSchema) (f : FieldSchema) :
  NoDup (field_id <$> fields) -> f ∈ fields ->
  build_dependencies fields !! field_id f = Some (field_deps f).
Proof.
  induction fields as [|g fields IH] using rev_ind; intros Hnodup Hf.
  - by apply elem_of_nil in Hf.
  - rewrite build_dependencies_snoc.
    rewrite fmap_app in Hnodup. apply NoDup_app in Hnodup as (Hfields & Hg & _).
    apply elem_of_app in Hf as [Hf | Hf].
    + rewrite lookup_insert_ne; [by apply IH|].
      intros Heq. apply (Hg (field_id f)).
      * by apply list_elem_of_fmap_2.
      * rewrite <- Heq. simpl. left.
    + apply list_elem_of_singleton in Hf as ->. by rewrite lookup_insert_eq.
Qed.

(** An edge of the graph comes from a rule of a field. *)
Lemma edge_rule (fields : list FieldSchema) (v d : string) :
  edge (build_dependencies fields) v d ->
  exists f, f ∈ fields /\ field_id f = v /\ d ∈ field_deps f.
Proof.
  unfold edge, successors.
  destruct (build_dependencies fields !! v) as [ds|] eqn:Hv; simpl.
  - intros Hd. destruct (build_dependencies_lookup _ _ _ Hv) as (f & Hf & Hid & <-).
    by exists f.
  - intros Hd. by apply elem_of_nil in Hd.
Qed.

(** With unique ids every rule of a field is an edge of the graph. *)
Lemma rule_edge (fields : list FieldSchema) (f : FieldSchema) (d : string) :
  NoDup (field_id <$> fields) -> f ∈ fields -> d ∈ field_deps f ->
  edge (build_dependencies fields) (field_id f) d.
Proof.
  intros Hnodup Hf Hd. unfold edge, successors.
  by rewrite (build_dependencies_unique fields f Hnodup Hf).
Qed.

(** The universe of a form is closed and smaller than the recursion
    bound. *)
Lemma universe_closed (fields : list FieldSchema) :
  closed (build_dependencies fields) (universe fields).
Proof.
  intros v d _ Hedge. destruct (edge_rule _ _ _ Hedge) as (f & Hf & _ & Hd).
  unfold universe. apply elem_of_union. right.
  apply elem_of_list_to_set, list_elem_of_bind. by exists f.
Qed.

Lemma size_list_to_set_le (l : list string) :
  (size (list_to_set l : gset string) <= length l)%nat.
Proof.
  induction l as [|x l IH].
  - rewrite list_to_set_nil, size_empty. simpl. lia.
  - rewrite list_to_set_cons, size_union_alt, size_singleton. simpl.
    assert (size (list_to_set l ∖ {[x]} : gset string)
            <= size (list_to_set l : gset string))%nat
      by (apply subseteq_size; set_solver).
    lia.
Qed.

Lemma length_bind_field_deps (fields : list FieldSchema) :
  length (fields ≫= field_deps)
  = sum_list (map (fun f => length (field_deps f)) fields).
Proof.
  induction fields as [|f fields IH]; [done|].
  rewrite bind_cons, length_app, IH. reflexivity.
Qed.

Lemma size_universe (fields : list FieldSchema) :
  (size (universe fields) < recursion_bound fields)%nat.
Proof.
  unfold universe, recursion_bound.
  rewrite size_union_alt.
  pose proof (size_list_to_set_le (field_id <$> fields)) as Hids.
  pose proof (size_list_to_set_le (fields ≫= field_deps)) as Hdeps.
  rewrite length_fmap in Hids. rewrite length_bind_field_deps in Hdeps.
  assert (size (list_to_set (fields ≫= field_deps)
                ∖ list_to_set (field_id <$> fields) : gset string)
          <= size (list_to_set (fields ≫= field_deps) : gset string))%nat
    by (apply subseteq_size; set_solver).
  lia.
Qed.

(** The second [forEach] returns, and its effect is the sum of those of its
    calls. *)
Lemma sweep_runs (G : gmap string (list string)) (U : gset string)
    (fuel : nat) (fields : list FieldSchema) :
  closed G U -> (size U < fuel)%nat ->
  forall st, (forall f, f ∈ fields -> field_id f ∈ U) ->
    visited st ⊆ U -> recursionStack st ⊆ visited st ->
    exists st', foldl (visit_field fuel G) (Some st) fields = Some st'
                /\ sweep_effect G U fields st st'.
Proof.
  intros Hclosed Hfuel.
  induction fields as [|f fields IH]; intros st Hids HU HSV.
  - exists st. split; [done|]. unfold sweep_effect.
    split; [done|]. split; [done|]. split; [done|]. split; [done|].
    split; [by left|]. split; [|done]. intros _. split; [done|].
    split; [|done]. intros f Hf. by apply elem_of_nil in Hf.
  - assert (Hrest : forall g, g ∈ fields -> field_id g ∈ U)
      by (intros g Hg; apply Hids; by right).
    simpl. destruct (decide (field_id f ∈ visited st)) as [Hseen|Hfresh].
    + destruct (IH st Hrest HU HSV)
        as (st' & Hrun & HV & HU' & HSV' & Hlen & Hin & Hclean & Hsound).
      exists st'. split; [done|]. unfold sweep_effect.
      split; [done|]. split; [done|]. split; [done|]. split; [done|].
      split; [done|]. split; [|done].
      intros Heq. destruct (Hclean Heq) as (HS & Hall & Hfin).
      split; [done|]. split; [|done].
      intros g Hg. apply elem_of_cons in Hg as [-> | Hg]; [set_solver|].
      by apply Hall.
    + destruct (hasCycle_total G U fuel Hclosed (field_id f) st)
        as [[r st1] Hcall]; [apply Hids; left | done | |].
      { eapply Nat.le_lt_trans; [|exact Hfuel]. apply subseteq_size.
        set_solver. }
      rewrite Hcall. simpl. apply hasCycle_call in Hcall.
      destruct (call_effect_of G _ _ _ _ Hcall)
        as (HV1 & HS1 & HSV1 & Hfalse1 & Htrue1).
      assert (HU1 : visited st1 ⊆ U).
      { apply (proj1 (call_loop_universe G U Hclosed) _ _ _ _ Hcall);
          [apply Hids; left | done]. }
      destruct (IH st1 Hrest HU1 (HSV1 HSV))
        as (st' & Hrun & HV & HU' & HSV' & Hlen & Hin & Hclean & Hsound).
      exists st'. split; [done|]. unfold sweep_effect.
      assert (Hlen1 : (length (cycles st) <= length (cycles st1))%nat
                      /\ (length (cycles st1) = length (cycles st) ->
                          r = false)).
      { destruct r.
        - destruct (Htrue1 eq_refl) as (x & -> & _).
          rewrite length_app. simpl. lia.
        - destruct (Hfalse1 eq_refl) as (_ & -> & _). done. }
      destruct Hlen1 as [Hlen1 Hr].
      split; [set_solver|]. split; [done|]. split; [done|].
      split; [lia|]. split; [|split].
      * intros x Hx. destruct (Hin x Hx) as [Hx1 | HxU]; [|by right].
        destruct r.
        -- destruct (Htrue1 eq_refl) as (x0 & Hcycles & Hx0).
           rewrite Hcycles in Hx1. apply elem_of_app in Hx1 as [Hx1 | Hx1].
           ++ by left.
           ++ apply list_elem_of_singleton in Hx1 as ->. right.
              apply HU1, (HSV1 HSV), Hx0.
        -- destruct (Hfalse1 eq_refl) as (_ & Hcycles & _).
           left. by rewrite <- Hcycles.
      * intros Heq.
        assert (Hr' : r = false) by (apply Hr; lia). subst r.
        destruct (Hfalse1 eq_refl) as (HS & HC & Hf & _).
        destruct Hclean as (HS' & Hall & Hfin); [rewrite HC; lia|].
        split; [congruence|]. split.
        -- intros g Hg. apply elem_of_cons in Hg as [-> | Hg];
             [set_solver | by apply Hall].
        -- intros Hfin0. apply Hfin.
           by apply (proj1 (call_loop_finished G) _ _ _ _ Hcall).
      * intros Hacyclic Hempty.
        assert (Hr' : r = false).
        { apply (proj1 (call_loop_sound G Hacyclic) _ _ _ _ Hcall).
          intros u Hu. rewrite Hempty in Hu. set_solver. }
        subst r. destruct (Hfalse1 eq_refl) as (HS & HC & _).
        destruct (Hsound Hacyclic) as (HC' & HS'); [congruence|].
        split; [congruence | done].
Qed.

(** The detection over a whole form. *)
Lemma detect_sweep (fields : list FieldSchema) :
  exists st',
    foldl (visit_field (recursion_bound fields) (build_dependencies fields))
          (Some dfs_init) fields = Some st'
    /\ sweep_effect (build_dependencies fields) (universe fields) fields
                    dfs_init st'.
Proof.
  apply sweep_runs.
  - apply universe_closed.
  - apply size_universe.
  - intros f Hf. unfold universe. apply elem_of_union. left.
    by apply elem_of_list_to_set, list_elem_of_fmap_2.
  - simpl. set_solver.
  - simpl. set_solver.
Qed.

(** [detectCircularDependencies] returns for every form: the recursion bound
    is never reached. *)
Lemma detectCircularDependencies_returns (fields : list FieldSchema) :
  is_Some (detectCircularDependencies fields).
Proof.
  destruct (detect_sweep fields) as (st' & Hrun & _).
  unfold detectCircularDependencies. rewrite Hrun. simpl. eauto.
Qed.

(** Soundness: when the dependency graph has no cycle, nothing is
    reported. *)
Lemma detectCircularDependencies_sound (fields : list FieldSchema) :
  acyclic (build_dependencies fields) ->
  detectCircularDependencies fields = Some [].
Proof.
  intros Hacyclic.
  destruct (detect_sweep fields) as (st' & Hrun & Heffect).
  destruct Heffect as (_ & _ & _ & _ & _ & _ & Hsound).
  destruct (Hsound Hacyclic eq_refl) as [Hcycles _].
  unfold detectCircularDependencies. rewrite Hrun. simpl. by rewrite Hcycles.
Qed.

(** Completeness: when the id of a field lies on a cycle of the dependency
    graph, something is reported; and whatever is reported is an id of the
    form. *)
Lemma detectCircularDependencies_complete (fields : list FieldSchema)
    (f : FieldSchema) :
  f ∈ fields ->
  tc (edge (build_dependencies fields)) (field_id f) (field_id f) ->
  exists found, detectCircularDependencies fields = Some found
                /\ found <> [] /\ forall x, x ∈ found -> x ∈ universe fields.
Proof.
  intros Hf Hcycle.
  destruct (detect_sweep fields) as (st' & Hrun & Heffect).
  destruct Heffect as (_ & _ & _ & _ & Hin & Hclean & _).
  exists (cycles st'). unfold detectCircularDependencies. rewrite Hrun.
  split; [done|]. split.
  - intros Hnil. destruct Hclean as (HS & Hall & Hfin); [by rewrite Hnil|].
    apply (on_cycle_not_Acc (build_dependencies fields) (field_id f));
      [|done].
    apply Hfin.
    + intros v Hv. simpl in Hv. set_solver.
    + by apply Hall.
    + rewrite HS. simpl. set_solver.
  - intros x Hx. destruct (Hin x Hx) as [Hnil | HU]; [|done].
    simpl in Hnil. by apply elem_of_nil in Hnil.
Qed.

End Graph.

(** *** The four cases of the specification *)

Lemma no_rule_acyclic (fields : list FieldSchema) :
  (forall f, f ∈ fields -> no_rule f) ->
  acyclic (build_dependencies fields).
Proof.
  intros Hnone v Hcycle.
  assert (Hedge : exists d, edge (build_dependencies fields) v d)
    by (inversion Hcycle; eauto).
  destruct Hedge as (d & Hedge).
  destruct (edge_rule _ _ _ Hedge) as (f & Hf & _ & Hd).
  rewrite (field_deps_no_rule f (Hnone f Hf)) in Hd.
  by apply elem_of_nil in Hd.
Qed.

Lemma three_fields (fields : list FieldSchema) (fa fb fc f : FieldSchema) :
  fields ≡ₚ [fa; fb; fc] -> f ∈ fields -> f = fa \/ f = fb \/ f = fc.
Proof.
  intros Hperm Hf. rewrite Hperm in Hf.
  apply list_elem_of_In in Hf. simpl in Hf. naive_solver.
Qed.

Lemma three_fields_NoDup (fields : list FieldSchema) (fa fb fc : FieldSchema) :
  fields ≡ₚ [fa; fb; fc] ->
  field_id fa <> field_id fb -> field_id fb <> field_id fc ->
  field_id fa <> field_id fc ->
  NoDup (field_id <$> fields).
Proof.
  intros Hperm Hab Hbc Hac. rewrite Hperm. simpl.
  repeat (apply NoDup_cons; split); try apply NoDup_nil_2;
    rewrite ?elem_of_cons, ?elem_of_nil; naive_solver.
Qed.

(** The ring A -> B -> C -> A has a cycle through the id of A. *)
Lemma ring_cycle (fields : list FieldSchema) (fa fb fc : FieldSchema) :
  fields ≡ₚ [fa; fb; fc] ->
  field_id fa <> field_id fb -> field_id fb <> field_id fc ->
  field_id fa <> field_id fc ->
  sole_rule fa (field_id fb) -> sole_rule fb (field_id fc) ->
  sole_rule fc (field_id fa) ->
  tc (edge (build_dependencies fields)) (field_id fa) (field_id fa).
Proof.
  intros Hperm Hab Hbc Hac Ha Hb Hc.
  pose proof (three_fields_NoDup _ _ _ _ Hperm Hab Hbc Hac) as Hnodup.
  assert (Hin : forall f, f ∈ [fa; fb; fc] -> f ∈ fields)
    by (intros f Hf; by rewrite Hperm).
  assert (Hedge : forall f g, f ∈ [fa; fb; fc] -> sole_rule f (field_id g) ->
            edge (build_dependencies fields) (field_id f) (field_id g)).
  { intros f g Hf Hrule. apply rule_edge; [done | by apply Hin |].
    rewrite (field_deps_sole_rule _ _ Hrule). left. }
  eapply tc_l; [apply (Hedge fa fb); [set_solver | done]|].
  eapply tc_l; [apply (Hedge fb fc); [set_solver | done]|].
  apply tc_once, (Hedge fc fa); [set_solver | done].
Qed.

(** The chain A -> B -> C has no cycle: every id is well founded. *)
Lemma chain_acyclic (fields : list FieldSchema) (fa fb fc : FieldSchema) :
  fields ≡ₚ [fa; fb; fc] ->
  field_id fa <> field_id fb -> field_id fb <> field_id fc ->
  field_id fa <> field_id fc ->
  sole_rule fa (field_id fb) -> sole_rule fb (field_id fc) -> no_rule fc ->
  acyclic (build_dependencies fields).
Proof.
  intros Hperm Hab Hbc Hac Ha Hb Hc.
  set (G := build_dependencies fields).
  assert (Hedges : forall v d, edge G v d ->
            (v = field_id fa /\ d = field_id fb)
            \/ (v = field_id fb /\ d = field_id fc)).
  { intros v d Hedge. destruct (edge_rule _ _ _ Hedge) as (f & Hf & <- & Hd).
    destruct (three_fields _ _ _ _ _ Hperm Hf) as [-> | [-> | ->]].
    - rewrite (field_deps_sole_rule _ _ Ha) in Hd.
      apply list_elem_of_singleton in Hd. by left.
    - rewrite (field_deps_sole_rule _ _ Hb) in Hd.
      apply list_elem_of_singleton in Hd. by right.
    - rewrite (field_deps_no_rule _ Hc) in Hd. by apply elem_of_nil in Hd. }
  assert (HaccC : Acc (depended_on G) (field_id fc)).
  { constructor. intros d Hd. destruct (Hedges _ _ Hd) as [[? _] | [? _]];
      congruence. }
  assert (HaccB : Acc (depended_on G) (field_id fb)).
  { constructor. intros d Hd. destruct (Hedges _ _ Hd) as [[? _] | [_ ->]];
      [congruence | done]. }
  intros v. apply on_cycle_not_Acc. constructor. intros d Hd.
  destruct (Hedges _ _ Hd) as [[_ ->] | [_ ->]]; done.
Qed.

(** *** A field whose first rule refers to the field itself *)

Lemma foldl_set_add_head (rules : list ConditionalRule) (x : string)
    (l : list string) :
  exists l', foldl (fun deps rule => set_add deps (rule_field rule))
                   (x :: l) rules = x :: l'.
Proof.
  revert l. induction rules as [|r rules IH]; intros l; simpl.
  - by exists l.
  - unfold set_add at 2.
    destruct (decide (rule_field r ∈ x :: l)); [apply IH|].
    rewrite <- app_comm_cons. apply IH.
Qed.

Lemma field_deps_first (f : FieldSchema) (c : FieldConditions)
    (r : ConditionalRule) :
  field_conditions f = Some c -> head (cond_rules c) = Some r ->
  exists rest, field_deps f = rule_field r :: rest.
Proof.
  intros Hc Hhead. unfold field_deps. rewrite Hc.
  destruct (cond_rules c) as [|r' rules]; [done|].
  injection Hhead as ->. simpl. apply foldl_set_add_head.
Qed.

Section SelfReference.

Variable G : gmap string (list string).

Lemma foldl_visit_field_None (fuel : nat) (fields : list FieldSchema) :
  foldl (visit_field fuel G) None fields = None.
Proof. by induction fields. Qed.

(** What is on record stays on record. *)
Lemma call_cycles_grow (v : string) (st : DfsState) (r : bool)
    (st' : DfsState) (x : string) :
  call G v st r st' -> x ∈ cycles st -> x ∈ cycles st'.
Proof.
  intros Hcall Hx.
  destruct (call_effect_of G _ _ _ _ Hcall) as (_ & _ & _ & Hfalse & Htrue).
  destruct r.
  - destruct (Htrue eq_refl) as (y & -> & _). apply elem_of_app. by left.
  - destruct (Hfalse eq_refl) as (_ & -> & _). done.
Qed.

Lemma loop_cycles_grow (ds : list string) (st : DfsState) (r : bool)
    (st' : DfsState) (x : string) :
  loop G ds st r st' -> x ∈ cycles st -> x ∈ cycles st'.
Proof.
  intros Hloop Hx.
  destruct (loop_effect_of G _ _ _ _ Hloop) as (_ & _ & _ & Hfalse & Htrue).
  destruct r.
  - destruct (Htrue eq_refl) as (y & -> & _). apply elem_of_app. by left.
  - destruct (Hfalse eq_refl) as (_ & -> & _). done.
Qed.

(** A call on an id visits it. *)
Lemma call_visits (v : string) (st : DfsState) (r : bool) (st' : DfsState) :
  call G v st r st' -> recursionStack st ⊆ visited st -> v ∈ visited st'.
Proof.
  intros Hcall HSV. inversion Hcall as
    [v0 st0 Hstack | v0 st0 Hstack Hseen
     | v0 st0 st1 Hstack Hfresh Hloop | v0 st0 st1 Hstack Hfresh Hloop];
    subst; simpl.
  - set_solver.
  - done.
  - destruct (loop_effect_of G _ _ _ _ Hloop) as (HV & _). simpl in HV.
    set_solver.
  - destruct (loop_effect_of G _ _ _ _ Hloop) as (HV & _). simpl in HV.
    set_solver.
Qed.

(** The loop over the dependencies of [a], entered for [a], records [a] at
    its first turn when the first dependency is [a] itself. *)
Lemma loop_self_first (a : string) (rest : list string) (st : DfsState)
    (r : bool) (st' : DfsState) :
  loop G (a :: rest) (dfs_enter a st) r st' -> r = true /\ a ∈ cycles st'.
Proof.
  assert (Hstack : a ∈ recursionStack (dfs_enter a st))
    by (simpl; set_solver).
  intros Hloop. inversion Hloop as
    [| d ds s1 s2 Hcall | d ds s1 s2 r0 s3 Hcall Hrest]; subst.
  - split; [done|]. inversion Hcall; subst; try done.
    simpl. apply elem_of_app. right. left.
  - inversion Hcall; subst; done.
Qed.

(** An id whose first dependency is the id itself is on record as soon as it
    is visited. *)
Lemma call_loop_self_first :
  (forall v st r st', call G v st r st' ->
     forall a, self_first G a -> a ∉ visited st -> a ∈ visited st' ->
       a ∈ cycles st')
  /\ (forall ds st r st', loop G ds st r st' ->
     forall a, self_first G a -> a ∉ visited st -> a ∈ visited st' ->
       a ∈ cycles st').
Proof.
  apply call_loop_ind.
  - intros v st _ a _ Hfresh Hseen. done.
  - intros v st _ _ a _ Hfresh Hseen. done.
  - intros v st st' _ _ Hloop IH a Ha Hfresh Hseen.
    destruct (decide (a = v)) as [-> | Hne].
    + destruct Ha as [rest Hrest]. rewrite Hrest in Hloop.
      by apply loop_self_first in Hloop as [_ ?].
    + apply IH; [done | simpl; set_solver | done].
  - intros v st st' _ _ Hloop IH a Ha Hfresh Hseen. simpl in *.
    destruct (decide (a = v)) as [-> | Hne].
    + destruct Ha as [rest Hrest]. rewrite Hrest in Hloop.
      by apply loop_self_first in Hloop as [? _].
    + apply IH; [done | simpl; set_solver | done].
  - intros st a _ Hfresh Hseen. done.
  - intros d ds st st' _ IH a. apply IH.
  - intros d ds st st1 r st' _ IHcall Hloop IHloop a Ha Hfresh Hseen.
    destruct (decide (a ∈ visited st1)) as [Hmid | Hmid].
    + apply (loop_cycles_grow _ _ _ _ _ Hloop). by apply IHcall.
    + by apply IHloop.
Qed.

(** After the second [forEach] every field is visited, and every id whose
    first dependency is the id itself is on record. *)
Lemma sweep_self_first (fuel : nat) (fields : list FieldSchema) :
  forall st st',
    foldl (visit_field fuel G) (Some st) fields = Some st' ->
    recursionStack st ⊆ visited st ->
    (forall a, self_first G a -> a ∈ visited st -> a ∈ cycles st) ->
    (forall f, f ∈ fields -> field_id f ∈ visited st')
    /\ visited st ⊆ visited st'
    /\ (forall a, self_first G a -> a ∈ visited st' -> a ∈ cycles st').
Proof.
  induction fields as [|f fields IH]; intros st st'; simpl.
  - intros [= <-] _ Hinv. split; [|done].
    intros f Hf. by apply elem_of_nil in Hf.
  - destruct (decide (field_id f ∈ visited st)) as [Hseen|Hfresh].
    + intros Hrun HSV Hinv.
      destruct (IH st st' Hrun HSV Hinv) as (Hall & HV & Hinv').
      split; [|done]. intros g Hg.
      apply elem_of_cons in Hg as [-> | Hg]; [set_solver | by apply Hall].
    + destruct (hasCycle fuel G (field_id f) st) as [[r st1]|] eqn:Hcall;
        simpl; [|by rewrite foldl_visit_field_None].
      intros Hrun HSV Hinv. apply hasCycle_call in Hcall.
      destruct (call_effect_of G _ _ _ _ Hcall) as (HV1 & _ & HSV1 & _).
      pose proof (call_visits _ _ _ _ Hcall HSV) as Hf1.
      destruct (IH st1 st' Hrun (HSV1 HSV)) as (Hall & HV & Hinv').
      { intros a Ha Hseen. destruct (decide (a ∈ visited st)) as [Hold|Hnew].
        - apply (call_cycles_grow _ _ _ _ _ Hcall). by apply Hinv.
        - by apply (proj1 call_loop_self_first _ _ _ _ Hcall). }
      split; [|split; [set_solver | done]]. intros g Hg.
      apply elem_of_cons in Hg as [-> | Hg]; [set_solver | by apply Hall].
Qed.

End SelfReference.

(** With unique ids, the id of a field whose first rule refers to the field
    itself is reported. *)
Lemma detectCircularDependencies_self_first (fields : list FieldSchema)
    (f : FieldSchema) (c : FieldConditions) (r : ConditionalRule)
    (found : list string) :
  NoDup (field_id <$> fields) -> f ∈ fields ->
  field_conditions f = Some c -> head (cond_rules c) = Some r ->
  rule_field r = field_id f ->
  detectCircularDependencies fields = Some found ->
  field_id f ∈ found.
Proof.
  intros Hnodup Hf Hc Hhead Hself.
  destruct (detect_sweep fields) as (st' & Hrun & _).
  unfold detectCircularDependencies. rewrite Hrun. simpl. intros [= <-].
  destruct (sweep_self_first _ _ _ _ _ Hrun) as (Hall & _ & Hinv).
  - simpl. set_solver.
  - intros a _ Ha. simpl in Ha. set_solver.
  - apply Hinv; [|by apply Hall].
    destruct (field_deps_first f c r Hc Hhead) as [rest Hrest].
    exists rest. unfold successors.
    rewrite (build_dependencies_unique fields f Hnodup Hf). simpl.
    by rewrite Hrest, Hself.
Qed.

(** C5. [detectCircularDependencies] returns for every form, and
    - returns the empty list when no field has a rule;
    - when the ids of the form are unique and a field has a rule that refers
      to its own id, returns a list that is not empty, which holds the id of
      this field when the rule is the first rule of the field;
    - for three fields A -> B -> C -> A, each with the one rule that refers
      to the next, in any order in the form, returns a list that is not empty
      and holds only ids among those of A, B and C;
    - for three fields A -> B, B -> C, with no rule on C, in any order in the
      form, returns the empty list. *)
Theorem detectCircularDependencies_cases :
  (forall fields, (forall f, f ∈ fields -> no_rule f) ->
     detectCircularDependencies fields = Some [])
  /\ (forall fields f c r,
        NoDup (field_id <$> fields) -> f ∈ fields ->
        field_conditions f = Some c -> r ∈ cond_rules c ->
        rule_field r = field_id f ->
        exists found, detectCircularDependencies fields = Some found
                      /\ found <> []
                      /\ (head (cond_rules c) = Some r ->
                          field_id f ∈ found))
  /\ (forall fields fa fb fc,
        fields ≡ₚ [fa; fb; fc] ->
        field_id fa <> field_id fb -> field_id fb <> field_id fc ->
        field_id fa <> field_id fc ->
        sole_rule fa (field_id fb) -> sole_rule fb (field_id fc) ->
        sole_rule fc (field_id fa) ->
        exists found, detectCircularDependencies fields = Some found
          /\ found <> []
          /\ forall x, x ∈ found ->
               x = field_id fa \/ x = field_id fb \/ x = field_id fc)
  /\ (forall fields fa fb fc,
        fields ≡ₚ [fa; fb; fc] ->
        field_id fa <> field_id fb -> field_id fb <> field_id fc ->
        field_id fa <> field_id fc ->
        sole_rule fa (field_id fb) -> sole_rule fb (field_id fc) ->
        no_rule fc ->
        detectCircularDependencies fields = Some []).
Proof.
  split; [|split; [|split]].
  - intros fields Hnone.
    by apply detectCircularDependencies_sound, no_rule_acyclic.
  - intros fields f c r Hnodup Hf Hc Hr Hself.
    destruct (detectCircularDependencies_complete fields f Hf)
      as (found & Hfound & Hne & _).
    + apply tc_once, rule_edge; [done | done |].
      apply field_deps_elem. by exists c, r.
    + exists found. split; [done|]. split; [done|]. intros Hhead.
      by apply (detectCircularDependencies_self_first fields f c r).
  - intros fields fa fb fc Hperm Hab Hbc Hac Ha Hb Hc.
    destruct (detectCircularDependencies_complete fields fa)
      as (found & Hfound & Hne & Hwithin).
    + rewrite Hperm. left.
    + by apply (ring_cycle fields fa fb fc).
    + exists found. split; [done|]. split; [done|].
      intros x Hx. specialize (Hwithin x Hx). unfold universe in Hwithin.
      apply elem_of_union in Hwithin as [Hid | Hdep].
      * apply elem_of_list_to_set, list_elem_of_fmap in Hid as (f & -> & Hf).
        destruct (three_fields _ _ _ _ _ Hperm Hf) as [-> | [-> | ->]]; auto.
      * apply elem_of_list_to_set, list_elem_of_bind in Hdep as (f & Hd & Hf).
        destruct (three_fields _ _ _ _ _ Hperm Hf) as [-> | [-> | ->]].
        -- rewrite (field_deps_sole_rule _ _ Ha) in Hd.
           apply list_elem_of_singleton in Hd. auto.
        -- rewrite (field_deps_sole_rule _ _ Hb) in Hd.
           apply list_elem_of_singleton in Hd. auto.
        -- rewrite (field_deps_sole_rule _ _ Hc) in Hd.
           apply list_elem_of_singleton in Hd. auto.
  - intros fields fa fb fc Hperm Hab Hbc Hac Ha Hb Hc.
    by apply detectCircularDependencies_sound,
             (chain_acyclic fields fa fb fc).
Qed.

(** The ring and the chain of the sample fields, listed from C to A, and
    the field [T], whose one rule refers to [T]. *)
Lemma detectCircularDependencies_cases_witness :
  (exists found,
     detectCircularDependencies [field_S; field_T] = Some found
     /\ found <> [] /\ "T" ∈ found)
  /\ (exists found,
     detectCircularDependencies [ring_C; ring_B; ring_A] = Some found
     /\ found <> []
     /\ forall x, x ∈ found -> x = "A" \/ x = "B" \/ x = "C")
  /\ detectCircularDependencies [chain_C; ring_B; ring_A] = Some [].
Proof.
  destruct detectCircularDependencies_cases as (_ & Hself & Hring & Hchain).
  split; [|split].
  - destruct (Hself [field_S; field_T] field_T (depends_on "T")
                (mkConditionalRule "T" op_isNotEmpty VUndefined))
      as (found & Hfound & Hne & Hin).
    + repeat constructor; set_solver.
    + right. left.
    + reflexivity.
    + left.
    + reflexivity.
    + exists found. split; [done|]. split; [done|]. by apply Hin.
  - apply (Hring [ring_C; ring_B; ring_A] ring_A ring_B ring_C);
      try discriminate.
    + symmetry. exact (Permutation_rev [ring_A; ring_B; ring_C]).
    + by exists (depends_on "B"), (mkConditionalRule "B" op_isNotEmpty VUndefined).
    + by exists (depends_on "C"), (mkConditionalRule "C" op_isNotEmpty VUndefined).
    + by exists (depends_on "A"), (mkConditionalRule "A" op_isNotEmpty VUndefined).
  - apply (Hchain [chain_C; ring_B; ring_A] ring_A ring_B chain_C);
      try discriminate.
    + symmetry. exact (Permutation_rev [ring_A; ring_B; chain_C]).
    + by exists (depends_on "B"), (mkConditionalRule "B" op_isNotEmpty VUndefined).
    + by exists (depends_on "C"), (mkConditionalRule "C" op_isNotEmpty VUndefined).
Defined.

(** C5, as the claim has it, fails. The field [self_A] has a rule that
    refers to its own id, but the later field with the same id and no rule
    replaces its entry in the [dependencies] map, and nothing is
    reported. *)
Lemma detectCircularDependencies_misses_self_reference :
  self_A ∈ [self_A; plain_A]
  /\ (exists c r, field_conditions self_A = Some c /\ r ∈ cond_rules c
                  /\ rule_field r = field_id self_A)
  /\ detectCircularDependencies [self_A; plain_A] = Some [].
Proof.
  split; [left|]. split.
  - exists (depends_on "A"), (mkConditionalRule "A" op_isNotEmpty VUndefined).
    split; [reflexivity|]. split; [left | reflexivity].
  - vm_compute. reflexivity.
Qed.

(** The id of a self-referencing field need not be the one reported, even
    with unique ids: [S] depends on [T] first, the cycle of [T] is recorded
    and the traversal of [S] returns before it looks at its second rule. *)
Lemma detectCircularDependencies_reports_another :
  detectCircularDependencies [field_S; field_T] = Some ["T"].
Proof. vm_compute. reflexivity. Qed.

(* ===================================================================== *)
(** * Further properties of the code *)
(* ===================================================================== *)

Import Renderer StoreActions Spec2.

(** ** Cycle detection: what is reported *)

Section Reports.

Variable G : gmap string (list string).

(** While nothing has been recorded, an id that gets recorded lies on a
    cycle: the stack then holds exactly the ids of the calls in progress,
    each of which reaches the id being looked at. *)
Lemma call_loop_first :
  (forall v st r st', call G v st r st' ->
     cycles st = [] ->
     (forall u, u ∈ recursionStack st -> tc (edge G) u v) ->
     forall x, x ∈ cycles st' -> tc (edge G) x x)
  /\ (forall ds st r st', loop G ds st r st' ->
     cycles st = [] ->
     forall cur, (forall d, d ∈ ds -> edge G cur d) ->
       (forall u, u ∈ recursionStack st -> u = cur \/ tc (edge G) u cur) ->
       forall x, x ∈ cycles st' -> tc (edge G) x x).
Proof.
  apply call_loop_ind.
  - intros v st Hstack Hnil Hreach x Hx. simpl in Hx. rewrite Hnil in Hx.
    apply list_elem_of_singleton in Hx as ->. by apply Hreach.
  - intros v st _ _ Hnil _ x Hx. rewrite Hnil in Hx.
    by apply elem_of_nil in Hx.
  - intros v st st' _ _ _ IH Hnil Hreach. apply (IH Hnil v); [done|].
    intros u Hu. simpl in Hu. apply elem_of_union in Hu as [Hu | Hu].
    + left. set_solver.
    + right. by apply Hreach.
  - intros v st st' _ _ _ IH Hnil Hreach x Hx. simpl in Hx.
    apply (IH Hnil v); [done | | done].
    intros u Hu. simpl in Hu. apply elem_of_union in Hu as [Hu | Hu].
    + left. set_solver.
    + right. by apply Hreach.
  - intros st Hnil cur _ _ x Hx. rewrite Hnil in Hx.
    by apply elem_of_nil in Hx.
  - intros d ds st st' _ IH Hnil cur Hedges Hreach. apply IH; [done|].
    intros u Hu. destruct (Hreach u Hu) as [-> | Htc].
    + apply tc_once, Hedges. left.
    + eapply tc_r; [exact Htc|]. apply Hedges. left.
  - intros d ds st st1 r st' Hcall _ _ IH Hnil cur Hedges Hreach.
    destruct (call_effect_of G _ _ _ _ Hcall) as (_ & _ & _ & Hfalse & _).
    destruct (Hfalse eq_refl) as (HS & HC & _). apply (IH ltac:(congruence) cur).
    + intros d' Hd'. apply Hedges. by right.
    + intros u Hu. apply Hreach. by rewrite <- HS.
Qed.

(** An id is recorded only by a call that finds it on the stack: it is the
    id the call was made for. *)
Lemma call_loop_reported :
  (forall v st r st', call G v st r st' ->
     forall x, x ∈ cycles st' ->
       x ∈ cycles st \/ (x = v /\ v ∈ recursionStack st)
       \/ exists u, edge G u x)
  /\ (forall ds st r st', loop G ds st r st' ->
     (forall d, d ∈ ds -> exists u, edge G u d) ->
     forall x, x ∈ cycles st' -> x ∈ cycles st \/ exists u, edge G u x).
Proof.
  apply call_loop_ind.
  - intros v st Hstack x Hx. simpl in Hx. apply elem_of_app in Hx as [Hx | Hx].
    + by left.
    + apply list_elem_of_singleton in Hx as ->. right; left. done.
  - intros v st _ _ x Hx. by left.
  - intros v st st' _ _ _ IH x Hx.
    destruct (IH ltac:(intros d Hd; by exists v) x Hx) as [Hold | Hnew].
    + left. exact Hold.
    + right; right. exact Hnew.
  - intros v st st' _ _ _ IH x Hx. simpl in Hx.
    destruct (IH ltac:(intros d Hd; by exists v) x Hx) as [Hold | Hnew].
    + left. exact Hold.
    + right; right. exact Hnew.
  - intros st _ x Hx. by left.
  - intros d ds st st' _ IH Hds x Hx.
    destruct (IH x Hx) as [Hold | [[-> _] | Hnew]].
    + by left.
    + right. apply Hds. left.
    + by right.
  - intros d ds st st1 r st' _ IH1 _ IH Hds x Hx.
    destruct (IH ltac:(intros d' Hd'; apply Hds; by right) x Hx)
      as [Hmid | Hnew]; [|by right].
    destruct (IH1 x Hmid) as [Hold | [[-> _] | Hnew]].
    + by left.
    + right. apply Hds. left.
    + by right.
Qed.

(** A property of the state that every call of the second [forEach] keeps
    holds after the whole loop. *)
Lemma sweep_invariant (fuel : nat) (P : DfsState -> Prop) :
  (forall v st r st', call G v st r st' -> v ∉ visited st -> P st -> P st') ->
  forall fields st st',
    foldl (visit_field fuel G) (Some st) fields = Some st' -> P st -> P st'.
Proof.
  intros Hstep. induction fields as [|f fields IH]; intros st st'; simpl.
  - by intros [= <-].
  - destruct (decide (field_id f ∈ visited st)) as [Hseen|Hfresh].
    + apply IH.
    + destruct (hasCycle fuel G (field_id f) st) as [[r st1]|] eqn:Hcall;
        simpl.
      * intros Hrest HP. apply (IH st1 st' Hrest).
        apply hasCycle_call in Hcall. by apply (Hstep _ _ _ _ Hcall).
      * by rewrite foldl_visit_field_None.
Qed.

End Reports.

(** The edges of the graph are dependencies between fields, and with unique
    ids every dependency is an edge. *)
Lemma edge_depends (fields : list FieldSchema) (a b : string) :
  edge (build_dependencies fields) a b -> depends fields a b.
Proof.
  intros Hedge. destruct (edge_rule _ _ _ Hedge) as (f & Hf & Hid & Hb).
  apply field_deps_elem in Hb as (c & r & Hc & Hr & Hrule).
  by exists f, c, r.
Qed.

Lemma depends_edge (fields : list FieldSchema) (a b : string) :
  NoDup (field_id <$> fields) -> depends fields a b ->
  edge (build_dependencies fields) a b.
Proof.
  intros Hnodup (f & c & r & Hf & <- & Hc & Hr & Hrule).
  apply rule_edge; [done | done |]. apply field_deps_elem. by exists c, r.
Qed.

Lemma tc_edge_depends (fields : list FieldSchema) (a b : string) :
  tc (edge (build_dependencies fields)) a b -> tc (depends fields) a b.
Proof.
  apply (tc_congruence (fun x => x)). intros x y. apply edge_depends.
Qed.

Lemma tc_depends_edge (fields : list FieldSchema) (a b : string) :
  NoDup (field_id <$> fields) ->
  tc (depends fields) a b -> tc (edge (build_dependencies fields)) a b.
Proof.
  intros Hnodup. apply (tc_congruence (fun x => x)). intros x y.
  by apply depends_edge.
Qed.

(** The second [forEach] records at most one id for each field. *)
Lemma sweep_length (G : gmap string (list string)) (fuel : nat)
    (fields : list FieldSchema) (st st' : DfsState) :
  foldl (visit_field fuel G) (Some st) fields = Some st' ->
  (length (cycles st') <= length (cycles st) + length fields)%nat.
Proof.
  revert st. induction fields as [|f fields IH]; intros st; simpl.
  - intros [= <-]. lia.
  - destruct (decide (field_id f ∈ visited st)) as [Hseen|Hfresh].
    + intros Hrest. specialize (IH st Hrest). lia.
    + destruct (hasCycle fuel G (field_id f) st) as [[r st1]|] eqn:Hcall;
        simpl; [|by rewrite foldl_visit_field_None].
      intros Hrest. specialize (IH st1 Hrest).
      apply hasCycle_call in Hcall.
      destruct (call_effect_of G _ _ _ _ Hcall) as (_ & _ & _ & Hfalse & Htrue).
      destruct r.
      * destruct (Htrue eq_refl) as (x & Hx & _). rewrite Hx, length_app in IH.
        simpl in IH. lia.
      * destruct (Hfalse eq_refl) as (_ & Hx & _). rewrite Hx in IH. lia.
Qed.

(** X1. [detectCircularDependencies] terminates on every list of fields,
    cyclic or not: the depth of the recursion of [hasCycle] never reaches the
    number of ids of the form plus one. It reports at most one id for each
    field. *)
Theorem detectCircularDependencies_terminates (fields : list FieldSchema) :
  exists found, detectCircularDependencies fields = Some found
                /\ (length found <= length fields)%nat.
Proof.
  destruct (detectCircularDependencies_returns fields) as [found Hfound].
  exists found. split; [done|].
  unfold detectCircularDependencies in Hfound.
  destruct (foldl _ _ _) as [st'|] eqn:Hrun; [|done].
  injection Hfound as <-. apply sweep_length in Hrun. simpl in Hrun. lia.
Qed.

(** X2. Soundness. When no id depends on itself through a chain of rules,
    [detectCircularDependencies] reports nothing, whatever the order of the
    fields and also when ids repeat. *)
Theorem detectCircularDependencies_no_cycle (fields : list FieldSchema) :
  (forall v, ~ tc (depends fields) v v) ->
  detectCircularDependencies fields = Some [].
Proof.
  intros Hacyclic. apply detectCircularDependencies_sound.
  intros v Hcycle. apply (Hacyclic v). by apply tc_edge_depends.
Qed.

Lemma detectCircularDependencies_no_cycle_witness :
  detectCircularDependencies [ring_A; ring_B; chain_C] = Some [].
Proof.
  apply detectCircularDependencies_no_cycle. intros v Hcycle.
  apply (chain_acyclic [ring_A; ring_B; chain_C] ring_A ring_B chain_C)
    with (v := v); try discriminate; try done.
  - by exists (depends_on "B"), (mkConditionalRule "B" op_isNotEmpty VUndefined).
  - by exists (depends_on "C"), (mkConditionalRule "C" op_isNotEmpty VUndefined).
  - apply tc_depends_edge; [|done]. compute_done.
Defined.

(** X3. Completeness. In a form with unique ids, when some id depends on
    itself through a chain of one or more rules, [detectCircularDependencies]
    reports at least one id. *)
Theorem detectCircularDependencies_cycle (fields : list FieldSchema)
    (v : string) :
  NoDup (field_id <$> fields) ->
  tc (depends fields) v v ->
  exists found, detectCircularDependencies fields = Some found
                /\ found <> [].
Proof.
  intros Hnodup Hcycle.
  assert (Hfield : exists f, f ∈ fields /\ field_id f = v).
  { inversion Hcycle as [? ? (f & _ & _ & Hf & Hid & _)
                        | ? ? ? (f & _ & _ & Hf & Hid & _)]; by exists f. }
  destruct Hfield as (f & Hf & <-).
  destruct (detectCircularDependencies_complete fields f Hf)
    as (found & Hfound & Hne & _).
  - by apply tc_depends_edge.
  - by exists found.
Qed.

Lemma detectCircularDependencies_cycle_witness :
  exists found,
    detectCircularDependencies [ring_B; ring_A; ring_C] = Some found
    /\ found <> [].
Proof.
  apply (detectCircularDependencies_cycle [ring_B; ring_A; ring_C] "A").
  - compute_done.
  - eapply tc_l; [|eapply tc_l; [|apply tc_once]].
    + exists ring_A, (depends_on "B"),
        (mkConditionalRule "B" op_isNotEmpty VUndefined).
      repeat split; try done; set_solver.
    + exists ring_B, (depends_on "C"),
        (mkConditionalRule "C" op_isNotEmpty VUndefined).
      repeat split; try done; set_solver.
    + exists ring_C, (depends_on "A"),
        (mkConditionalRule "A" op_isNotEmpty VUndefined).
      repeat split; try done; set_solver.
Defined.

(** X4. Every id [detectCircularDependencies] reports is an id some rule
    refers to: the id of a field that no rule names is never reported. *)
Theorem detectCircularDependencies_reports_targets
    (fields : list FieldSchema) (found : list string) (x : string) :
  detectCircularDependencies fields = Some found ->
  x ∈ found ->
  exists a, depends fields a x.
Proof.
  unfold detectCircularDependencies. intros Hfound Hx.
  destruct (foldl _ _ _) as [st'|] eqn:Hrun; [|done].
  injection Hfound as <-.
  set (G := build_dependencies fields) in *.
  assert (HP : recursionStack st' ⊆ visited st'
               /\ forall y, y ∈ cycles st' -> exists u, edge G u y).
  { apply (sweep_invariant G (recursion_bound fields)
             (fun st => recursionStack st ⊆ visited st
                        /\ forall y, y ∈ cycles st -> exists u, edge G u y)
             ) with (fields := fields) (st := dfs_init); [|done|].
    - intros v st r st1 Hcall Hfresh [HSV Hold].
      destruct (call_effect_of G _ _ _ _ Hcall) as (_ & _ & HSV1 & _).
      split; [by apply HSV1|]. intros y Hy.
      destruct (proj1 (call_loop_reported G) _ _ _ _ Hcall y Hy)
        as [Hy' | [[-> Hstack] | Hnew]].
      + by apply Hold.
      + destruct Hfresh. by apply HSV.
      + exact Hnew.
    - simpl. split; [set_solver|]. intros y Hy. by apply elem_of_nil in Hy. }
  destruct HP as [_ Htargets]. destruct (Htargets x Hx) as [u Hu].
  exists u. by apply edge_depends.
Qed.

Lemma detectCircularDependencies_reports_targets_witness :
  exists a, depends [ring_A; ring_B; ring_C] a "A".
Proof.
  apply (detectCircularDependencies_reports_targets
           [ring_A; ring_B; ring_C] ["A"] "A").
  - vm_compute. reflexivity.
  - left.
Defined.

(** X5. The first id [detectCircularDependencies] reports lies on a cycle:
    it depends on itself through a chain of one or more rules. *)
Theorem detectCircularDependencies_first_on_cycle
    (fields : list FieldSchema) (x : string) (rest : list string) :
  detectCircularDependencies fields = Some (x :: rest) ->
  tc (depends fields) x x.
Proof.
  unfold detectCircularDependencies. intros Hfound.
  destruct (foldl _ _ _) as [st'|] eqn:Hrun; [|done].
  injection Hfound as Hcycles.
  set (G := build_dependencies fields) in *.
  assert (HP : (cycles st' = [] /\ recursionStack st' = ∅)
               \/ exists y l, cycles st' = y :: l /\ tc (edge G) y y).
  { apply (sweep_invariant G (recursion_bound fields)
             (fun st => (cycles st = [] /\ recursionStack st = ∅)
                        \/ exists y l, cycles st = y :: l /\ tc (edge G) y y)
             ) with (fields := fields) (st := dfs_init); [|done|by left].
    intros v st r st1 Hcall _ HP.
    destruct (call_effect_of G _ _ _ _ Hcall) as (_ & _ & _ & Hfalse & Htrue).
    destruct HP as [[Hnil Hempty] | (y & l & Hyl & Hy)].
    - destruct r.
      + right. destruct (Htrue eq_refl) as (y & Hy & _).
        rewrite Hnil in Hy. simpl in Hy. exists y, []. split; [done|].
        apply (proj1 (call_loop_first G) _ _ _ _ Hcall Hnil).
        * intros u Hu. rewrite Hempty in Hu. set_solver.
        * rewrite Hy. left.
      + left. destruct (Hfalse eq_refl) as (-> & -> & _). done.
    - right. destruct r.
      + destruct (Htrue eq_refl) as (z & Hz & _). rewrite Hyl in Hz.
        exists y, (l ++ [z]). done.
      + destruct (Hfalse eq_refl) as (_ & Heq & _). rewrite Hyl in Heq.
        by exists y, l. }
  destruct HP as [[Hnil _] | (y & l & Hyl & Hy)]; [congruence|].
  rewrite Hyl in Hcycles. injection Hcycles as -> _.
  by apply tc_edge_depends.
Qed.

Lemma detectCircularDependencies_first_on_cycle_witness :
  tc (depends [ring_A; ring_B; ring_C]) "A" "A".
Proof.
  apply (detectCircularDependencies_first_on_cycle
           [ring_A; ring_B; ring_C] "A" []).
  vm_compute. reflexivity.
Defined.

(** ** Removal: repeated, in either order, and the dependency graph *)

Lemma with_conditions_same (f : FieldSchema) :
  with_conditions f (field_conditions f) = f.
Proof. by destruct f. Qed.

Lemma with_rules_same (c : FieldConditions) : with_rules c (cond_rules c) = c.
Proof. by destruct c. Qed.

Lemma removeFieldWithCleanup_cons (e : FieldEntry) (fields : list FieldEntry)
    (fieldId : string) :
  removeFieldWithCleanup (e :: fields) fieldId
  = if decide (entry_id e ≠ Some fieldId)
    then cleanup_entry fieldId e :: removeFieldWithCleanup fields fieldId
    else removeFieldWithCleanup fields fieldId.
Proof.
  unfold removeFieldWithCleanup. rewrite filter_cons.
  by destruct (decide (entry_id e ≠ Some fieldId)).
Qed.

Lemma filter_all {A : Type} (P : A -> Prop) `{forall x, Decision (P x)}
    (l : list A) :
  (forall x, x ∈ l -> P x) -> filter P l = l.
Proof.
  induction l as [|x l IH]; intros Hall; [done|].
  rewrite filter_cons, decide_True by (apply Hall; left).
  f_equal. apply IH. intros y Hy. apply Hall. by right.
Qed.

(** An entry the cleanup has nothing to do on. *)
Lemma cleanup_entry_fixed (fieldId : string) (e : FieldEntry) :
  (forall f c, e = Field f -> field_conditions f = Some c ->
     cond_rules c <> []
     /\ forall r, r ∈ cond_rules c -> rule_field r <> fieldId) ->
  cleanup_entry fieldId e = e.
Proof.
  destruct e as [f|o]; [|done]. intros Hclean. simpl.
  destruct (field_conditions f) as [c|] eqn:Hc; [|done].
  destruct (Hclean f c eq_refl Hc) as [Hne Hrules].
  rewrite (filter_all _ (cond_rules c)) by exact Hrules.
  destruct (cond_rules c) as [|r rs] eqn:Hrs; [done|]. simpl.
  rewrite <- Hrs, with_rules_same, <- Hc. by rewrite with_conditions_same.
Qed.

Lemma removeFieldWithCleanup_fixed (fields : list FieldEntry)
    (fieldId : string) :
  (forall e, e ∈ fields ->
     entry_id e <> Some fieldId /\ cleanup_entry fieldId e = e) ->
  removeFieldWithCleanup fields fieldId = fields.
Proof.
  induction fields as [|e fields IH]; intros Hall; [done|].
  destruct (Hall e) as [Hid Hfix]; [left|].
  rewrite removeFieldWithCleanup_cons, decide_True by done.
  rewrite Hfix, IH; [done|]. intros e' He'. apply Hall. by right.
Qed.

(** X6. Removing the same id twice is removing it once: the second
    [removeField] finds nothing to remove and nothing to clean, and the
    store states are equal (at the same time stamp). *)
Theorem removeField_idempotent (now : string) (state : State)
    (fieldId : string) :
  removeFieldWithCleanup
    (removeFieldWithCleanup (schema_fields (currentForm state)) fieldId)
    fieldId
  = removeFieldWithCleanup (schema_fields (currentForm state)) fieldId
  /\ removeField now (removeField now state fieldId) fieldId
     = removeField now state fieldId.
Proof.
  assert (Hfields : forall fields,
            removeFieldWithCleanup (removeFieldWithCleanup fields fieldId)
                                   fieldId
            = removeFieldWithCleanup fields fieldId).
  { intros fields. apply removeFieldWithCleanup_fixed. intros e' He'.
    pose proof He' as Hsrc.
    apply removeFieldWithCleanup_elem in Hsrc as (e & _ & Hid & ->).
    split; [by rewrite cleanup_entry_id|].
    apply cleanup_entry_fixed. intros f c Hf Hc.
    by apply (cleanup_entry_conditions fieldId e f c). }
  split; [apply Hfields|].
  unfold removeField. simpl. rewrite Hfields.
  destruct state as [form data m sel]. simpl.
  f_equal. repeat case_decide; congruence.
Qed.

Lemma filter_swap {A : Type} (P Q : A -> Prop) `{forall x, Decision (P x)}
    `{forall x, Decision (Q x)} (l : list A) :
  filter P (filter Q l) = filter Q (filter P l).
Proof.
  induction l as [|x l IH]; [done|].
  rewrite !filter_cons.
  destruct (decide (Q x)), (decide (P x));
    rewrite ?filter_cons, ?decide_True, ?decide_False by done; by rewrite IH.
Qed.

Lemma cleanup_entry_swap (g h : string) (e : FieldEntry) :
  cleanup_entry g (cleanup_entry h e) = cleanup_entry h (cleanup_entry g e).
Proof.
  destruct e as [f|o]; [|done]. simpl.
  destruct (field_conditions f) as [c|] eqn:Hc; [|simpl; by rewrite Hc].
  pose proof (filter_swap (fun r => rule_field r ≠ g)
                          (fun r => rule_field r ≠ h) (cond_rules c)) as Hswap.
  destruct (filter (fun r => rule_field r ≠ h) (cond_rules c)) as [|r1 l1]
    eqn:Hh;
  destruct (filter (fun r => rule_field r ≠ g) (cond_rules c)) as [|r2 l2]
    eqn:Hg; simpl.
  - done.
  - rewrite <- Hswap. done.
  - rewrite Hswap. done.
  - rewrite Hswap.
    by destruct (filter (fun r => rule_field r ≠ h) (r2 :: l2)).
Qed.

Lemma removeFieldWithCleanup_swap (fields : list FieldEntry) (g h : string) :
  removeFieldWithCleanup (removeFieldWithCleanup fields g) h
  = removeFieldWithCleanup (removeFieldWithCleanup fields h) g.
Proof.
  induction fields as [|e fields IH]; [done|].
  rewrite !(removeFieldWithCleanup_cons e fields).
  destruct (decide (entry_id e ≠ Some g)) as [Hg|Hg],
           (decide (entry_id e ≠ Some h)) as [Hh|Hh];
    rewrite ?removeFieldWithCleanup_cons, ?cleanup_entry_id,
            ?decide_True, ?decide_False by done;
    rewrite ?IH; try done.
  by rewrite cleanup_entry_swap.
Qed.

(** X7. Two removals commute: removing [g] then [h] gives the same fields,
    and the same store state, as removing [h] then [g]. *)
Theorem removeField_commutes (now : string) (state : State) (g h : string) :
  removeField now (removeField now state g) h
  = removeField now (removeField now state h) g.
Proof.
  unfold removeField. simpl. rewrite removeFieldWithCleanup_swap.
  destruct state as [form data m sel]. simpl.
  f_equal. repeat case_decide; congruence.
Qed.

Lemma typed_fields_elem (entries : list FieldEntry) (f : FieldSchema) :
  f ∈ typed_fields entries <-> Field f ∈ entries.
Proof.
  unfold typed_fields. rewrite list_elem_of_omap. split.
  - intros (e & He & Hf). destruct e as [f'|o]; [|done]. by injection Hf as ->.
  - intros Hf. by exists (Field f).
Qed.

Lemma typed_fields_fmap (fields : list FieldSchema) :
  typed_fields (Field <$> fields) = fields.
Proof.
  induction fields as [|f fields IH]; [done|].
  rewrite fmap_cons. unfold typed_fields in *.
  cbn [omap list_omap]. by rewrite IH.
Qed.

(** The rules a field has after the cleanup are rules it had before. *)
Lemma cleanup_entry_rules (fieldId : string) (f f' : FieldSchema)
    (c' : FieldConditions) (r : ConditionalRule) :
  cleanup_entry fieldId (Field f) = Field f' ->
  field_conditions f' = Some c' -> r ∈ cond_rules c' ->
  field_id f' = field_id f
  /\ exists c, field_conditions f = Some c /\ r ∈ cond_rules c.
Proof.
  simpl. destruct (field_conditions f) as [c|] eqn:Hc.
  - destruct (filter _ (cond_rules c)) as [|r0 rs] eqn:Hfilter; simpl.
    + intros [= <-]. done.
    + intros [= <-]. simpl. intros [= <-]. simpl. intros Hr.
      split; [done|]. exists c. split; [done|].
      rewrite <- Hfilter in Hr. by apply list_elem_of_filter in Hr as [_ Hr].
  - intros [= <-]. by rewrite Hc.
Qed.

Lemma depends_after_removal (fields : list FieldSchema) (g a b : string) :
  depends (typed_fields (removeFieldWithCleanup (Field <$> fields) g)) a b ->
  depends fields a b.
Proof.
  intros (f' & c' & r & Hf' & Hid & Hc' & Hr & Hrule).
  apply typed_fields_elem, removeFieldWithCleanup_elem in Hf'
    as (e & He & _ & Heq).
  apply list_elem_of_fmap in He as (f & -> & Hf). symmetry in Heq.
  destruct (cleanup_entry_rules g f f' c' r Heq Hc' Hr) as (Hid' & c & Hc & Hr').
  exists f, c, r. repeat split; try done. congruence.
Qed.

(** A form with unique ids on which nothing is reported has no cycle. *)
Lemma nothing_reported_acyclic (fields : list FieldSchema) :
  NoDup (field_id <$> fields) ->
  detectCircularDependencies fields = Some [] ->
  forall v, ~ tc (depends fields) v v.
Proof.
  intros Hnodup Hnone v Hcycle.
  assert (Hfield : exists f, f ∈ fields /\ field_id f = v).
  { inversion Hcycle as [? ? (f & _ & _ & Hf & Hid & _)
                        | ? ? ? (f & _ & _ & Hf & Hid & _)]; by exists f. }
  destruct Hfield as (f & Hf & <-).
  destruct (detectCircularDependencies_complete fields f Hf)
    as (found & Hfound & Hne & _); [by apply tc_depends_edge|].
  congruence.
Qed.

(** X8. Removing a field never creates a circular dependency: when the
    detection reports nothing on a form with unique ids, it reports nothing
    on the fields [removeFieldWithCleanup] returns. *)
Theorem removeFieldWithCleanup_keeps_acyclic (fields : list FieldSchema)
    (fieldId : string) :
  NoDup (field_id <$> fields) ->
  detectCircularDependencies fields = Some [] ->
  detectCircularDependencies
    (typed_fields (removeFieldWithCleanup (Field <$> fields) fieldId))
  = Some [].
Proof.
  intros Hnodup Hnone. apply detectCircularDependencies_sound.
  intros v Hcycle.
  apply (nothing_reported_acyclic fields Hnodup Hnone v).
  apply tc_edge_depends in Hcycle. revert Hcycle.
  apply (tc_congruence (fun x => x)). intros x y.
  apply depends_after_removal.
Qed.

Lemma removeFieldWithCleanup_keeps_acyclic_witness :
  detectCircularDependencies
    (typed_fields
       (removeFieldWithCleanup (Field <$> [ring_A; ring_B; chain_C]) "B"))
  = Some [].
Proof.
  apply removeFieldWithCleanup_keeps_acyclic.
  - compute_done.
  - vm_compute. reflexivity.
Defined.

(** ** Reordering: there and back, and beyond the end *)

(** Two entries that differ at most in their [order]. *)
Lemma spread_order_twice (e : FieldEntry) (i k : Z) :
  spread_order (spread_order e i) k = spread_order e k.
Proof. by destruct e. Qed.

Lemma renumber_lookup (fields : list FieldEntry) (i : nat) :
  renumber fields !! i
  = (fun e => spread_order e (Z.of_nat i)) <$> fields !! i.
Proof. unfold renumber. apply list_lookup_imap. Qed.

Lemma renumber_length (fields : list FieldEntry) :
  length (renumber fields) = length fields.
Proof. unfold renumber. apply length_imap. Qed.

(** Renumbering sees its argument only up to the [order] of its entries. *)
Lemma renumber_modulo_order (l l' : list FieldEntry) :
  Forall2 (fun e e' => forall k, spread_order e k = spread_order e' k) l l' ->
  renumber l = renumber l'.
Proof.
  intros Hrel. apply list_eq. intros i. rewrite !renumber_lookup.
  destruct (l !! i) as [e|] eqn:He.
  - destruct (Forall2_lookup_l _ _ _ _ _ Hrel He) as (e' & -> & Heq).
    simpl. by rewrite Heq.
  - assert (l' !! i = None) as ->; [|done].
    apply lookup_ge_None. rewrite <- (Forall2_length _ _ _ Hrel).
    by apply lookup_ge_None.
Qed.

Lemma renumber_related (l : list FieldEntry) :
  Forall2 (fun e e' => forall k, spread_order e k = spread_order e' k)
          (renumber l) l.
Proof.
  apply Forall2_same_length_lookup. split; [apply renumber_length|].
  intros i e e'. rewrite renumber_lookup. intros He He'.
  rewrite He' in He. simpl in He. injection He as <-.
  intros k. apply spread_order_twice.
Qed.

(** A list that satisfies the order invariant is left as it is. *)
Lemma renumber_fixed (l : list FieldEntry) :
  order_invariant l -> renumber l = l.
Proof.
  intros Hinv. apply list_eq. intros i. rewrite renumber_lookup.
  destruct (l !! i) as [e|] eqn:He; [|done]. simpl. f_equal.
  specialize (Hinv i e He). destruct e as [f|o]; simpl in *.
  - rewrite <- Hinv. by destruct f.
  - by rewrite Hinv.
Qed.

(** Taking an element out and putting it back where it was. *)
Lemma take_delete_drop {A : Type} (l : list A) (i : nat) (x : A) :
  l !! i = Some x ->
  take i (delete i l) ++ x :: drop i (delete i l) = l.
Proof.
  intros Hx. pose proof (lookup_lt_Some _ _ _ Hx) as Hlt.
  rewrite delete_take_drop.
  rewrite take_app_length' by (rewrite length_take; lia).
  rewrite drop_app_length' by (rewrite length_take; lia).
  by apply take_drop_middle.
Qed.

(** [reorderFields] for indices within the array. *)
Lemma reorderFields_in_range (fields : list FieldEntry) (i j : nat)
    (x : FieldEntry) :
  fields !! i = Some x -> (j < length fields)%nat ->
  reorderFields fields (Z.of_nat i) (Z.of_nat j)
  = renumber (take j (delete i fields) ++ x :: drop j (delete i fields)).
Proof.
  intros Hx Hj. pose proof (lookup_lt_Some _ _ _ Hx) as Hi.
  pose proof (reorderFields_found fields (Z.of_nat i) (Z.of_nat j) x) as Hfound.
  cbn zeta in Hfound.
  rewrite (splice_start_in_range (length fields) (Z.of_nat i)) in Hfound
    by lia.
  rewrite Nat2Z.id in Hfound.
  assert (Hlen : length (delete i fields) = (length fields - 1)%nat).
  { rewrite length_delete; [done|]. by eexists. }
  assert (Ht : splice_start (length (delete i fields)) (Z.of_nat j) = j).
  { unfold splice_start. destruct (Z.ltb_spec (Z.of_nat j) 0); lia. }
  rewrite Ht in Hfound. by apply Hfound.
Qed.

Lemma Forall2_delete_same {A B : Type} (P : A -> B -> Prop) (l : list A)
    (k : list B) (i : nat) :
  Forall2 P l k -> Forall2 P (delete i l) (delete i k).
Proof.
  intros Hrel. rewrite !delete_take_drop.
  apply Forall2_app; [by apply Forall2_take | by apply Forall2_drop].
Qed.

(** X9. Moving a field from index [i] to index [j] and then from [j] back
    to [i], both within the array, gives the fields in their first order,
    renumbered; on a list that satisfies the order invariant it gives the
    list itself. Moving a field to where it is does the same. *)
Theorem reorderFields_there_and_back (fields : list FieldEntry) (i j : nat) :
  (i < length fields)%nat -> (j < length fields)%nat ->
  reorderFields (reorderFields fields (Z.of_nat i) (Z.of_nat j))
                (Z.of_nat j) (Z.of_nat i)
  = renumber fields
  /\ reorderFields fields (Z.of_nat i) (Z.of_nat i) = renumber fields
  /\ (order_invariant fields ->
      reorderFields (reorderFields fields (Z.of_nat i) (Z.of_nat j))
                    (Z.of_nat j) (Z.of_nat i)
      = fields).
Proof.
  intros Hi Hj.
  destruct (lookup_lt_is_Some_2 fields i Hi) as [x Hx].
  set (rest := delete i fields).
  assert (Hrest : length rest = (length fields - 1)%nat).
  { subst rest. rewrite length_delete; [done|]. by eexists. }
  set (l1 := take j rest ++ x :: drop j rest).
  assert (Htake : length (take j rest) = j) by (rewrite length_take; lia).
  assert (Hl1 : l1 !! j = Some x).
  { subst l1. apply list_lookup_middle. by rewrite Htake. }
  assert (Hdel : delete j l1 = rest).
  { subst l1.
    pose proof (delete_middle (take j rest) (drop j rest) x) as Hmid.
    rewrite Htake in Hmid. rewrite Hmid. apply take_drop. }
  assert (Hlen1 : length l1 = length fields).
  { subst l1. rewrite length_app, Htake. simpl. rewrite length_drop. lia. }
  assert (Hback :
    reorderFields (reorderFields fields (Z.of_nat i) (Z.of_nat j))
                  (Z.of_nat j) (Z.of_nat i) = renumber fields).
  { rewrite (reorderFields_in_range fields i j x Hx Hj). fold rest. fold l1.
    rewrite (reorderFields_in_range (renumber l1) j i
               (spread_order x (Z.of_nat j))).
    - transitivity (renumber (take i rest ++ x :: drop i rest));
        [|subst rest; by rewrite (take_delete_drop fields i x Hx)].
      apply renumber_modulo_order.
      assert (Hrel : Forall2
                (fun e e' => forall k, spread_order e k = spread_order e' k)
                (delete j (renumber l1)) rest).
      { rewrite <- Hdel. apply Forall2_delete_same, renumber_related. }
      apply Forall2_app; [by apply Forall2_take|].
      apply Forall2_cons. split; [intros k; apply spread_order_twice|].
      by apply Forall2_drop.
    - rewrite renumber_lookup, Hl1. done.
    - rewrite renumber_length. lia. }
  split; [exact Hback|]. split.
  - rewrite (reorderFields_in_range fields i i x Hx Hi).
    by rewrite (take_delete_drop fields i x Hx).
  - intros Hinv. rewrite Hback. by apply renumber_fixed.
Qed.

Lemma reorderFields_there_and_back_witness :
  reorderFields
    (reorderFields [Field field_a; Field field_b; Field field_c] 0 2) 2 0
  = [Field field_a; Field field_b; Field field_c].
Proof.
  apply (reorderFields_there_and_back
           [Field field_a; Field field_b; Field field_c] 0 2).
  - simpl. lia.
  - simpl. lia.
  - intros i e. destruct i as [|[|[|i]]]; simpl; intros [= <-]; reflexivity.
Defined.

(** X10. When [fromIndex] is at or beyond the end of the array,
    [reorderFields] removes nothing and inserts one entry that has an
    [order] and no id at the clamped [toIndex]: the array grows by one, and
    its fields keep their ids and their order. *)
Theorem reorderFields_beyond_end (fields : list FieldEntry)
    (fromIndex toIndex : Z) :
  Z.of_nat (length fields) <= fromIndex ->
  let t := splice_start (length fields) toIndex in
  let result := reorderFields fields fromIndex toIndex in
  length result = S (length fields)
  /\ result !! t = Some (OrderOnly (Z.of_nat t))
  /\ omap entry_id result = omap entry_id fields.
Proof.
  intros Hfrom t result. subst result. rewrite reorderFields_unfold. cbn zeta.
  rewrite length_fmap.
  assert (Hf : splice_start (length fields) fromIndex = length fields).
  { unfold splice_start. destruct (Z.ltb_spec fromIndex 0); lia. }
  rewrite Hf.
  rewrite (take_ge (Some <$> fields) (length fields))
    by (rewrite length_fmap; lia).
  rewrite (drop_ge (Some <$> fields) (length fields + 1))
    by (rewrite length_fmap; lia).
  rewrite (drop_ge (Some <$> fields) (length fields))
    by (rewrite length_fmap; lia).
  rewrite app_nil_r, length_fmap. fold t. simpl.
  pose proof (splice_start_le (length fields) toIndex) as Ht. fold t in Ht.
  assert (Htake : length (take t (Some <$> fields)) = t)
    by (rewrite length_take, length_fmap; lia).
  split; [|split].
  - rewrite length_imap, length_app, Htake. simpl.
    rewrite length_drop, length_fmap. lia.
  - rewrite list_lookup_imap.
    rewrite list_lookup_middle by (by rewrite Htake). done.
  - rewrite (omap_entry_id_imap _ (fun o : option FieldEntry => o ≫= entry_id))
      by (intros; apply entry_id_spread_opt).
    rewrite omap_app. cbn [omap list_omap mbind option_bind].
    rewrite <- omap_app, take_drop. apply omap_bind_Some.
Qed.

Lemma reorderFields_beyond_end_witness :
  length (reorderFields [Field field_a; Field field_b] 2 0) = 3%nat
  /\ reorderFields [Field field_a; Field field_b] 2 0 !! 0%nat
     = Some (OrderOnly 0).
Proof.
  destruct (reorderFields_beyond_end [Field field_a; Field field_b] 2 0)
    as (Hlen & Hhole & _).
  - simpl. lia.
  - split; [exact Hlen | exact Hhole].
Defined.

(** ** The store: adding and duplicating *)

(** Inserting at [p] and renumbering, index by index. *)
Lemma renumber_insert_lookup (fields : list FieldEntry) (p : nat)
    (x : FieldEntry) :
  (p <= length fields)%nat ->
  let fields' := renumber (take p fields ++ x :: drop p fields) in
  fields' !! p = Some (spread_order x (Z.of_nat p))
  /\ (forall i e, fields !! i = Some e -> (i < p)%nat ->
        fields' !! i = Some (spread_order e (Z.of_nat i)))
  /\ (forall i e, fields !! i = Some e -> (p <= i)%nat ->
        fields' !! S i = Some (spread_order e (Z.of_nat (S i))))
  /\ length fields' = S (length fields).
Proof.
  intros Hp fields'. subst fields'.
  assert (Htake : length (take p fields) = p) by (rewrite length_take; lia).
  split; [|split; [|split]].
  - rewrite renumber_lookup, list_lookup_middle by (by rewrite Htake). done.
  - intros i e He Hi. rewrite renumber_lookup.
    rewrite lookup_app_l by lia. rewrite lookup_take_lt by done.
    by rewrite He.
  - intros i e He Hi. rewrite renumber_lookup.
    rewrite lookup_app_r by lia. rewrite Htake.
    replace (S i - p)%nat with (S (i - p)) by lia. simpl.
    rewrite lookup_drop. replace (p + (i - p))%nat with i by lia.
    by rewrite He.
  - rewrite renumber_length, length_app, Htake. simpl.
    rewrite length_drop. lia.
Qed.

(** X11. [addField] inserts one new field and keeps the others in their
    order. Without a position the field is appended; with a position it is
    inserted at the index [splice] clamps the position to. The fields before
    that index keep their index, the others move up by one, all are
    renumbered; the new field has the generated id, the label and the default
    configuration of its type and no conditions, and it is selected. *)
Theorem addField_inserts (now newId : string) (state : State)
    (type : FieldType) (position : option Z) :
  let fields := schema_fields (currentForm state) in
  let state' := addField now newId state type position in
  let fields' := schema_fields (currentForm state') in
  let p :=
    splice_start (length fields)
                 (default (Z.of_nat (length fields)) position) in
  (position = None -> p = length fields)
  /\ (p <= length fields)%nat
  /\ length fields' = S (length fields)
  /\ fields' !! p
     = Some (Field {| field_id := newId; field_type := type;
                      field_label :=
                        def_label (FieldRegistry.getFieldDefinition type);
                      field_config :=
                        def_defaultConfig
                          (FieldRegistry.getFieldDefinition type);
                      field_conditions := None;
                      field_order := Z.of_nat p |})
  /\ (forall i e, fields !! i = Some e -> (i < p)%nat ->
        fields' !! i = Some (spread_order e (Z.of_nat i)))
  /\ (forall i e, fields !! i = Some e -> (p <= i)%nat ->
        fields' !! S i = Some (spread_order e (Z.of_nat (S i))))
  /\ selectedFieldId state' = Some newId.
Proof.
  intros fields state' fields' p.
  pose proof (splice_start_le (length fields)
                (default (Z.of_nat (length fields)) position)) as Hp.
  fold p in Hp.
  assert (Hfields' : fields' =
            renumber (take p fields
                      ++ Field (createFieldSchema newId type
                                  (default (Z.of_nat (length fields)) position))
                      :: drop p fields)).
  { subst fields' state'. unfold addField, splice. simpl.
    fold fields. fold p. by rewrite Nat.add_0_r. }
  destruct (renumber_insert_lookup fields p
              (Field (createFieldSchema newId type
                        (default (Z.of_nat (length fields)) position))) Hp)
    as (Hnew & Hbefore & Hafter & Hlen).
  rewrite <- Hfields' in Hnew, Hbefore, Hafter, Hlen.
  split; [|split; [done|]; split; [done|]; split; [done|]; split; [done|];
           split; [done|]; done].
  intros ->. subst p. simpl. unfold splice_start.
  destruct (Z.ltb_spec (Z.of_nat (length fields)) 0); lia.
Qed.

(** [findIndex] returns the first entry with the id. *)
Lemma findIndex_first (fields : list FieldEntry) (fieldId : string) (i : nat)
    (f : FieldSchema) :
  fields !! i = Some (Field f) -> field_id f = fieldId ->
  (forall j e, (j < i)%nat -> fields !! j = Some e ->
     entry_id e <> Some fieldId) ->
  findIndex fields fieldId = Some (i, f).
Proof.
  revert i. induction fields as [|e fields IH]; intros i Hi Hid Hfirst;
    [done|].
  destruct i as [|i].
  - injection Hi as ->. simpl. by rewrite Hid, String.eqb_refl.
  - assert (Hrest : findIndex fields fieldId = Some (i, f)).
    { apply IH; [done | done |]. intros j e' Hj He'.
      apply (Hfirst (S j) e'); [lia | done]. }
    assert (Hhead : entry_id e <> Some fieldId)
      by (apply (Hfirst 0%nat e); [lia | done]).
    simpl. destruct e as [g|o].
    + destruct (String.eqb_spec (field_id g) fieldId) as [Heq|_].
      * destruct Hhead. simpl. by rewrite Heq.
      * by rewrite Hrest.
    + by rewrite Hrest.
Qed.

Lemma absent_findIndex (fields : list FieldEntry) (fieldId : string) :
  absent fieldId fields -> findIndex fields fieldId = None.
Proof.
  induction fields as [|e fields IH]; intros Habs; [done|].
  assert (Hrest : findIndex fields fieldId = None)
    by (apply IH; intros e' He'; apply Habs; by right).
  assert (Hhead : entry_id e <> Some fieldId) by (apply Habs; left).
  simpl. destruct e as [g|o].
  - destruct (String.eqb_spec (field_id g) fieldId) as [Heq|_].
    + destruct Hhead. simpl. by rewrite Heq.
    + by rewrite Hrest.
  - by rewrite Hrest.
Qed.

(** X12. [duplicateField] of an id that no field has returns the state it
    was given, time stamp included. Of an id that some field has, it copies
    the first such field: the copy is inserted right after it, with the
    generated id, the label followed by " (Copy)" and the same type,
    configuration and conditions; the array grows by one and the copy is
    selected. *)
Theorem duplicateField_copies (now newId : string) (state : State)
    (fieldId : string) :
  let fields := schema_fields (currentForm state) in
  let state' := duplicateField now newId state fieldId in
  let fields' := schema_fields (currentForm state') in
  (absent fieldId fields -> state' = state)
  /\ (forall i f,
        fields !! i = Some (Field f) -> field_id f = fieldId ->
        (forall j e, (j < i)%nat -> fields !! j = Some e ->
           entry_id e <> Some fieldId) ->
        length fields' = S (length fields)
        /\ fields' !! i = Some (Field (with_order f (Z.of_nat i)))
        /\ fields' !! S i
           = Some (Field {| field_id := newId; field_type := field_type f;
                            field_label := field_label f +:+ " (Copy)";
                            field_config := field_config f;
                            field_conditions := field_conditions f;
                            field_order := Z.of_nat (S i) |})
        /\ selectedFieldId state' = Some newId
        /\ meta_updatedAt (schema_metadata (currentForm state')) = now).
Proof.
  intros fields state' fields'. split.
  - intros Habs. subst state'. unfold duplicateField. fold fields.
    by rewrite (absent_findIndex fields fieldId Habs).
  - intros i f Hi Hid Hfirst.
    pose proof (lookup_lt_Some _ _ _ Hi) as Hlt.
    assert (Hstate : state' =
              set_form_and_selection state
                (updateFormTimestamp now
                   (with_fields (currentForm state)
                      (renumber
                         (take (S i) fields
                          ++ Field (cloneField newId f (Z.of_nat i + 1))
                          :: drop (S i) fields))))
                (Some newId)).
    { subst state'. unfold duplicateField. fold fields.
      rewrite (findIndex_first fields fieldId i f Hi Hid Hfirst).
      unfold splice. simpl. fold fields.
      assert (splice_start (length fields) (Z.of_nat i + 1) = S i) as ->.
      { unfold splice_start.
        destruct (Z.ltb_spec (Z.of_nat i + 1) 0); lia. }
      by rewrite Nat.add_0_r. }
    destruct (renumber_insert_lookup fields (S i)
                (Field (cloneField newId f (Z.of_nat i + 1))))
      as (Hnew & Hbefore & _ & Hlen); [lia|].
    subst fields'. rewrite Hstate. simpl.
    split; [exact Hlen|]. split; [|split; [|done]].
    + rewrite (Hbefore i (Field f) Hi) by lia. done.
    + rewrite Hnew. simpl. unfold with_order, cloneField. simpl.
      by rewrite Nat2Z.inj_succ, <- Z.add_1_r.
Qed.

Lemma duplicateField_copies_witness :
  duplicateField later "copy" state_abc "ghost" = state_abc
  /\ schema_fields (currentForm (duplicateField later "copy" state_abc "b"))
     !! 2%nat
     = Some (Field {| field_id := "copy"; field_type := text;
                      field_label := "Field (Copy)";
                      field_config := plain_config;
                      field_conditions := Some shown_when_a;
                      field_order := 2 |}).
Proof.
  destruct (duplicateField_copies later "copy" state_abc "ghost")
    as [Habsent _].
  destruct (duplicateField_copies later "copy" state_abc "b") as [_ Hcopy].
  split.
  - apply Habsent. exact absent_ghost_abc.
  - destruct (Hcopy 1%nat field_b) as (_ & _ & Hnew & _).
    + reflexivity.
    + reflexivity.
    + intros j e Hj He. destruct j as [|j]; [|lia].
      injection He as <-. discriminate.
    + exact Hnew.
Defined.

Lemma addField_inserts_witness :
  schema_fields (currentForm (addField later "new" state_abc number None))
  !! 3%nat
  = Some (Field {| field_id := "new"; field_type := number;
                   field_label := "Number";
                   field_config :=
                     def_defaultConfig (FieldRegistry.getFieldDefinition number);
                   field_conditions := None; field_order := 3 |})
  /\ schema_fields (currentForm (addField later "new" state_abc number (Some 1)))
     !! 2%nat
     = Some (Field (with_order field_b 2)).
Proof.
  destruct (addField_inserts later "new" state_abc number None)
    as (_ & _ & _ & Hnew & _).
  destruct (addField_inserts later "new" state_abc number (Some 1))
    as (_ & _ & _ & _ & _ & Hafter & _).
  split; [exact Hnew|].
  apply (Hafter 1%nat (Field field_b)); [reflexivity | vm_compute; lia].
Defined.

Section CloneBehaviour.

Variable RegExp_test : string -> string -> option bool.
Variable URL_parses : string -> bool.

(** The rules look at the value, not at the field they belong to. *)
Lemma first_invalid_any_field (rules : list ValidationRule) (value : Value)
    (f f' : FieldSchema) :
  first_invalid RegExp_test URL_parses rules value f
  = first_invalid RegExp_test URL_parses rules value f'.
Proof.
  induction rules as [|rule rules IH]; [done|]. simpl.
  change (validateRule RegExp_test URL_parses rule value f')
    with (validateRule RegExp_test URL_parses rule value f).
  by rewrite IH.
Qed.

(** Validation and visibility see the type, the configuration and the
    conditions of a field, and nothing else of it. *)
Lemma validateField_same_parts (f f' : FieldSchema) (value : Value)
    (data : gmap string Value) :
  field_type f' = field_type f -> field_config f' = field_config f ->
  validateField RegExp_test URL_parses f' value data
  = validateField RegExp_test URL_parses f value data.
Proof.
  intros Htype Hconfig. unfold validateField, validateFieldType.
  rewrite Htype, Hconfig.
  by rewrite (first_invalid_any_field _ value f' f).
Qed.

(** X13. A copy made by [cloneField] validates and shows exactly as its
    source does: [validateField] gives the same result on every value, and
    [evaluateConditions] the same visibility on every set of answers. *)
Theorem cloneField_same_behaviour (newId : string) (f : FieldSchema)
    (newOrder : Z) (value : Value) (data : gmap string Value)
    (allFields : list FieldSchema) :
  validateField RegExp_test URL_parses (cloneField newId f newOrder) value data
  = validateField RegExp_test URL_parses f value data
  /\ evaluateConditions (cloneField newId f newOrder) data allFields
     = evaluateConditions f data allFields.
Proof.
  split; [by apply validateField_same_parts | reflexivity].
Qed.

End CloneBehaviour.

(** ** The store: updates, the selection and the time stamp *)

Lemma updateField_entry (fieldId : string) (updates : FieldUpdates)
    (e : FieldEntry) :
  upd_id updates = None -> upd_order updates = None ->
  let e' := match e with
            | Field f =>
                if String.eqb (field_id f) fieldId
                then Field (merge_updates f updates)
                else e
            | OrderOnly _ => e
            end in
  entry_id e' = entry_id e /\ entry_order e' = entry_order e
  /\ (entry_id e <> Some fieldId -> e' = e).
Proof.
  intros Hid Horder. destruct e as [f|o]; simpl; [|done].
  destruct (String.eqb_spec (field_id f) fieldId) as [Heq|Hne]; simpl.
  - rewrite Hid, Horder. simpl. split; [done|]. split; [done|].
    intros Hne. destruct Hne. by rewrite Heq.
  - done.
Qed.

(** X14. An update that carries neither an [id] nor an [order] keeps the
    number of fields, the order invariant and the uniqueness of the ids, and
    leaves every field with another id as it was. *)
Theorem updateField_keeps_invariants (now : string) (state : State)
    (fieldId : string) (updates : FieldUpdates) :
  upd_id updates = None -> upd_order updates = None ->
  let fields := schema_fields (currentForm state) in
  let fields' :=
    schema_fields (currentForm (updateField now state fieldId updates)) in
  length fields' = length fields
  /\ (order_invariant fields -> order_invariant fields')
  /\ (ids_unique fields -> ids_unique fields')
  /\ (forall i e, fields !! i = Some e -> entry_id e <> Some fieldId ->
        fields' !! i = Some e).
Proof.
  intros Hid Horder fields fields'. subst fields'. simpl. fold fields.
  set (g := fun field : FieldEntry =>
              match field with
              | Field f => if String.eqb (field_id f) fieldId
                           then Field (merge_updates f updates) else field
              | OrderOnly _ => field
              end).
  rewrite (map_fmap g fields).
  split; [apply length_fmap|]. split; [|split].
  - intros Hinv i e'. rewrite list_lookup_fmap.
    destruct (fields !! i) as [e|] eqn:He; [|done]. simpl. intros [= <-].
    destruct (updateField_entry fieldId updates e Hid Horder) as (_ & Ho & _).
    unfold g. rewrite Ho. by apply Hinv.
  - unfold ids_unique. intros Hnodup.
    assert (omap entry_id (g <$> fields) = omap entry_id fields) as ->;
      [|done].
    clear Hnodup. induction fields as [|e l IH]; [done|].
    rewrite fmap_cons. cbn [omap list_omap].
    destruct (updateField_entry fieldId updates e Hid Horder) as (Hi & _).
    unfold g at 1. rewrite Hi. by rewrite IH.
  - intros i e He Hne. rewrite list_lookup_fmap, He. simpl. f_equal.
    unfold g. by apply (updateField_entry fieldId updates e Hid Horder).
Qed.

Lemma updateField_keeps_invariants_witness :
  order_invariant
    (schema_fields (currentForm (updateField later state_abc "b" rename_update)))
  /\ schema_fields (currentForm (updateField later state_abc "b" rename_update))
     !! 0%nat = Some (Field field_a).
Proof.
  destruct (updateField_keeps_invariants later state_abc "b" rename_update)
    as (_ & Horder & _ & Hframe); [reflexivity | reflexivity |].
  split.
  - apply Horder. intros i e.
    destruct i as [|[|[|i]]]; simpl; intros [= <-]; reflexivity.
  - apply Hframe; [reflexivity | discriminate].
Defined.

Lemma addField_fields_have (now newId : string) (state : State)
    (type : FieldType) (position : option Z) :
  newId ∈ omap entry_id
            (schema_fields (currentForm (addField now newId state type position))).
Proof.
  unfold addField.
  cbn [currentForm schema_fields set_form_and_selection updateFormTimestamp
       with_fields].
  rewrite ids_renumber.
  rewrite (splice_insert_perm _ _ (Field (createFieldSchema newId type _))).
  left.
Qed.

Lemma id_elem_omap (fields : list FieldEntry) (i : string) :
  Some i ∈ entry_id <$> fields <-> i ∈ omap entry_id fields.
Proof.
  rewrite list_elem_of_fmap, list_elem_of_omap.
  split; intros (e & He & He'); exists e; done.
Qed.

Lemma removeFieldWithCleanup_keeps_id (fields : list FieldEntry)
    (fieldId i : string) :
  i <> fieldId -> Some i ∈ entry_id <$> fields ->
  Some i ∈ entry_id <$> removeFieldWithCleanup fields fieldId.
Proof.
  intros Hne Hin. apply list_elem_of_fmap in Hin as (e & He & Hin).
  apply list_elem_of_fmap. exists (cleanup_entry fieldId e).
  split; [by rewrite cleanup_entry_id|].
  apply removeFieldWithCleanup_elem. exists e.
  split; [done|]. split; [|done]. rewrite <- He. congruence.
Qed.

(** X15. The selection stays on a field of the form. When the selected id
    is the id of a field, it still is after every action of the store, as
    long as [selectField] is given the id of a field (or none) and
    [updateField] does not change an id. In particular [removeField] never
    leaves the removed field selected, and [addField] and [duplicateField]
    select the field they insert. *)
Theorem dispatch_keeps_selection (now newId : string) (action : Action)
    (state : State) :
  match action with
  | SelectField (Some i) =>
      Some i ∈ entry_id <$> schema_fields (currentForm state)
  | UpdateField _ updates => upd_id updates = None
  | _ => True
  end ->
  selection_valid state ->
  selection_valid (dispatch now newId action state).
Proof.
  intros Hside Hvalid.
  destruct action as [m | sel | | schema | metadata | settings | type position
                      | fieldId updates | fieldId | fieldId | fromIndex toIndex
                      | fieldId value | ]; simpl;
    try exact Hvalid; try (intros i Hi; discriminate Hi).
  - (* selectField *)
    intros i Hi. simpl in Hi. subst sel. exact Hside.
  - (* addField *)
    intros i Hi. simpl in Hi. injection Hi as <-.
    apply id_elem_omap, addField_fields_have.
  - (* updateField *)
    intros i Hi. simpl in Hi. specialize (Hvalid i Hi). simpl.
    rewrite (map_fmap _ (schema_fields (currentForm state))).
    rewrite <- list_fmap_compose.
    apply list_elem_of_fmap in Hvalid as (e & He & Hin).
    apply list_elem_of_fmap. exists e. split; [|done]. rewrite He. simpl.
    destruct e as [f|o]; [|done].
    destruct (String.eqb (field_id f) fieldId); [|done].
    simpl. by rewrite Hside.
  - (* removeField *)
    intros i Hi. simpl in Hi.
    destruct (decide (selectedFieldId state = Some fieldId)) as [|Hne];
      [discriminate|].
    simpl. apply removeFieldWithCleanup_keeps_id; [congruence|].
    by apply Hvalid.
  - (* duplicateField *)
    unfold duplicateField.
    destruct (findIndex _ fieldId) as [[k f]|] eqn:Hfind; [|exact Hvalid].
    intros i Hi. simpl in Hi. injection Hi as <-.
    cbn [currentForm schema_fields set_form_and_selection updateFormTimestamp
         with_fields].
    apply id_elem_omap. rewrite ids_renumber.
    rewrite (splice_insert_perm _ _ (Field (cloneField newId f _))).
    left.
  - (* reorderField *)
    intros i Hi. simpl in Hi. specialize (Hvalid i Hi). simpl.
    apply id_elem_omap. rewrite reorderFields_ids. by apply id_elem_omap.
Qed.

Lemma dispatch_keeps_selection_witness :
  selection_valid
    (dispatch later "new" (RemoveField "a")
       (selectField state_abc (Some "b")))
  /\ selectedFieldId
       (dispatch later "new" (RemoveField "b")
          (selectField state_abc (Some "b"))) = None.
Proof.
  split; [|reflexivity].
  apply (dispatch_keeps_selection later "new" (RemoveField "a")
           (selectField state_abc (Some "b"))); [exact I|].
  intros i Hi. injection Hi as <-. apply list_elem_of_In. simpl. tauto.
Defined.

(** X16. Every action of the store other than [newForm] and [loadForm]
    keeps the id and the version of the form, and changes the form only
    together with its time stamp: afterwards the form is the one before, or
    its [updatedAt] is the current time. The actions that edit the form leave
    the answers in [formData] alone. *)
Theorem dispatch_stamps (now newId : string) (action : Action)
    (state : State) :
  action <> NewForm -> (forall schema, action <> LoadForm schema) ->
  let state' := dispatch now newId action state in
  schema_id (currentForm state') = schema_id (currentForm state)
  /\ schema_version (currentForm state') = schema_version (currentForm state)
  /\ (currentForm state' = currentForm state
      \/ meta_updatedAt (schema_metadata (currentForm state')) = now)
  /\ match action with
     | SetFieldValue _ _ | ResetFormData => True
     | _ => formData state' = formData state
     end.
Proof.
  intros Hnew Hload.
  destruct action as [m | sel | | schema | metadata | settings | type position
                      | fieldId updates | fieldId | fieldId | fromIndex toIndex
                      | fieldId value | ]; simpl;
    try (by destruct Hnew); try (by destruct (Hload schema));
    try (split; [done|]; split; [done|]; split; [by left | done]);
    try (split; [done|]; split; [done|]; split; [by right | done]).
  unfold duplicateField.
  destruct (findIndex _ fieldId) as [[k f]|].
  - split; [done|]. split; [done|]. split; [by right | done].
  - split; [done|]. split; [done|]. split; [by left | done].
Qed.

Lemma dispatch_stamps_witness :
  meta_updatedAt
    (schema_metadata
       (currentForm (dispatch later "new" (ReorderField 0 2) state_abc)))
  = later.
Proof.
  destruct (dispatch_stamps later "new" (ReorderField 0 2) state_abc)
    as (_ & _ & [Hsame | Hstamp] & _); [discriminate | discriminate | |].
  - apply (f_equal (fun form => entry_id <$> schema_fields form)) in Hsame.
    vm_compute in Hsame. discriminate Hsame.
  - exact Hstamp.
Defined.

(** ** Validation of one field *)

Section ValidateFieldMore.

Variable RegExp_test : string -> string -> option bool.
Variable URL_parses : string -> bool.

Local Abbreviation validateRule := (validateRule RegExp_test URL_parses).
Local Abbreviation validateField := (validateField RegExp_test URL_parses).
Local Abbreviation first_invalid := (first_invalid RegExp_test URL_parses).

(** X17. [validateField] and the values that are no answer. A value is
    empty for the engine exactly when it is [undefined], [null], a string of
    white space only (tabs, line breaks, spaces, no-break spaces; the empty
    string too) or the empty array, so [0], [false], a [File] and any other
    object are answers. On such a value a field whose configuration says [required]
    fails with the message "This field is required", whatever its rules; and
    a field that is not required passes, whatever its rules and its type. *)
Theorem validateField_blank (field : FieldSchema) (value : Value)
    (data : gmap string Value) :
  (isEmpty value = true <-> blank value)
  /\ (blank value -> cfg_required (field_config field) = Some true ->
      validateField field value data = failed "This field is required")
  /\ (blank value -> cfg_required (field_config field) <> Some true ->
      validateField field value data = ok).
Proof.
  split; [apply isEmpty_blank|]. split.
  - intros Hblank Hreq. apply isEmpty_blank in Hblank.
    unfold Validation.validateField. by rewrite Hreq, Hblank.
  - intros Hblank Hreq. apply isEmpty_blank in Hblank.
    unfold Validation.validateField. rewrite Hblank.
    destruct (cfg_required (field_config field)) as [[]|]; done.
Qed.

(** The result on a value that is an answer: the first rule that fails, or
    else the checks of the type. *)
Lemma validateField_answer (field : FieldSchema) (value : Value)
    (data : gmap string Value) :
  isEmpty value = false ->
  validateField field value data
  = match first_invalid (default [] (cfg_validation (field_config field)))
                        value field with
    | Some result => result
    | None => type_result field value
    end.
Proof.
  intros Hvalue. unfold Validation.validateField. rewrite Hvalue.
  by rewrite andb_false_r.
Qed.

Lemma first_invalid_app (pre post : list ValidationRule) (value : Value)
    (field : FieldSchema) :
  (forall q, q ∈ pre -> result_valid (validateRule q value field) = true) ->
  first_invalid (pre ++ post) value field = first_invalid post value field.
Proof.
  induction pre as [|q pre IH]; intros Hpre; [done|]. simpl.
  rewrite (Hpre q) by left. simpl. apply IH. intros q' Hq'. apply Hpre.
  by right.
Qed.

(** X18. The first failure wins. On a value that is an answer, when the
    rules before [rule] in the list all pass and [rule] fails, the result of
    [validateField] is that of [rule]: the rules after it and the checks of
    the field's type are not consulted. When every rule passes, the result is
    that of the checks of the type. *)
Theorem validateField_first_failure (field : FieldSchema) (value : Value)
    (data : gmap string Value) (pre post : list ValidationRule)
    (rule : ValidationRule) :
  isEmpty value = false ->
  (forall q, q ∈ pre -> result_valid (validateRule q value field) = true) ->
  (cfg_validation (field_config field) = Some (pre ++ rule :: post) ->
   result_valid (validateRule rule value field) = false ->
   validateField field value data = validateRule rule value field)
  /\ (cfg_validation (field_config field) = Some pre ->
      validateField field value data = type_result field value).
Proof.
  intros Hvalue Hpre. split.
  - intros Hrules Hfails. rewrite (validateField_answer _ _ _ Hvalue), Hrules.
    simpl. rewrite (first_invalid_app pre (rule :: post) _ _ Hpre). simpl.
    by rewrite Hfails.
  - intros Hrules. rewrite (validateField_answer _ _ _ Hvalue), Hrules. simpl.
    rewrite <- (app_nil_r pre). by rewrite (first_invalid_app pre [] _ _ Hpre).
Qed.

(** A rule of type [required] passes on every answer. *)
Lemma first_invalid_without_required (rules : list ValidationRule)
    (value : Value) (field field' : FieldSchema) :
  isEmpty value = false ->
  first_invalid (without_required rules) value field'
  = first_invalid rules value field.
Proof.
  intros Hvalue. unfold without_required.
  induction rules as [|q rules IH]; [done|].
  rewrite filter_cons. destruct (decide (vrule_type q <> vt_required)) as [Hq|Hq].
  - simpl. rewrite IH.
    change (Validation.validateRule RegExp_test URL_parses q value field')
      with (Validation.validateRule RegExp_test URL_parses q value field).
    done.
  - apply dec_stable in Hq. rewrite IH. simpl.
    unfold Validation.validateRule. by rewrite Hq, Hvalue.
Qed.

(** X19. A rule of type [required] in the [validation] list has no effect:
    [validateField] gives the same result, on every value, when these rules
    are taken out of the list. Whether an empty value is refused is decided
    by [config.required] alone, and the message of such a rule is never
    shown. *)
Theorem validateField_required_rule_dead (field : FieldSchema) (value : Value)
    (data : gmap string Value) :
  validateField
    (with_config field
       (with_validation (field_config field)
          (without_required <$> cfg_validation (field_config field))))
    value data
  = validateField field value data.
Proof.
  destruct (isEmpty value) eqn:Hvalue.
  - unfold Validation.validateField. simpl. by rewrite Hvalue.
  - rewrite !(validateField_answer _ _ _ Hvalue). simpl.
    assert (Hrules :
      default [] (without_required <$> cfg_validation (field_config field))
      = without_required (default [] (cfg_validation (field_config field))))
      by (by destruct (cfg_validation (field_config field))).
    rewrite Hrules.
    rewrite (first_invalid_without_required _ value field _ Hvalue).
    reflexivity.
Qed.

(** X20. No rule fails on a value that is an answer and is neither a string
    nor a number (a boolean, a [File], an array that is not empty): the
    result of [validateField] is that of the checks of the field's type,
    whatever the rules are. *)
Theorem validateField_other_values (field : FieldSchema) (value : Value)
    (data : gmap string Value) :
  isEmpty value = false ->
  (forall s, value <> VStr s) -> (forall n, value <> VNum n) ->
  (forall rule, validateRule rule value field = ok)
  /\ validateField field value data = type_result field value.
Proof.
  intros Hvalue Hstr Hnum.
  assert (Hrule : forall rule, validateRule rule value field = ok).
  { intros rule. unfold Validation.validateRule.
    destruct (vrule_type rule); rewrite ?Hvalue; try done;
      destruct value; try done; try (by destruct (Hstr s));
      by destruct (Hnum n). }
  split; [exact Hrule|].
  rewrite (validateField_answer _ _ _ Hvalue).
  assert (Hnone : forall rules, first_invalid rules value field = None).
  { induction rules as [|q rules IH]; [done|]. simpl. by rewrite Hrule. }
  by rewrite Hnone.
Qed.

End ValidateFieldMore.

Lemma validateField_blank_witness :
  validateField no_regexp any_url state_field
    (VStr (String "160"%char " ")) ∅
  = failed "This field is required"
  /\ validateField no_regexp any_url code_field VNull ∅ = ok.
Proof.
  split.
  - apply (validateField_blank no_regexp any_url state_field
             (VStr (String "160"%char " ")) ∅).
    + right; right; left. exists (String "160"%char " ").
      split; [reflexivity|]. apply forallb_white_codes. reflexivity.
    + reflexivity.
  - apply (validateField_blank no_regexp any_url code_field VNull ∅).
    + right; left. reflexivity.
    + discriminate.
Defined.

Lemma validateField_first_failure_witness :
  validateField no_regexp any_url code_field (VStr "ab") ∅
  = failed "Too short"
  /\ validateField no_regexp any_url code_field (VStr "abcd") ∅
     = failed "Please enter a valid email address".
Proof.
  split.
  - apply (validateField_first_failure no_regexp any_url code_field
             (VStr "ab") ∅ [] [is_email] min_3); try reflexivity.
    intros q Hq. by apply elem_of_nil in Hq.
  - apply (validateField_first_failure no_regexp any_url code_field
             (VStr "abcd") ∅ [min_3] [] is_email); try reflexivity.
    intros q Hq. apply list_elem_of_singleton in Hq as ->. reflexivity.
Defined.

Lemma validateField_other_values_witness :
  validateField no_regexp any_url code_field (VBool false) ∅ = ok.
Proof.
  apply (validateField_other_values no_regexp any_url code_field
           (VBool false) ∅); [reflexivity | discriminate | discriminate].
Defined.

(** ** Accepted file types *)

Lemma string_eqb_append_nil (s : string) : s +:+ "" = s.
Proof.
  induction s as [|c s IH]; [done|].
  change (String c s +:+ "") with (String c (s +:+ "")). by rewrite IH.
Qed.

Lemma endsWith_append (a b : string) : endsWith (a +:+ b) b = true.
Proof.
  induction a as [|c a IH].
  - change ("" +:+ b) with b. destruct b as [|d b]; simpl; [done|].
    by rewrite Ascii.eqb_refl, String.eqb_refl.
  - change (String c a +:+ b) with (String c (a +:+ b)). simpl.
    rewrite IH. apply orb_true_r.
Qed.

Lemma length_append_wildcard (cat : string) :
  String.length (cat +:+ "/*") = S (S (String.length cat)).
Proof.
  induction cat as [|c cat IH]; [done|].
  change (String c cat +:+ "/*") with (String c (cat +:+ "/*")). simpl.
  by rewrite IH.
Qed.

Lemma drop_last2_wildcard (cat : string) : drop_last2 (cat +:+ "/*") = cat.
Proof.
  unfold drop_last2. rewrite length_append_wildcard. simpl.
  rewrite Nat.sub_0_r.
  induction cat as [|c cat IH]; [done|].
  change (String c cat +:+ "/*") with (String c (cat +:+ "/*")). simpl.
  by rewrite IH.
Qed.

(** X21. Two edges of [isFileTypeAccepted]. An entry [cat/*] accepts a file
    exactly when its MIME type starts with [cat]: the slash is cut off with
    the star, so [image/*] also accepts a type such as [imagery/x]. And a
    list of accepted types with an empty entry, as the [accept] strings [""]
    and ["image/*,"] give, accepts every file. *)
Theorem isFileTypeAccepted_edges (f : File) :
  (forall cat,
     isFileTypeAccepted f [cat +:+ "/*"] = startsWith (file_type f) cat)
  /\ (forall types, "" ∈ types -> isFileTypeAccepted f types = true)
  /\ map trim (split_comma "") = [""]
  /\ "" ∈ map trim (split_comma "image/*,").
Proof.
  split; [|split; [|split]].
  - intros cat. unfold isFileTypeAccepted. simpl.
    rewrite endsWith_append, drop_last2_wildcard. apply orb_false_r.
  - intros types Hin. unfold isFileTypeAccepted. apply existsb_exists.
    exists "". split; [by apply list_elem_of_In|]. simpl.
    assert (endsWith (file_name f) "" = true) as ->.
    { rewrite <- (string_eqb_append_nil (file_name f)) at 1.
      apply endsWith_append. }
    apply orb_true_r.
  - reflexivity.
  - vm_compute. apply list_elem_of_In. simpl. tauto.
Qed.

Lemma isFileTypeAccepted_edges_witness :
  isFileTypeAccepted (mkFile "notes.txt" (Int 10) "imagery/x") ["image/*"]
  = true
  /\ isFileTypeAccepted (mkFile "notes.txt" (Int 10) "text/plain")
       (map trim (split_comma "image/*,")) = true.
Proof.
  destruct (isFileTypeAccepted_edges
              (mkFile "notes.txt" (Int 10) "imagery/x")) as (Hwild & _).
  destruct (isFileTypeAccepted_edges
              (mkFile "notes.txt" (Int 10) "text/plain"))
    as (_ & Hempty & _ & Hin).
  split.
  - exact (Hwild "image").
  - apply Hempty. exact Hin.
Defined.

(** ** Visibility and the validation of the form *)

(** X22. The visibility of a field depends on the answers to the fields its
    rules name, and on nothing else: two sets of answers that agree on these
    fields give the same visibility, whatever list of fields is passed. *)
Theorem evaluateConditions_frame (field : FieldSchema)
    (data data' : gmap string Value) (allFields allFields' : list FieldSchema) :
  (forall c, field_conditions field = Some c -> agree_on_rules c data data') ->
  evaluateConditions field data allFields
  = evaluateConditions field data' allFields'.
Proof.
  intros Hagree. unfold evaluateConditions.
  destruct (field_conditions field) as [c|]; [|done].
  specialize (Hagree c eq_refl). unfold agree_on_rules in Hagree.
  destruct (Nat.eqb (length (cond_rules c)) 0); [done|].
  assert (Hresults :
    map (fun rule => evaluateCondition (rule_operator rule)
                       (get_value data (rule_field rule)) (rule_value rule))
        (cond_rules c)
    = map (fun rule => evaluateCondition (rule_operator rule)
                         (get_value data' (rule_field rule)) (rule_value rule))
          (cond_rules c)).
  { apply map_ext_in. intros r Hr. rewrite Hagree; [done|].
    by apply list_elem_of_In. }
  by rewrite Hresults.
Qed.

Lemma evaluateConditions_frame_witness :
  evaluateConditions field_b {["a" := VStr "yes"; "z" := VNum (Int 1)]} []
  = evaluateConditions field_b {["a" := VStr "yes"]} [field_a].
Proof.
  apply evaluateConditions_frame. intros c [= <-] r Hr.
  apply list_elem_of_singleton in Hr as ->. reflexivity.
Defined.

Section ValidateFormMore.

Variable RegExp_test : string -> string -> option bool.
Variable URL_parses : string -> bool.

Local Abbreviation validateForm := (validateForm RegExp_test URL_parses).
Local Abbreviation field_result := (field_result RegExp_test URL_parses).

(** With unique ids the error recorded under an id is that of the one field
    with this id. *)
Lemma NoDup_field_id (fields : list FieldSchema) (f g : FieldSchema) :
  NoDup (field_id <$> fields) -> f ∈ fields -> g ∈ fields ->
  field_id f = field_id g -> f = g.
Proof.
  intros Hnodup Hf Hg Hid.
  apply list_elem_of_lookup in Hf as [i Hi].
  apply list_elem_of_lookup in Hg as [j Hj].
  assert (i = j) as ->.
  { apply (NoDup_lookup _ i j (field_id f) Hnodup).
    - by rewrite list_lookup_fmap, Hi.
    - by rewrite list_lookup_fmap, Hj, Hid. }
  congruence.
Qed.

Lemma validateForm_error_iff (fields : list FieldSchema)
    (data : gmap string Value) (k msg : string) :
  NoDup (field_id <$> fields) ->
  form_errors (validateForm fields data) !! k = Some msg
  <-> k <> "__proto__"
      /\ exists f, f ∈ fields /\ field_id f = k /\ validated fields data f
            /\ result_valid (field_result data f) = false
            /\ result_error (field_result data f) = Some msg.
Proof.
  intros Hnodup.
  destruct (validateForm_errors RegExp_test URL_parses fields data)
    as [Hfrom Hfail].
  split.
  - apply Hfrom.
  - intros (Hproto & f & Hf & <- & Hval & Hinvalid & Herror).
    destruct (Hfail f Hf Hval Hinvalid Hproto) as [msg' Hmsg'].
    destruct (Hfrom _ _ Hmsg') as (_ & g & Hg & Hid & _ & _ & Hgerr).
    assert (g = f) as -> by (by apply (NoDup_field_id fields)).
    congruence.
Qed.

(** X23. The order of the fields does not matter to [validateForm] when the
    ids are unique: a permutation of the fields gives the same errors and the
    same verdict. *)
Theorem validateForm_permutation (fields fields' : list FieldSchema)
    (data : gmap string Value) :
  NoDup (field_id <$> fields) -> fields ≡ₚ fields' ->
  form_errors (validateForm fields' data)
  = form_errors (validateForm fields data)
  /\ form_valid (validateForm fields' data)
     = form_valid (validateForm fields data).
Proof.
  intros Hnodup Hperm.
  assert (Hnodup' : NoDup (field_id <$> fields')) by (by rewrite <- Hperm).
  assert (Herrors : form_errors (validateForm fields' data)
                    = form_errors (validateForm fields data)).
  { apply map_eq. intros k. apply option_eq. intros msg.
    rewrite !validateForm_error_iff by done.
    split; intros (Hproto & f & Hf & Hrest);
      (split; [exact Hproto|]); exists f; split;
      try exact Hrest; by rewrite ?Hperm in *. }
  split; [exact Herrors|].
  apply Bool.eq_true_iff_eq. rewrite !form_valid_empty. by rewrite Herrors.
Qed.

(** X24. What [handleSubmit] of the renderer leaves. When the form is valid
    the answers and the errors are cleared. When it is not, the answers are
    kept, and every error shown belongs to a field that the renderer
    displays: it is the id of a field in [visibleFields]. *)
Theorem handleSubmit_errors_rendered (fields : list FieldSchema)
    (st : RendererState) :
  let st' := handleSubmit RegExp_test URL_parses fields st in
  (form_valid (validateForm fields (r_formData st)) = true ->
   r_formData st' = ∅ /\ r_errors st' = ∅)
  /\ (form_valid (validateForm fields (r_formData st)) = false ->
      r_formData st' = r_formData st /\ r_errors st' <> ∅)
  /\ (forall k msg, r_errors st' !! k = Some msg ->
        exists f, f ∈ visibleFields fields (r_formData st)
                  /\ field_id f = k).
Proof.
  intros st'. subst st'. unfold handleSubmit.
  destruct (form_valid (validateForm fields (r_formData st))) eqn:Hvalid;
    simpl.
  - split; [done|]. split; [done|]. intros k msg Hk.
    by rewrite lookup_empty in Hk.
  - split; [done|]. split.
    + intros _. split; [done|]. intros Hempty.
      apply form_valid_empty in Hempty. congruence.
    + intros k msg Hk.
      destruct (validateForm_errors RegExp_test URL_parses fields
                  (r_formData st)) as [Hfrom _].
      destruct (Hfrom k msg Hk) as (_ & f & Hf & Hid & Hval & _).
      exists f. split; [|done]. unfold visibleFields.
      apply list_elem_of_filter. split; [|done].
      destruct Hval as (_ & _ & Hvisible). unfold is_rendered.
      rewrite Hvisible. destruct (field_type f); try done;
        by destruct (field_conditions f).
Qed.

End ValidateFormMore.

(** ** Fields as the registry creates them, operators and bounds *)

Section RegistryDefaults.

Variable RegExp_test : string -> string -> option bool.
Variable URL_parses : string -> bool.

Local Abbreviation validateForm := (validateForm RegExp_test URL_parses).
Local Abbreviation validateField := (validateField RegExp_test URL_parses).

(** X25. No default configuration of the registry makes a field required
    or conditional. So a form whose fields are all as [createFieldSchema]
    makes them (what [addField] inserts) shows every field and accepts a
    submission that answers none of them; [handleSubmit] then clears the
    answers and the errors. *)
Theorem createFieldSchema_optional (fields : list FieldSchema)
    (data : gmap string Value) :
  (forall f, f ∈ fields ->
     exists newId type order, f = createFieldSchema newId type order) ->
  (forall f, f ∈ fields -> blank (get_value data (field_id f))) ->
  visibleFields fields data = fields
  /\ validateForm fields data
     = {| form_valid := true; form_errors := ∅ |}
  /\ handleSubmit RegExp_test URL_parses fields
       {| r_formData := data; r_errors := ∅ |}
     = {| r_formData := ∅; r_errors := ∅ |}.
Proof.
  intros Hcreated Hblank.
  assert (Hvisible : visibleFields fields data = fields).
  { unfold visibleFields. apply filter_all. intros f Hf.
    destruct (Hcreated f Hf) as (newId & type & order & ->).
    unfold is_rendered. by destruct type. }
  assert (Herrors : form_errors (validateForm fields data) = ∅).
  { apply map_eq. intros k. rewrite lookup_empty.
    destruct (form_errors (validateForm fields data) !! k) as [msg|] eqn:Hk;
      [|done].
    destruct (validateForm_errors RegExp_test URL_parses fields data)
      as [Hfrom _].
    destruct (Hfrom k msg Hk) as (_ & f & Hf & _ & _ & Hinvalid & _).
    exfalso. pose proof (Hblank f Hf) as Hvalue.
    apply isEmpty_blank in Hvalue.
    destruct (Hcreated f Hf) as (newId & type & order & ->).
    unfold field_result, Validation.validateField in Hinvalid.
    rewrite Hvalue in Hinvalid. by destruct type. }
  assert (Hvalid : form_valid (validateForm fields data) = true)
    by (by apply form_valid_empty).
  split; [exact Hvisible|]. split.
  - destruct (validateForm fields data) as [valid errors] eqn:Hform.
    simpl in Herrors, Hvalid. by subst.
  - unfold handleSubmit. cbn [r_formData]. by rewrite Hvalid.
Qed.

(** X26. The bounds on the selections of a checkbox group. An empty
    selection passes when the field is not required, whatever
    [minSelections] says; a selection that is not empty passes exactly when
    its length is within the two bounds, whatever the rules of the field
    are. *)
Theorem validateField_selections (field : FieldSchema) (lo hi : Z)
    (ref : nat) (items : list Value) (data : gmap string Value) :
  field_type field = checkbox ->
  cfg_minSelections (field_config field) = Some (Int lo) ->
  cfg_maxSelections (field_config field) = Some (Int hi) ->
  (cfg_required (field_config field) <> Some true ->
   validateField field (VArr ref []) data = ok)
  /\ (items <> [] ->
      (result_valid (validateField field (VArr ref items) data) = true
       <-> lo <= Z.of_nat (length items) <= hi)).
Proof.
  intros Htype Hmin Hmax. split.
  - intros Hreq. unfold Validation.validateField. simpl.
    by destruct (cfg_required (field_config field)) as [[]|].
  - intros Hitems.
    assert (Hvalue : isEmpty (VArr ref items) = false)
      by (by destruct items).
    rewrite (validateField_answer _ _ _ _ _ Hvalue).
    assert (Hnone : forall rules,
              first_invalid RegExp_test URL_parses rules (VArr ref items) field
              = None).
    { induction rules as [|q rules IH]; [done|]. simpl.
      assert (Hrule : validateRule RegExp_test URL_parses q (VArr ref items)
                        field = ok).
      { unfold Validation.validateRule.
        destruct (vrule_type q); rewrite ?Hvalue; done. }
      by rewrite Hrule. }
    rewrite Hnone. unfold type_result, validateFieldType.
    rewrite Htype, Hmin, Hmax. unfold check, or_else, num_gtb, num_ltb.
    destruct (Z.ltb_spec (Z.of_nat (length items)) lo);
      destruct (Z.ltb_spec hi (Z.of_nat (length items))); simpl;
      split; try done; try lia.
Qed.

(** X27. The bounds of a number field without rules. An integer passes
    exactly when it is within [min] and [max]; [NaN] passes, because every
    comparison with it is false; and an answer that is a string, as a text
    input produces, passes whatever the bounds are. *)
Theorem validateField_number_bounds (field : FieldSchema) (lo hi : Z)
    (data : gmap string Value) :
  field_type field = number ->
  cfg_validation (field_config field) = None ->
  cfg_min (field_config field) = Some (Int lo) ->
  cfg_max (field_config field) = Some (Int hi) ->
  (forall n, result_valid (validateField field (VNum n) data) = true
             <-> n = NaN \/ exists v, n = Int v /\ lo <= v <= hi)
  /\ (forall s, isEmpty (VStr s) = false ->
        validateField field (VStr s) data = ok).
Proof.
  intros Htype Hrules Hmin Hmax. split.
  - intros n. rewrite validateField_answer by done. rewrite Hrules.
    cbn [default first_invalid Validation.first_invalid].
    unfold type_result, validateFieldType.
    rewrite Htype, Hmin, Hmax. unfold check, or_else, num_gtb, num_ltb.
    destruct n as [|v].
    + split; [by left | done].
    + destruct (Z.ltb_spec v lo); destruct (Z.ltb_spec hi v); simpl;
        (split; [intros ?; right; exists v; (done || (split; [done|lia]))
                | intros [? | (? & [= <-] & ?)]; (done || lia)]).
  - intros s Hs. rewrite validateField_answer by done. rewrite Hrules.
    cbn [default first_invalid Validation.first_invalid].
    unfold type_result, validateFieldType. by rewrite Htype, Hmin, Hmax.
Qed.

End RegistryDefaults.

(** X28. The operators of a rule and their opposites. [notEquals],
    [notContains] and [isNotEmpty] answer the opposite of [equals],
    [contains] and [isEmpty] on every pair of values. The four comparisons
    are different: each is true only between two numbers, so on an answer
    that is not a number (a field not answered yet, a string) [lessThan] and
    [greaterThanOrEqual] are both false; between two numbers other than
    [NaN] they are opposite. *)
Theorem evaluateCondition_opposites (fieldValue compareValue : Value) :
  evaluateCondition op_notEquals fieldValue compareValue
  = negb (evaluateCondition op_equals fieldValue compareValue)
  /\ evaluateCondition op_notContains fieldValue compareValue
     = negb (evaluateCondition op_contains fieldValue compareValue)
  /\ evaluateCondition op_isNotEmpty fieldValue compareValue
     = negb (evaluateCondition op_isEmpty fieldValue compareValue)
  /\ (forall op,
        op ∈ [op_greaterThan; op_lessThan; op_greaterThanOrEqual;
              op_lessThanOrEqual] ->
        evaluateCondition op fieldValue compareValue = true ->
        exists x y, fieldValue = VNum (Int x) /\ compareValue = VNum (Int y))
  /\ (forall x y,
        fieldValue = VNum (Int x) -> compareValue = VNum (Int y) ->
        evaluateCondition op_lessThan fieldValue compareValue
        = negb (evaluateCondition op_greaterThanOrEqual fieldValue
                  compareValue)
        /\ evaluateCondition op_greaterThan fieldValue compareValue
           = negb (evaluateCondition op_lessThanOrEqual fieldValue
                     compareValue)).
Proof.
  split; [done|]. split.
  { destruct fieldValue, compareValue; simpl; try done;
      by rewrite ?negb_involutive. }
  split; [done|]. split.
  - intros op Hop Htrue.
    repeat (apply elem_of_cons in Hop as [-> | Hop]);
      try (by apply elem_of_nil in Hop);
      destruct fieldValue as [| | |[|x]| | | |],
               compareValue as [| | |[|y]| | | |];
      try discriminate; by exists x, y.
  - intros x y -> ->. simpl. unfold num_gtb, num_geb, num_ltb, num_leb.
    split; [apply Z.ltb_antisym | apply Z.ltb_antisym].
Qed.

Lemma validateForm_permutation_witness :
  form_errors (validateForm no_regexp any_url [state_field; country]
                 {["country" := VStr "US"]})
  = form_errors (validateForm no_regexp any_url [country; state_field]
                   {["country" := VStr "US"]}).
Proof.
  apply (validateForm_permutation no_regexp any_url [country; state_field]
           [state_field; country] {["country" := VStr "US"]}).
  - repeat constructor; set_solver.
  - apply perm_swap.
Defined.

Lemma handleSubmit_errors_rendered_witness :
  exists f, f ∈ visibleFields [country; state_field]
                  {["country" := VStr "US"]}
            /\ field_id f = "state".
Proof.
  destruct (handleSubmit_errors_rendered no_regexp any_url
              [country; state_field]
              {| r_formData := {["country" := VStr "US"]}; r_errors := ∅ |})
    as (_ & _ & Hshown).
  apply (Hshown "state" "This field is required").
  vm_compute. reflexivity.
Defined.

Lemma createFieldSchema_optional_witness :
  validateForm no_regexp any_url
    [createFieldSchema "f1" email 0; createFieldSchema "f2" checkbox 1] ∅
  = {| form_valid := true; form_errors := ∅ |}.
Proof.
  apply (createFieldSchema_optional no_regexp any_url
           [createFieldSchema "f1" email 0; createFieldSchema "f2" checkbox 1]
           ∅).
  - intros f Hf. apply list_elem_of_In in Hf. simpl in Hf.
    destruct Hf as [<- | [<- | []]].
    + by exists "f1", email, 0.
    + by exists "f2", checkbox, 1.
  - intros f Hf. apply list_elem_of_In in Hf. simpl in Hf.
    destruct Hf as [<- | [<- | []]]; left; reflexivity.
Defined.

Lemma validateField_selections_witness :
  validateField no_regexp any_url toppings (VArr 0 []) ∅ = ok
  /\ (result_valid
        (validateField no_regexp any_url toppings
           (VArr 0 [VStr "option1"; VStr "option2"; VStr "option3"]) ∅)
      = true
      <-> 1 <= Z.of_nat 3 <= 2).
Proof.
  destruct (validateField_selections no_regexp any_url toppings 1 2 0
              [VStr "option1"; VStr "option2"; VStr "option3"] ∅)
    as [Hempty Hsome]; try reflexivity.
  split; [apply Hempty; discriminate | apply Hsome; discriminate].
Defined.

Lemma validateField_number_bounds_witness :
  result_valid (validateField no_regexp any_url age (VNum NaN) ∅) = true
  /\ (result_valid (validateField no_regexp any_url age (VNum (Int 17)) ∅)
      = true
      <-> Int 17 = NaN \/ exists v, Int 17 = Int v /\ 18 <= v <= 99)
  /\ validateField no_regexp any_url age (VStr "17") ∅ = ok.
Proof.
  destruct (validateField_number_bounds no_regexp any_url age 18 99 ∅)
    as (Hnumber & Hstring); try reflexivity.
  split; [apply Hnumber; by left|].
  split; [apply Hnumber | apply Hstring; reflexivity].
Defined.
